(** * Ask-Maps: the response-to-UI reconciliation pipeline

    A shallow embedding of the route parser, the tool-call executor, the
    conversation controller ([handleSend]), the model-call wrapper
    ([askMaps]) and the voice session's message handler, followed by the
    properties proved about them.

    The repository holds two revisions of the application component:
    - [src/App.tsx]: the schematic map ([MockMap]), with viewport-relative
      marker coordinates and a [centerX]/[centerY] map centre; embedded in
      [Module Mock];
    - [src/unnamed/part_001]: the Leaflet map, with [lat]/[lng] coordinates, a
      distance pattern in the route parser and the [[ACTION: SHOW_MAP]]
      display directive; embedded in [Module Leaflet].
    [src/unnamed/part_000] is the model-call service ([Module GeminiService]). *)

From Stdlib Require Import String Ascii.
From Stdlib Require Import NArith ZArith Bool Lia Floats PeanoNat List.
Import ListNotations.

(* ================================================================== *)
(** * Part I: definitions                                              *)
(* ================================================================== *)

(** ** JavaScript strings and values *)

Module JS.

(** A JavaScript string is a sequence of UTF-16 code units. *)
Definition char := N.
Definition jsstring := list char.

(** A source literal made of ASCII characters. *)
Definition lit (s : string) : jsstring :=
  map N_of_ascii (list_ascii_of_string s).

Fixpoint str_eqb (a b : jsstring) : bool :=
  match a, b with
  | [], [] => true
  | x :: a', y :: b' => N.eqb x y && str_eqb a' b'
  | _, _ => false
  end.

Definition between (lo hi c : char) : bool := N.leb lo c && N.leb c hi.
Arguments between (lo hi c)%_N_scope.

(** ECMAScript LineTerminator: LF, CR, LS, PS. *)
Definition isLineTerminator (c : char) : bool :=
  N.eqb c 10 || N.eqb c 13 || N.eqb c 8232 || N.eqb c 8233.

(** ECMAScript WhiteSpace: TAB, VT, FF, SP, NBSP, ZWNBSP and category Zs. *)
Definition isWhiteSpace (c : char) : bool :=
  N.eqb c 9 || N.eqb c 11 || N.eqb c 12 || N.eqb c 32 || N.eqb c 160
  || N.eqb c 5760 || between 8192 8202 c || N.eqb c 8239 || N.eqb c 8287
  || N.eqb c 12288 || N.eqb c 65279.

(** What [\s] matches and what [trim] strips. *)
Definition isSpace (c : char) : bool := isWhiteSpace c || isLineTerminator c.

(** [\d] *)
Definition isDigit (c : char) : bool := between 48 57 c.

(** [\w] *)
Definition isWord (c : char) : bool :=
  between 97 122 c || between 65 90 c || isDigit c || N.eqb c 95.

(** [.] without the [s] flag. *)
Definition isDot (c : char) : bool := negb (isLineTerminator c).

Fixpoint dropWhile (p : char -> bool) (s : jsstring) : jsstring :=
  match s with
  | c :: s' => if p c then dropWhile p s' else s
  | [] => []
  end.

Definition trimStart (s : jsstring) : jsstring := dropWhile isSpace s.
Definition trimEnd (s : jsstring) : jsstring := rev (dropWhile isSpace (rev s)).
(** [String.prototype.trim] *)
Definition trim (s : jsstring) : jsstring := trimEnd (trimStart s).

Fixpoint startsWith (p s : jsstring) : bool :=
  match p, s with
  | [], _ => true
  | x :: p', y :: s' => N.eqb x y && startsWith p' s'
  | _ :: _, [] => false
  end.

(** [String.prototype.indexOf] with a string argument: the first position
    at which [p] occurs. *)
Fixpoint indexOfStr (p s : jsstring) : option nat :=
  if startsWith p s then Some 0
  else match s with
       | [] => None
       | _ :: s' => option_map S (indexOfStr p s')
       end.

(** [String.prototype.includes] *)
Definition includes (p s : jsstring) : bool :=
  match indexOfStr p s with Some _ => true | None => false end.

(** [s.replace(p, '')] with a string pattern: only the first occurrence
    is removed. *)
Definition removeFirst (p s : jsstring) : jsstring :=
  match indexOfStr p s with
  | Some i => firstn i s ++ skipn (i + length p) s
  | None => s
  end.

(** [Array.prototype.indexOf] on an array of strings (strict equality);
    [-1] when absent. *)
Fixpoint Array_indexOf (x : jsstring) (l : list jsstring) : Z :=
  match l with
  | [] => (-1)%Z
  | y :: l' =>
      if str_eqb y x then 0%Z
      else let r := Array_indexOf x l' in
           if Z.eqb r (-1) then (-1)%Z else (r + 1)%Z
  end.

(** A string is well formed when it has no lone surrogate; on the others
    [encodeURIComponent] throws a [URIError]. *)
Fixpoint isWellFormed (s : jsstring) : bool :=
  match s with
  | [] => true
  | c :: s' =>
      if between 55296 56319 c then
        match s' with
        | d :: s'' => between 56320 57343 d && isWellFormed s''
        | [] => false
        end
      else negb (between 56320 57343 c) && isWellFormed s'
  end.

(** The values a JSON-like argument can take. Numbers are IEEE 754
    binary64; [JObject] stands for any object or array. *)
Inductive jsval :=
| JUndefined
| JNull
| JBool (b : bool)
| JNum (x : float)
| JStr (s : jsstring)
| JObject.

(** ToBoolean *)
Definition truthy (v : jsval) : bool :=
  match v with
  | JUndefined | JNull => false
  | JBool b => b
  | JNum x => PrimFloat.eqb x x && negb (PrimFloat.eqb x 0%float)
  | JStr s => match s with [] => false | _ => true end
  | JObject => true
  end.

(** An object literal as the list of its properties; reading a missing
    property gives [undefined]. *)
Definition object := list (jsstring * jsval).

Fixpoint get (o : object) (key : jsstring) : jsval :=
  match o with
  | [] => JUndefined
  | (k, v) :: o' => if str_eqb k key then v else get o' key
  end.

(** [a || b] on strings that may be [undefined]. *)
Definition orString (a : option jsstring) (b : jsstring) : jsstring :=
  match a with
  | Some (c :: s) => c :: s
  | _ => b
  end.

End JS.

(** ** Regular expressions

    A backtracking matcher in continuation-passing style for the fragment of
    ECMAScript patterns the program uses: pattern characters, character
    classes, sequence, ordered alternation, greedy and lazy repetition of a
    character class, capture groups and the assertions [^] and [$]. *)

Module RegExp.
Import JS.

Record flags := { ignoreCase : bool; multiline : bool }.

Inductive regex :=
| Empty
| Char (c : char)
| Class (p : char -> bool)
| Seq (r1 r2 : regex)
| Alt (r1 r2 : regex)
| Star (greedy : bool) (p : char -> bool)
| Group (n : nat) (r : regex)
| Bol
| Eol.
Arguments Char c%_N_scope.

(** [p+] and [p+?]: one mandatory iteration, then the loop. *)
Definition Plus (greedy : bool) (p : char -> bool) : regex :=
  Seq (Class p) (Star greedy p).

(** A run of pattern characters. *)
Fixpoint lits (s : jsstring) : regex :=
  match s with
  | [] => Empty
  | c :: s' => Seq (Char c) (lits s')
  end.

Definition asciiUpper (c : char) : char :=
  if between 97 122 c then (c - 32)%N else c.
Definition asciiLower (c : char) : char :=
  if between 65 90 c then (c + 32)%N else c.

(** Canonicalize without the [u] flag. A code unit of 128 or more never
    canonicalizes to an ASCII one, so it is left as it is: the comparison
    below is exact whenever the pattern character is ASCII, as in every
    pattern of this program. *)
Definition canonicalize (fl : flags) (c : char) : char :=
  if ignoreCase fl then asciiUpper c else c.

Definition charMatches (fl : flags) (p a : char) : bool :=
  N.eqb (canonicalize fl p) (canonicalize fl a).

(** A class matches under [i] when one of its members canonicalizes like the
    input; the members beyond ASCII of the classes used here (white space)
    have no case. *)
Definition classMatches (fl : flags) (p : char -> bool) (a : char) : bool :=
  if ignoreCase fl then p a || p (asciiUpper a) || p (asciiLower a) else p a.

(** The matcher state: the code unit before the current position, the input
    from the position on, and the captures made so far (latest first). *)
Record mstate := {
  prev : option char;
  rest : jsstring;
  caps : list (nat * jsstring)
}.

Definition orElse {A} (a b : option A) : option A :=
  match a with Some _ => a | None => b end.

Fixpoint star (ok : char -> bool) (greedy : bool)
    (k : mstate -> option mstate) (cs : list (nat * jsstring))
    (pv : option char) (s : jsstring) {struct s} : option mstate :=
  let here := k {| prev := pv; rest := s; caps := cs |} in
  match s with
  | a :: s' =>
      if ok a then
        if greedy then orElse (star ok greedy k cs (Some a) s') here
        else orElse here (star ok greedy k cs (Some a) s')
      else here
  | [] => here
  end.

(** What was consumed between two states of one run. *)
Definition consumed (x y : mstate) : jsstring :=
  firstn (length (rest x) - length (rest y)) (rest x).

Definition atLineStart (fl : flags) (x : mstate) : bool :=
  match prev x with
  | None => true
  | Some c => multiline fl && isLineTerminator c
  end.

Definition atLineEnd (fl : flags) (x : mstate) : bool :=
  match rest x with
  | [] => true
  | c :: _ => multiline fl && isLineTerminator c
  end.

Fixpoint m (fl : flags) (r : regex) (k : mstate -> option mstate)
    (x : mstate) {struct r} : option mstate :=
  match r with
  | Empty => k x
  | Char c =>
      match rest x with
      | a :: s' =>
          if charMatches fl c a
          then k {| prev := Some a; rest := s'; caps := caps x |}
          else None
      | [] => None
      end
  | Class p =>
      match rest x with
      | a :: s' =>
          if classMatches fl p a
          then k {| prev := Some a; rest := s'; caps := caps x |}
          else None
      | [] => None
      end
  | Seq r1 r2 => m fl r1 (m fl r2 k) x
  | Alt r1 r2 => orElse (m fl r1 k x) (m fl r2 k x)
  | Star greedy p => star (classMatches fl p) greedy k (caps x) (prev x) (rest x)
  | Group n r' =>
      m fl r'
        (fun y => k {| prev := prev y; rest := rest y;
                       caps := (n, consumed x y) :: caps y |})
        x
  | Bol => if atLineStart fl x then k x else None
  | Eol => if atLineEnd fl x then k x else None
  end.

(** One attempt at a fixed position. *)
Definition runAt (fl : flags) (r : regex) (pv : option char) (s : jsstring)
  : option mstate :=
  m fl r Some {| prev := pv; rest := s; caps := [] |}.

Record MatchResult := {
  index : nat;
  matched : jsstring;
  groups : list (nat * jsstring)
}.

(** [match[n]]: [undefined] when the group did not take part. *)
Fixpoint group (n : nat) (gs : list (nat * jsstring)) : option jsstring :=
  match gs with
  | [] => None
  | (i, s) :: gs' => if Nat.eqb i n then Some s else group n gs'
  end.

Definition result (i : nat) (s : jsstring) (y : mstate) : MatchResult :=
  {| index := i;
     matched := firstn (length s - length (rest y)) s;
     groups := caps y |}.

(** The leftmost match, trying every position from the current one to the
    end of the input ([RegExp.prototype.exec] without [g]). *)
Fixpoint search (fl : flags) (r : regex) (i : nat) (pv : option char)
    (s : jsstring) {struct s} : option MatchResult :=
  match runAt fl r pv s with
  | Some y => Some (result i s y)
  | None =>
      match s with
      | [] => None
      | a :: s' => search fl r (S i) (Some a) s'
      end
  end.

(** [text.match(re)] for a pattern without [g]. *)
Definition String_match (fl : flags) (r : regex) (text : jsstring)
  : option MatchResult :=
  search fl r 0 None text.

(** [text.replace(re, '')] for a pattern without [g]. *)
Definition String_remove (fl : flags) (r : regex) (text : jsstring) : jsstring :=
  match String_match fl r text with
  | Some mr => firstn (index mr) text
               ++ skipn (index mr + length (matched mr)) text
  | None => text
  end.

(** [text.matchAll(re)] for a pattern with [g]: successive [exec] calls, each
    starting at [lastIndex], the end of the previous match (one further
    after an empty match). [skip] counts the positions still covered by the
    previous match. *)
Fixpoint matchAllFrom (fl : flags) (r : regex) (skip i : nat)
    (pv : option char) (s : jsstring) {struct s} : list MatchResult :=
  match skip with
  | S n =>
      match s with
      | [] => []
      | a :: s' => matchAllFrom fl r n (S i) (Some a) s'
      end
  | O =>
      match runAt fl r pv s with
      | Some y =>
          let mr := result i s y in
          mr :: match s with
                | [] => []
                | a :: s' =>
                    matchAllFrom fl r (pred (length (matched mr))) (S i) (Some a) s'
                end
      | None =>
          match s with
          | [] => []
          | a :: s' => matchAllFrom fl r 0 (S i) (Some a) s'
          end
      end
  end.

Definition String_matchAll (fl : flags) (r : regex) (text : jsstring)
  : list MatchResult :=
  matchAllFrom fl r 0 0 None text.

End RegExp.

(** ** Effects: state with exceptions

    The handlers below call React state setters and may throw. A thrown
    exception does not undo the setters already called, so a computation
    returns the state it reached together with its value or its exception. *)

Module Eff.

(** [ApiError] stands for whatever the model call rejects with. *)
Inductive exn := TypeError | URIError | RangeError | DOMException | ApiError.

Definition M (S A : Type) : Type := S -> S * (A + exn).

Definition ret {S A} (a : A) : M S A := fun s => (s, inl a).
Definition throw {S A} (e : exn) : M S A := fun s => (s, inr e).
Definition bind {S A B} (c : M S A) (f : A -> M S B) : M S B :=
  fun s => match c s with
           | (s', inl a) => f a s'
           | (s', inr e) => (s', inr e)
           end.
Definition modify {S} (f : S -> S) : M S unit := fun s => (f s, inl tt).
Definition when {S} (b : bool) (c : M S unit) : M S unit :=
  if b then c else ret tt.

(** [xs.forEach(f)] and [for (const x of xs) f(x)] *)
Fixpoint forEach {S A B} (f : A -> M S B) (xs : list A) : M S unit :=
  match xs with
  | [] => ret tt
  | x :: xs' => bind (f x) (fun _ => forEach f xs')
  end.

(** [try { c } catch { h }] *)
Definition tryCatch {S A} (c : M S A) (h : M S A) : M S A :=
  fun s => match c s with
           | (s', inl a) => (s', inl a)
           | (s', inr _) => h s'
           end.

(** [c finally { f }] for a handler [f] that does not throw *)
Definition finally_ {S A} (c : M S A) (f : S -> S) : M S A :=
  fun s => let (s', r) := c s in (f s', r).

Definition threw {S A} (r : S * (A + exn)) : bool :=
  match snd r with inl _ => false | inr _ => true end.

End Eff.

Declare Scope eff_scope.
Delimit Scope eff_scope with eff.
Notation "x <- c1 ;; c2" := (Eff.bind c1 (fun x => c2))
  (at level 61, c1 at next level, right associativity) : eff_scope.
Notation "c1 ;; c2" := (Eff.bind c1 (fun _ => c2))
  (at level 61, right associativity) : eff_scope.

(** ** The data model ([src/types.ts] and the interfaces of the component) *)

Module Location.
Record t := mk { lat : float; lng : float }.
End Location.

Module GroundingLink.
Record t := mk { uri : JS.jsstring; title : JS.jsstring }.
End GroundingLink.

Module RouteStep.
(** The optional [type] is never written by the program. *)
Record t := mk { instruction : JS.jsstring; distance : option JS.jsstring }.
End RouteStep.

Module Route.
Record t := mk {
  stops : list JS.jsstring;
  steps : list RouteStep.t;
  duration : option JS.jsstring;
  distance : option JS.jsstring
}.
End Route.

Inductive Role := user | assistant.

Module Message.
Record t := mk {
  role : Role;
  content : JS.jsstring;
  links : option (list GroundingLink.t);
  route : option Route.t
}.
End Message.

(** A function call of the model: every field is optional in the SDK. *)
Module FunctionCall.
Record t := mk {
  id : option JS.jsstring;
  name : option JS.jsstring;
  args : option JS.object
}.
End FunctionCall.

(** What [askMaps] resolves to. *)
Module AskResult.
Record t := mk {
  text : JS.jsstring;
  links : list GroundingLink.t;
  functionCalls : option (list FunctionCall.t)
}.
End AskResult.

Inductive AskOutcome := Rejected | Resolved (r : AskResult.t).

(** The arguments of one [askMaps] call. *)
Module Request.
Record t := mk {
  prompt : JS.jsstring;
  location : option Location.t;
  history : list (Role * JS.jsstring)
}.
End Request.

(** The marker fields computed from [Math.random()], [Date.now()] and string
    formatting of the title: position, rating, review count, photo URL,
    address, phone and website. They are synthetic placeholders; the
    environment supplies them for each link. *)
Module Synthetic.
Record t := mk {
  timestamp : N;
  position : float * float;
  rating : float;
  reviewCount : float;
  photoUrl : JS.jsstring;
  address : JS.jsstring;
  phone : JS.jsstring;
  website : JS.jsstring
}.
End Synthetic.

Module MapMarker.
Record t := mk {
  uri : JS.jsstring;
  title : JS.jsstring;
  id : N * nat;                      (* marker-<Date.now()>-<i> *)
  synthetic : Synthetic.t;
  hours : JS.jsstring;
  color : JS.jsstring;
  iconType : JS.jsstring;
  stopNumber : option Z
}.
End MapMarker.

(** ** The model-call service ([src/unnamed/part_000]) *)

Module GeminiService.
Import JS.

Module MapsChunk.
Record t := mk { uri : option jsstring; title : option jsstring }.
End MapsChunk.

Module Response.
Record t := mk {
  text : option jsstring;                         (* response.text *)
  functionCalls : option (list FunctionCall.t);   (* response.functionCalls *)
  (* response.candidates?.[0]?.groundingMetadata?.groundingChunks, with
     chunk.maps of each chunk *)
  groundingChunks : option (list (option MapsChunk.t))
}.
End Response.

Definition placeholder : jsstring := lit "Searching the map for you...".

Definition extractLinks (chunks : option (list (option MapsChunk.t)))
  : list GroundingLink.t :=
  match chunks with
  | None => []
  | Some cs =>
      flat_map
        (fun chunk =>
           match chunk with
           | Some mc =>
               match MapsChunk.uri mc with
               | Some (c :: u) =>
                   [GroundingLink.mk (c :: u)
                      (orString (MapsChunk.title mc) (lit "View on Maps"))]
               | _ => []
               end
           | None => []
           end)
        cs
  end.

(** [askMaps], given what [generateContent] settles to: a rejection is
    logged and thrown again. *)
Definition askMaps (settled : option Response.t) : AskOutcome :=
  match settled with
  | None => Rejected
  | Some response =>
      Resolved
        (AskResult.mk
           (orString (Response.text response) placeholder)
           (extractLinks (Response.groundingChunks response))
           (Response.functionCalls response))
  end.

End GeminiService.

(** ** The route parser

    The patterns and the step loop are the same text in both revisions;
    the distance pattern exists in the Leaflet revision only. *)

Module RouteParser.
Import JS RegExp.

Definition flags_i := {| ignoreCase := true; multiline := false |}.
Definition flags_gm := {| ignoreCase := false; multiline := true |}.
Definition flags_none := {| ignoreCase := false; multiline := false |}.

Definition wordOrSpace (c : char) : bool := isWord c || isSpace c.
Definition wordSpaceOrDot (c : char) : bool :=
  isWord c || isSpace c || N.eqb c 46.
Definition digitOrDot (c : char) : bool := isDigit c || N.eqb c 46.

Definition terminator : regex := Alt (Char 46) (Alt (Char 10) Eol).

(** [(<value>+?)(?:\.|\n|$)] *)
Definition valueRe (value : char -> bool) : regex :=
  Seq (Group 1 (Plus false value)) terminator.

(** [(?:<labels>):\s*(<value>+?)(?:\.|\n|$)] *)
Definition labelled (labels : regex) (value : char -> bool) : regex :=
  Seq labels (Seq (Char 58) (Seq (Star true isSpace) (valueRe value))).

(** [/(?:Total time|Duration|Estimated time):\s*([\w\s]+?)(?:\.|\n|$)/i] *)
Definition durationLabels : regex :=
  Alt (lits (lit "Total time"))
    (Alt (lits (lit "Duration")) (lits (lit "Estimated time"))).
Definition durationRe : regex := labelled durationLabels wordOrSpace.

(** [/(?:Total distance|Distance):\s*([\w\s\.]+?)(?:\.|\n|$)/i] *)
Definition distanceLabels : regex :=
  Alt (lits (lit "Total distance")) (lits (lit "Distance")).
Definition distanceRe : regex := labelled distanceLabels wordSpaceOrDot.

(** [/^\d+\.\s+(.+)$/gm] *)
Definition stepRe : regex :=
  Seq Bol
    (Seq (Plus true isDigit)
       (Seq (Char 46)
          (Seq (Plus true isSpace)
             (Seq (Group 1 (Plus true isDot)) Eol)))).

(** [/\(([\d.]+\s*\w+)\)/] *)
Definition stepDistanceRe : regex :=
  Seq (Char 40)
    (Seq (Group 1
            (Seq (Plus true digitOrDot)
               (Seq (Star true isSpace) (Plus true isWord))))
       (Char 41)).

(** [/\([\d.]+\s*\w+\)/] *)
Definition stepDistanceRe' : regex :=
  Seq (Char 40)
    (Seq (Plus true digitOrDot)
       (Seq (Star true isSpace)
          (Seq (Plus true isWord) (Char 41)))).

(** [match[1]]; group 1 takes part in every match of the patterns above. *)
Definition capture1 (mr : MatchResult) : jsstring :=
  match group 1 (groups mr) with
  | Some s => s
  | None => []
  end.

(** [const m = text.match(re); m ? m[1].trim() : undefined] *)
Definition extract (re : regex) (text : jsstring) : option jsstring :=
  match String_match flags_i re text with
  | Some mr => Some (trim (capture1 mr))
  | None => None
  end.

Definition parseStep (mr : MatchResult) : RouteStep.t :=
  let instruction := capture1 mr in
  let distMatch := String_match flags_none stepDistanceRe instruction in
  RouteStep.mk
    (trim (String_remove flags_none stepDistanceRe' instruction))
    (match distMatch with
     | Some dm => Some (capture1 dm)
     | None => None
     end).

(** The loop over [text.matchAll(/^\d+\.\s+(.+)$/gm)]. *)
Definition parseSteps (text : jsstring) : list RouteStep.t :=
  map parseStep (String_matchAll flags_gm stepRe text).

End RouteParser.

(** ** Parts common to both revisions of the component *)

Module Common.
Import JS.

Definition ack : jsstring := lit "UI updated successfully.".
Definition failureText : jsstring := lit "Something went wrong. Let's try again.".

Definition nameIs (fc : FunctionCall.t) (n : string) : bool :=
  match FunctionCall.name fc with
  | Some s => str_eqb s (lit n)
  | None => false
  end.

(** Reading a property of [fc.args] throws when [fc.args] is undefined. *)
Definition argsOf {S} (fc : FunctionCall.t) : Eff.M S object :=
  match FunctionCall.args fc with
  | Some o => Eff.ret o
  | None => Eff.throw Eff.TypeError
  end.

Definition userMessage (content : jsstring) : Message.t :=
  Message.mk user content None None.
Definition failureMessage : Message.t :=
  Message.mk assistant failureText None None.

(** [textToSend || input] *)
Definition finalInputOf (textToSend : option jsstring) (input : jsstring)
  : jsstring :=
  orString textToSend input.

Definition isBlank (s : jsstring) : bool :=
  match trim s with [] => true | _ => false end.

Definition historyOf (messages : list Message.t) : list (Role * jsstring) :=
  map (fun msg => (Message.role msg, Message.content msg)) messages.

(** [const stopIdx = routeData?.stops.indexOf(link.title);
     stopIdx !== undefined && stopIdx !== -1 ? stopIdx + 1 : undefined] *)
Definition stopNumberOf (routeData : option Route.t) (title : jsstring)
  : option Z :=
  let stopIdx := option_map (fun r => Array_indexOf title (Route.stops r)) routeData in
  match stopIdx with
  | Some i => if negb (Z.eqb i (-1)) then Some (i + 1)%Z else None
  | None => None
  end.

Definition hoursText : jsstring :=
  lit "Open " ++ [183%N] ++ lit " Closes 9 PM".

Definition newMarker (routeData : option Route.t)
    (synth : nat -> Synthetic.t) (i : nat) (link : GroundingLink.t)
  : MapMarker.t :=
  MapMarker.mk
    (GroundingLink.uri link)
    (GroundingLink.title link)
    (Synthetic.timestamp (synth i), i)
    (synth i)
    hoursText
    (lit "bg-red-500")
    (lit "pin")
    (stopNumberOf routeData (GroundingLink.title link)).

Fixpoint mapi {A B} (f : nat -> A -> B) (i : nat) (l : list A) : list B :=
  match l with
  | [] => []
  | x :: l' => f i x :: mapi f (S i) l'
  end.

(** [links.map((link, i) => ({...}))]: [encodeURIComponent(link.title)]
    throws on a title with a lone surrogate. *)
Definition newMarkers {S} (routeData : option Route.t)
    (synth : nat -> Synthetic.t) (links : list GroundingLink.t)
  : Eff.M S (list MapMarker.t) :=
  if forallb (fun l => isWellFormed (GroundingLink.title l)) links
  then Eff.ret (mapi (newMarker routeData synth) 0 links)
  else Eff.throw Eff.URIError.

(** The memoised [activeRoute]: the route of the latest message that has
    one. *)
Fixpoint lastRoute (acc : option Route.t) (messages : list Message.t)
  : option Route.t :=
  match messages with
  | [] => acc
  | msg :: rest =>
      lastRoute (match Message.route msg with Some r => Some r | None => acc end)
                rest
  end.
Definition activeRoute (messages : list Message.t) : option Route.t :=
  lastRoute None messages.

End Common.

(** ** [src/App.tsx]: the schematic-map revision *)

Module Mock.
Import JS Common.
Local Open Scope eff_scope.

Record State := mkState {
  messages : list Message.t;
  input : jsstring;
  isChatOpen : bool;
  isVoiceMode : bool;
  isDrivingMode : bool;
  userLocation : option Location.t;
  isProcessing : bool;
  showTraffic : jsval;
  activeLayer : jsval;
  activeMarkers : list MapMarker.t;
  zoom : jsval;
  centerX : jsval;
  centerY : jsval
}.

(** The initial values of the [useState] hooks. *)
Definition initial : State :=
  mkState [] [] false false false None false (JBool false)
          (JStr (lit "standard")) [] (JNum 2) (JNum 50) (JNum 50).

Definition setMessages (f : list Message.t -> list Message.t) (s : State) :=
  mkState (f (messages s)) (input s) (isChatOpen s) (isVoiceMode s)
    (isDrivingMode s) (userLocation s) (isProcessing s) (showTraffic s)
    (activeLayer s) (activeMarkers s) (zoom s) (centerX s) (centerY s).
Definition setInput (v : jsstring) (s : State) :=
  mkState (messages s) v (isChatOpen s) (isVoiceMode s)
    (isDrivingMode s) (userLocation s) (isProcessing s) (showTraffic s)
    (activeLayer s) (activeMarkers s) (zoom s) (centerX s) (centerY s).
Definition setIsChatOpen (v : bool) (s : State) :=
  mkState (messages s) (input s) v (isVoiceMode s)
    (isDrivingMode s) (userLocation s) (isProcessing s) (showTraffic s)
    (activeLayer s) (activeMarkers s) (zoom s) (centerX s) (centerY s).
Definition setIsProcessing (v : bool) (s : State) :=
  mkState (messages s) (input s) (isChatOpen s) (isVoiceMode s)
    (isDrivingMode s) (userLocation s) v (showTraffic s)
    (activeLayer s) (activeMarkers s) (zoom s) (centerX s) (centerY s).
Definition setShowTraffic (v : jsval) (s : State) :=
  mkState (messages s) (input s) (isChatOpen s) (isVoiceMode s)
    (isDrivingMode s) (userLocation s) (isProcessing s) v
    (activeLayer s) (activeMarkers s) (zoom s) (centerX s) (centerY s).
Definition setActiveLayer (v : jsval) (s : State) :=
  mkState (messages s) (input s) (isChatOpen s) (isVoiceMode s)
    (isDrivingMode s) (userLocation s) (isProcessing s) (showTraffic s)
    v (activeMarkers s) (zoom s) (centerX s) (centerY s).
Definition setActiveMarkers (f : list MapMarker.t -> list MapMarker.t) (s : State) :=
  mkState (messages s) (input s) (isChatOpen s) (isVoiceMode s)
    (isDrivingMode s) (userLocation s) (isProcessing s) (showTraffic s)
    (activeLayer s) (f (activeMarkers s)) (zoom s) (centerX s) (centerY s).
Definition setZoom (v : jsval) (s : State) :=
  mkState (messages s) (input s) (isChatOpen s) (isVoiceMode s)
    (isDrivingMode s) (userLocation s) (isProcessing s) (showTraffic s)
    (activeLayer s) (activeMarkers s) v (centerX s) (centerY s).
Definition setCenterX (v : jsval) (s : State) :=
  mkState (messages s) (input s) (isChatOpen s) (isVoiceMode s)
    (isDrivingMode s) (userLocation s) (isProcessing s) (showTraffic s)
    (activeLayer s) (activeMarkers s) (zoom s) v (centerY s).
Definition setCenterY (v : jsval) (s : State) :=
  mkState (messages s) (input s) (isChatOpen s) (isVoiceMode s)
    (isDrivingMode s) (userLocation s) (isProcessing s) (showTraffic s)
    (activeLayer s) (activeMarkers s) (zoom s) (centerX s) v.

(** The map-view state: zoom, centre, active layer, traffic flag. *)
Definition mapView (s : State) : jsval * (jsval * jsval) * jsval * jsval :=
  (zoom s, (centerX s, centerY s), activeLayer s, showTraffic s).

Definition executeFunctionCall (fc : FunctionCall.t) : Eff.M State jsstring :=
  (if nameIs fc "set_map_layer"
   then a <- argsOf fc ;; Eff.modify (setActiveLayer (get a (lit "layer")))
   else Eff.ret tt) ;;
  (if nameIs fc "toggle_traffic"
   then a <- argsOf fc ;; Eff.modify (setShowTraffic (get a (lit "enabled")))
   else Eff.ret tt) ;;
  (if nameIs fc "update_map_view"
   then
     a <- argsOf fc ;;
     Eff.when (truthy (get a (lit "zoom")))
       (Eff.modify (setZoom (get a (lit "zoom")))) ;;
     Eff.when (truthy (get a (lit "focusX")))
       (Eff.modify (setCenterX (get a (lit "focusX")))) ;;
     Eff.when (truthy (get a (lit "focusY")))
       (Eff.modify (setCenterY (get a (lit "focusY"))))
   else Eff.ret tt) ;;
  Eff.ret ack.

Definition parseRouteData (text : jsstring) (links : list GroundingLink.t)
  : option Route.t :=
  let duration := RouteParser.extract RouteParser.durationRe text in
  let steps := RouteParser.parseSteps text in
  if (0 <? length steps) || (2 <=? length links)
  then Some (Route.mk (map GroundingLink.title links) steps duration None)
  else None.

(** [handleSend] up to its [await]. [render] is the state of the render
    whose closure the handler is ([input], [isProcessing], [messages] and
    [userLocation] are read there); [setMessages] takes an updater. The
    second component is the [askMaps] call made, if any. *)
Definition handleSend_start (render : State) (textToSend : option jsstring)
    (s : State) : State * option Request.t :=
  let finalInput := finalInputOf textToSend (input render) in
  if isBlank finalInput || isProcessing render then (s, None)
  else
    (setIsProcessing true
       (setIsChatOpen true
          (setInput []
             (setMessages (fun prev => prev ++ [userMessage finalInput]) s))),
     Some (Request.mk finalInput (userLocation render)
             (historyOf (messages render)))).

(** The body of [try] after [askMaps] has resolved. *)
Definition applyResponse (synth : nat -> Synthetic.t) (r : AskResult.t)
  : Eff.M State unit :=
  match AskResult.functionCalls r with
  | Some fcs => Eff.forEach executeFunctionCall fcs
  | None => Eff.ret tt
  end ;;
  let routeData := parseRouteData (AskResult.text r) (AskResult.links r) in
  match AskResult.links r with
  | _ :: _ =>
      ms <- newMarkers routeData synth (AskResult.links r) ;;
      Eff.modify (setActiveMarkers (fun prev => prev ++ ms))
  | [] => Eff.ret tt
  end ;;
  Eff.modify
    (setMessages
       (fun prev =>
          prev ++ [Message.mk assistant (AskResult.text r)
                     (Some (AskResult.links r)) routeData])).

Definition appendFailure : Eff.M State unit :=
  Eff.modify (setMessages (fun prev => prev ++ [failureMessage])).

(** [handleSend] from the point where [askMaps] settles: the rest of
    [try], [catch] and [finally]. *)
Definition handleSend_settle (synth : nat -> Synthetic.t)
    (outcome : AskOutcome) (s : State) : State :=
  fst (Eff.finally_
         (Eff.tryCatch
            (match outcome with
             | Resolved r => applyResponse synth r
             | Rejected => Eff.throw Eff.ApiError
             end)
            appendFailure)
         (setIsProcessing false)
         s).

End Mock.

(** ** [src/unnamed/part_001]: the Leaflet revision *)

Module Leaflet.
Import JS Common.
Local Open Scope eff_scope.

Record State := mkState {
  messages : list Message.t;
  input : jsstring;
  isChatOpen : bool;
  isVoiceMode : bool;
  isDrivingMode : bool;
  userLocation : Location.t;
  isProcessing : bool;
  showTraffic : jsval;
  activeLayer : jsval;
  showLayerMenu : bool;
  activeMarkers : list MapMarker.t;
  zoom : jsval;
  mapCenter : jsval * jsval          (* { lat, lng } *)
}.

#[local] Set Warnings "-inexact-float".
Definition sanFrancisco : Location.t := Location.mk 37.7749 (-122.4194).

(** The initial values of the [useState] hooks. *)
Definition initial : State :=
  mkState [] [] false false false sanFrancisco false (JBool false)
          (JStr (lit "standard")) false [] (JNum 13)
          (JNum 37.7749, JNum (-122.4194)).

Definition setMessages (f : list Message.t -> list Message.t) (s : State) :=
  mkState (f (messages s)) (input s) (isChatOpen s) (isVoiceMode s)
    (isDrivingMode s) (userLocation s) (isProcessing s) (showTraffic s)
    (activeLayer s) (showLayerMenu s) (activeMarkers s) (zoom s) (mapCenter s).
Definition setInput (v : jsstring) (s : State) :=
  mkState (messages s) v (isChatOpen s) (isVoiceMode s)
    (isDrivingMode s) (userLocation s) (isProcessing s) (showTraffic s)
    (activeLayer s) (showLayerMenu s) (activeMarkers s) (zoom s) (mapCenter s).
Definition setIsChatOpen (v : bool) (s : State) :=
  mkState (messages s) (input s) v (isVoiceMode s)
    (isDrivingMode s) (userLocation s) (isProcessing s) (showTraffic s)
    (activeLayer s) (showLayerMenu s) (activeMarkers s) (zoom s) (mapCenter s).
Definition setIsProcessing (v : bool) (s : State) :=
  mkState (messages s) (input s) (isChatOpen s) (isVoiceMode s)
    (isDrivingMode s) (userLocation s) v (showTraffic s)
    (activeLayer s) (showLayerMenu s) (activeMarkers s) (zoom s) (mapCenter s).
Definition setShowTraffic (v : jsval) (s : State) :=
  mkState (messages s) (input s) (isChatOpen s) (isVoiceMode s)
    (isDrivingMode s) (userLocation s) (isProcessing s) v
    (activeLayer s) (showLayerMenu s) (activeMarkers s) (zoom s) (mapCenter s).
Definition setActiveLayer (v : jsval) (s : State) :=
  mkState (messages s) (input s) (isChatOpen s) (isVoiceMode s)
    (isDrivingMode s) (userLocation s) (isProcessing s) (showTraffic s)
    v (showLayerMenu s) (activeMarkers s) (zoom s) (mapCenter s).
Definition setActiveMarkers (f : list MapMarker.t -> list MapMarker.t) (s : State) :=
  mkState (messages s) (input s) (isChatOpen s) (isVoiceMode s)
    (isDrivingMode s) (userLocation s) (isProcessing s) (showTraffic s)
    (activeLayer s) (showLayerMenu s) (f (activeMarkers s)) (zoom s) (mapCenter s).
Definition setZoom (v : jsval) (s : State) :=
  mkState (messages s) (input s) (isChatOpen s) (isVoiceMode s)
    (isDrivingMode s) (userLocation s) (isProcessing s) (showTraffic s)
    (activeLayer s) (showLayerMenu s) (activeMarkers s) v (mapCenter s).
Definition setMapCenter (v : jsval * jsval) (s : State) :=
  mkState (messages s) (input s) (isChatOpen s) (isVoiceMode s)
    (isDrivingMode s) (userLocation s) (isProcessing s) (showTraffic s)
    (activeLayer s) (showLayerMenu s) (activeMarkers s) (zoom s) v.

(** The map-view state: zoom, centre, active layer, traffic flag. *)
Definition mapView (s : State) : jsval * (jsval * jsval) * jsval * jsval :=
  (zoom s, mapCenter s, activeLayer s, showTraffic s).

Definition executeFunctionCall (fc : FunctionCall.t) : Eff.M State jsstring :=
  (if nameIs fc "set_map_layer"
   then a <- argsOf fc ;; Eff.modify (setActiveLayer (get a (lit "layer")))
   else Eff.ret tt) ;;
  (if nameIs fc "toggle_traffic"
   then a <- argsOf fc ;; Eff.modify (setShowTraffic (get a (lit "enabled")))
   else Eff.ret tt) ;;
  (if nameIs fc "update_map_view"
   then
     a <- argsOf fc ;;
     Eff.when (truthy (get a (lit "zoom")))
       (Eff.modify (setZoom (get a (lit "zoom")))) ;;
     Eff.when (truthy (get a (lit "latitude")) && truthy (get a (lit "longitude")))
       (Eff.modify
          (setMapCenter (get a (lit "latitude"), get a (lit "longitude"))))
   else Eff.ret tt) ;;
  Eff.ret ack.

Definition parseRouteData (text : jsstring) (links : list GroundingLink.t)
  : option Route.t :=
  let duration := RouteParser.extract RouteParser.durationRe text in
  let distance := RouteParser.extract RouteParser.distanceRe text in
  let steps := RouteParser.parseSteps text in
  if (0 <? length steps) || (2 <=? length links)
  then Some (Route.mk (map GroundingLink.title links) steps duration distance)
  else None.

Definition directive : jsstring := lit "[ACTION: SHOW_MAP]".

(** [handleSend] up to its [await]; see [Mock.handleSend_start]. *)
Definition handleSend_start (render : State) (textToSend : option jsstring)
    (s : State) : State * option Request.t :=
  let finalInput := finalInputOf textToSend (input render) in
  if isBlank finalInput || isProcessing render then (s, None)
  else
    (setIsProcessing true
       (setIsChatOpen true
          (setInput []
             (setMessages (fun prev => prev ++ [userMessage finalInput]) s))),
     Some (Request.mk finalInput (Some (userLocation render))
             (historyOf (messages render)))).

(** [let displayText = text; if (text.includes(...)) { ... }] *)
Definition displayTextOf (text : jsstring) : jsstring :=
  if includes directive text then trim (removeFirst directive text) else text.

(** The body of [try] after [askMaps] has resolved. *)
Definition applyResponse (synth : nat -> Synthetic.t) (r : AskResult.t)
  : Eff.M State unit :=
  let text := AskResult.text r in
  let displayText := displayTextOf text in
  Eff.when (includes directive text) (Eff.modify (setIsChatOpen false)) ;;
  match AskResult.functionCalls r with
  | Some fcs => Eff.forEach executeFunctionCall fcs
  | None => Eff.ret tt
  end ;;
  let routeData := parseRouteData text (AskResult.links r) in
  match AskResult.links r with
  | _ :: _ =>
      ms <- newMarkers routeData synth (AskResult.links r) ;;
      Eff.modify (setActiveMarkers (fun prev => prev ++ ms))
  | [] => Eff.ret tt
  end ;;
  Eff.modify
    (setMessages
       (fun prev =>
          prev ++ [Message.mk assistant displayText
                     (Some (AskResult.links r)) routeData])).

Definition appendFailure : Eff.M State unit :=
  Eff.modify (setMessages (fun prev => prev ++ [failureMessage])).

(** [handleSend] from the point where [askMaps] settles: the rest of
    [try], [catch] and [finally]. *)
Definition handleSend_settle (synth : nat -> Synthetic.t)
    (outcome : AskOutcome) (s : State) : State :=
  fst (Eff.finally_
         (Eff.tryCatch
            (match outcome with
             | Resolved r => applyResponse synth r
             | Rejected => Eff.throw Eff.ApiError
             end)
            appendFailure)
         (setIsProcessing false)
         s).

End Leaflet.

(** ** The voice session's [onmessage] handler ([startVoiceMode])

    The handler is the same text in both revisions. Times are Numbers, in
    seconds on the clock of the output context; [currentTime] is read anew
    each time the handler uses it, and only known not to go back. One
    message is handled to its end before the next one is delivered. *)

Module Voice.
Import JS Common.
Local Open Scope eff_scope.
Local Open Scope float_scope.

(** [Math.max] of two Numbers. *)
Definition Math_max (a b : float) : float :=
  if PrimFloat.is_nan a || PrimFloat.is_nan b then PrimFloat.nan
  else if a <? b then b
  else if b <? a then a
  else match Prim2SF a with
       | S754_zero true => b        (* -0 against +0 or -0 *)
       | _ => a
       end.

(** [audioBuffer.duration]: the length of the buffer over its sample rate,
    in seconds. *)
Definition durationOf (frames : Z) : float :=
  PrimFloat.of_uint63 (Uint63.of_Z frames) / 24000.

(** An [AudioBufferSourceNode] of the output context: the [when] given to
    [start], [currentTime] at that call, the length of its buffer, and
    [currentTime] at the [stop] call if there was one. Times are seconds
    on the clock of the output context. *)
Record Node := mkNode {
  startAt : float;
  startCalledAt : float;
  frames : Z;
  stoppedAt : option float
}.



Definition stop (now : float) (n : Node) : Node :=
  match stoppedAt n with
  | Some _ => n
  | None => mkNode (startAt n) (startCalledAt n) (frames n) (Some now)
  end.

(** [msg.serverContent?.modelTurn?.parts[0]?.inlineData?.data] *)
Inductive AudioField :=
| PartsMissing                 (* modelTurn without parts: the read throws *)
| NoAudio                      (* undefined or the empty string *)
| BadBase64                    (* [atob] throws *)
| Pcm (bytes : list N).        (* the bytes [decode] returns *)

Record ServerMessage := mkMsg {
  audio : AudioField;
  interrupted : bool;
  (* msg.toolCall, and its functionCalls when it is there *)
  toolCall : option (option (list FunctionCall.t))
}.

Record ToolResponse := mkResp {
  resp_id : option jsstring;
  resp_name : option jsstring;
  resp_result : jsstring
}.

(** What [outputCtx.currentTime] reads while one message is handled: in the
    [Math.max], at [source.start] (after the [await]), and at the [stop]
    calls. *)
Record Clock := mkClock {
  atRead : float;
  atStart : float;
  atStop : float
}.


Section Handler.

(** The component state and its tool-call executor (either revision). *)
Variable App : Type.
Variable executeFunctionCall : FunctionCall.t -> Eff.M App jsstring.

Record Session := mkSession {
  app : App;
  nextStartTime : float;
  sources : list nat;            (* the Set of started nodes, by index *)
  graph : list Node;             (* every node created on the output context *)
  outbox : list ToolResponse     (* what sendToolResponse was given *)
}.

Definition setNextStartTime (v : float) (s : Session) :=
  mkSession (app s) v (sources s) (graph s) (outbox s).
Definition setSources (v : list nat) (s : Session) :=
  mkSession (app s) (nextStartTime s) v (graph s) (outbox s).
Definition setGraph (v : list Node) (s : Session) :=
  mkSession (app s) (nextStartTime s) (sources s) v (outbox s).
Definition send (r : ToolResponse) (s : Session) :=
  mkSession (app s) (nextStartTime s) (sources s) (graph s) (outbox s ++ [r]).

(** Run a computation of the component inside the session. *)
Definition liftApp {A} (c : Eff.M App A) : Eff.M Session A :=
  fun s => let (a', r) := c (app s) in
           (mkSession a' (nextStartTime s) (sources s) (graph s) (outbox s), r).

(** [decodeAudioData(decode(base64Audio), outputCtx, 24000, 1)]: the number
    of frames of the buffer. An [Int16Array] over an odd number of bytes is
    a [RangeError]; [createBuffer] refuses a length of zero. *)
Definition decodeAudioData (a : AudioField) : Eff.M Session Z :=
  match a with
  | Pcm bytes =>
      if Nat.odd (length bytes) then Eff.throw Eff.RangeError
      else if Nat.eqb (length bytes) 0 then Eff.throw Eff.DOMException
      else Eff.ret (Z.of_nat (length bytes / 2))
  | _ => Eff.throw Eff.DOMException
  end.

Definition stopAll (now : float) (ids : list nat) (g : list Node) : list Node :=
  Common.mapi (fun i n => if existsb (Nat.eqb i) ids then stop now n else n) 0%nat g.

(** The body of [if (base64Audio)]: [nextStartTime] is raised to the clock
    before the [await], the node is started after it. *)
Definition playChunk (c : Clock) (a : AudioField) : Eff.M Session unit :=
  Eff.modify (fun s => setNextStartTime (Math_max (nextStartTime s) (atRead c)) s) ;;
  n <- decodeAudioData a ;;
  Eff.modify
    (fun s =>
       let node := mkNode (nextStartTime s) (atStart c) n None in
       setSources (sources s ++ [length (graph s)])
         (setNextStartTime (nextStartTime s + durationOf n)
            (setGraph (graph s ++ [node]) s))).

Definition interrupt (c : Clock) : Eff.M Session unit :=
  Eff.modify
    (fun s =>
       setNextStartTime 0
         (setSources [] (setGraph (stopAll (atStop c) (sources s) (graph s)) s))).

Definition runToolCall (fc : FunctionCall.t) : Eff.M Session unit :=
  res <- liftApp (executeFunctionCall fc) ;;
  Eff.modify (send (mkResp (FunctionCall.id fc) (FunctionCall.name fc) res)).

(** [if (base64Audio) { ... }] *)
Definition onAudio (c : Clock) (msg : ServerMessage) : Eff.M Session unit :=
  match audio msg with
  | PartsMissing => Eff.throw Eff.TypeError
  | NoAudio => Eff.ret tt
  | a => playChunk c a
  end.

(** [if (msg.serverContent?.interrupted) { ... }] *)
Definition onInterrupted (c : Clock) (msg : ServerMessage) : Eff.M Session unit :=
  Eff.when (interrupted msg) (interrupt c).

(** [if (msg.toolCall) { for (const fc of msg.toolCall.functionCalls) ... }] *)
Definition onToolCall (msg : ServerMessage) : Eff.M Session unit :=
  match toolCall msg with
  | Some (Some fcs) => Eff.forEach runToolCall fcs
  | Some None => Eff.throw Eff.TypeError
  | None => Eff.ret tt
  end.

(** [onmessage], handled to its end with the clock readings [c]. A throw
    in one block ends the handler: the blocks after it do not run. *)
Definition onmessage (c : Clock) (msg : ServerMessage) : Eff.M Session unit :=
  onAudio c msg ;; onInterrupted c msg ;; onToolCall msg.

(** The session as [startVoiceMode] creates it. *)
Definition opened (a : App) : Session := mkSession a 0 [] [] [].


(** The playback side of the session. *)
Definition playback (s : Session) : float * list nat * list Node :=
  (nextStartTime s, sources s, graph s).


End Handler.

(** A payload the handler can decode: a positive even number of bytes. *)
Definition decodable (bytes : list N) : Prop :=
  Nat.odd (length bytes) = false /\ length bytes <> 0%nat.

(** The audio part of a message does not throw. *)
Definition audioOk (a : AudioField) : Prop :=
  a = NoAudio \/ exists bytes, a = Pcm bytes /\ decodable bytes.

End Voice.

(** ** Vocabulary of the properties and sample inputs *)

(** The vocabulary of the executor facts, and the inputs the properties
    are tried on. *)
Module Samples.
Import JS.

(** The tool names the executor knows. *)
Definition known (n : option jsstring) : Prop :=
  n = Some (lit "update_map_view") \/ n = Some (lit "set_map_layer")
  \/ n = Some (lit "toggle_traffic").

(** A tool the executor has never heard of. *)
Definition futureTool : FunctionCall.t :=
  FunctionCall.mk (Some (lit "call-1")) (Some (lit "draw_polygon")) None.

(** A numeric argument equal to zero (of either sign). *)
Definition isZero (v : jsval) : Prop := v = JNum 0 \/ v = JNum (-0).

Definition withArgs (fc : FunctionCall.t) (a : object) : FunctionCall.t :=
  FunctionCall.mk (FunctionCall.id fc) (FunctionCall.name fc) (Some a).

Definition updateMapView (a : object) : FunctionCall.t :=
  FunctionCall.mk None (Some (lit "update_map_view")) (Some a).

Definition zeroView : object :=
  [(lit "zoom", JNum 0); (lit "latitude", JNum 0); (lit "longitude", JNum 5)].

Definition linkA : GroundingLink.t :=
  GroundingLink.mk (lit "https://maps.example/a") (lit "A").
Definition linkB : GroundingLink.t :=
  GroundingLink.mk (lit "https://maps.example/b") (lit "B").

(** A reply without a numbered line. *)
Definition plainText : jsstring := lit "Here are two places you may like.".

Definition routeABC : Route.t :=
  Route.mk [lit "A"; lit "B"; lit "C"] [] None None.

(** Replies of the model around the display directive. *)
Definition showMapReply : AskResult.t :=
  AskResult.mk (lit "[ACTION: SHOW_MAP] Here is the map view.") [] None.
Definition doubleDirectiveReply : AskResult.t :=
  AskResult.mk (lit "[ACTION: SHOW_MAP][ACTION: SHOW_MAP]") [] None.
Definition bareDirective : GeminiService.Response.t :=
  GeminiService.Response.mk (Some (lit "[ACTION: SHOW_MAP]")) None None.

(** The component waiting for the model after a first submit, and the
    same after the user has closed the chat panel meanwhile. *)
Definition mockWaiting : Mock.State :=
  fst (Mock.handleSend_start Mock.initial (Some (lit "show map")) Mock.initial).
Definition leafletWaiting : Leaflet.State :=
  fst (Leaflet.handleSend_start Leaflet.initial (Some (lit "show map"))
         Leaflet.initial).
Definition leafletWaitingClosed : Leaflet.State :=
  Leaflet.setIsChatOpen false leafletWaiting.

(** A short voice session on the Leaflet component: a chunk of two frames
    with the output clock at 10 s, a second one right behind it, which is
    scheduled for when the first ends, and then a message with the
    interruption signal before the second chunk has begun. *)
Definition oneChunk : Voice.ServerMessage :=
  Voice.mkMsg (Voice.Pcm [0; 0; 0; 0]%N) false None.
Definition at10 : Voice.Clock := Voice.mkClock 10 10 10.
Definition afterChunk : Voice.Session Leaflet.State :=
  fst (Voice.onmessage Leaflet.State Leaflet.executeFunctionCall at10 oneChunk
         (Voice.opened Leaflet.State Leaflet.initial)).


(** Placeholder data for every link. *)
Definition synth (i : nat) : Synthetic.t :=
  Synthetic.mk 1700000000000 (0%float, 0%float) 4.5%float 120%float [] [] [] [].

End Samples.

(** The vocabulary of the pattern facts. *)
Module Phrase.
Import JS RegExp.

(** Every match of [r] sets group [n]. *)
Fixpoint captures (n : nat) (r : regex) : bool :=
  match r with
  | Group i r' => Nat.eqb i n || captures n r'
  | Seq r1 r2 => captures n r1 || captures n r2
  | Alt r1 r2 => captures n r1 && captures n r2
  | _ => false
  end.

(** No two labels start with the same letter. *)
Fixpoint distinctInitials (labels : list jsstring) : bool :=
  match labels with
  | [] => true
  | l :: ls =>
      forallb (fun l' => negb (N.eqb (asciiUpper (hd 0%N l)) (asciiUpper (hd 0%N l')))) ls
      && negb (match l with [] => true | _ => false end)
      && distinctInitials ls
  end.

(** The code unit before the position reached by consuming [w]. *)
Definition after (pv : option char) (w : jsstring) : option char :=
  fold_left (fun _ c => Some c) w pv.

(** The same letters up to ASCII case. *)
Definition sameLetters (l w : jsstring) : Prop :=
  Forall2 (fun p a => asciiUpper p = asciiUpper a) l w.

(** What may follow the value: a full stop, a line feed, or nothing. *)
Definition ends (post : jsstring) : Prop :=
  match post with
  | [] => True
  | c :: _ => c = 46%N \/ c = 10%N
  end.

(** [text] reads [pre], then a label, a colon, the white space [ws], the
    value [cap], and [post]. *)
Definition phraseAt (labels : list jsstring) (value : char -> bool)
    (text pre ws cap post : jsstring) : Prop :=
  (exists l lab, In l labels /\ sameLetters l lab
                 /\ text = pre ++ lab ++ 58%N :: ws ++ cap ++ post)
  /\ forallb isSpace ws = true
  /\ cap <> [] /\ forallb value cap = true
  /\ ends post.

(** Neither a full stop nor a line feed after the first code unit. *)
Definition stopsEarly (cap : jsstring) : Prop :=
  forall c, In c (tl cap) -> c <> 46%N /\ c <> 10%N.

(** No white space at either end. *)
Definition trimmed (d : jsstring) : Prop :=
  (forall c d', d = c :: d' -> isSpace c = false)
  /\ (forall c d', d = d' ++ [c] -> isSpace c = false).

(** [d] is the value the text gives for the labels: the trimmed value of
    the leftmost phrase, read with the longest white space after the colon
    and the shortest value. *)
Definition valueOf (labels : list jsstring) (value : char -> bool)
    (text d : jsstring) : Prop :=
  exists pre ws cap post,
    phraseAt labels value text pre ws cap post
    /\ stopsEarly cap
    /\ (forall pre' ws' cap' post',
          phraseAt labels value text pre' ws' cap' post' ->
          length pre <= length pre')
    /\ (forall ws' cap' post',
          ws ++ cap ++ post = ws' ++ cap' ++ post' ->
          forallb isSpace ws' = true -> cap' <> [] ->
          forallb value cap' = true -> ends post' ->
          length ws' <= length ws)
    /\ d = trim cap.

(** The text has no phrase for the labels. *)
Definition noPhrase (labels : list jsstring) (value : char -> bool)
    (text : jsstring) : Prop :=
  forall pre ws cap post, ~ phraseAt labels value text pre ws cap post.

Definition durationLabelList : list jsstring :=
  [lit "Total time"; lit "Duration"; lit "Estimated time"].
Definition distanceLabelList : list jsstring :=
  [lit "Total distance"; lit "Distance"].

End Phrase.

(** The vocabulary of the controller facts. *)
Module Runs.
Import JS.

(** Several invocations of [handleSend] in a row, none of whose turns has
    settled. Each invocation comes with the render its handler belongs to;
    the result is the final state and the model calls made, in order. *)
Fixpoint invokeAll {S}
    (handleSend_start : S -> option jsstring -> S -> S * option Request.t)
    (invocations : list (S * option jsstring)) (s : S) : S * list Request.t :=
  match invocations with
  | [] => (s, [])
  | (render, textToSend) :: invocations' =>
      let (s1, call) := handleSend_start render textToSend s in
      let (s2, calls) := invokeAll handleSend_start invocations' s1 in
      (s2, match call with Some r => r :: calls | None => calls end)
  end.

(** [i] is the index of the first occurrence of [x] in [l]. *)
Definition isFirstOccurrence (x : jsstring) (l : list jsstring) (i : nat) : Prop :=
  nth_error l i = Some x /\ forall j, j < i -> nth_error l j <> Some x.

(** The fields of the component state that the tool-call executor has no
    business with. *)
Definition mockChat (s : Mock.State) :=
  (Mock.messages s, Mock.input s, Mock.isChatOpen s, Mock.isVoiceMode s,
   Mock.isDrivingMode s, Mock.userLocation s, Mock.isProcessing s,
   Mock.activeMarkers s).
Definition leafletChat (s : Leaflet.State) :=
  (Leaflet.messages s, Leaflet.input s, Leaflet.isChatOpen s,
   Leaflet.isVoiceMode s, Leaflet.isDrivingMode s, Leaflet.userLocation s,
   Leaflet.isProcessing s, Leaflet.showLayerMenu s, Leaflet.activeMarkers s).

(** The message a successful turn appends, in each revision. *)
Definition mockReply (r : AskResult.t) : Message.t :=
  Message.mk assistant (AskResult.text r) (Some (AskResult.links r))
    (Mock.parseRouteData (AskResult.text r) (AskResult.links r)).
Definition leafletReply (r : AskResult.t) : Message.t :=
  Message.mk assistant (Leaflet.displayTextOf (AskResult.text r))
    (Some (AskResult.links r))
    (Leaflet.parseRouteData (AskResult.text r) (AskResult.links r)).

(** The markers one turn synthesizes: one for each link, in order, each
    with the title of its link and the stop number of that title. *)
Definition markersFor (routeData : option Route.t)
    (links : list GroundingLink.t) (ms : list MapMarker.t) : Prop :=
  length ms = length links
  /\ forall k link, nth_error links k = Some link ->
       exists mk, nth_error ms k = Some mk
                  /\ MapMarker.title mk = GroundingLink.title link
                  /\ MapMarker.stopNumber mk
                     = Common.stopNumberOf routeData (GroundingLink.title link).

End Runs.

(* ================================================================== *)
(** * Part I, continued: the rest of the component and of the service  *)
(* ================================================================== *)

From Stdlib Require Import Permutation.

(** ** The request [askMaps] builds ([src/unnamed/part_000]) *)

Module GeminiRequest.
Import JS.

(** [history.map(h => ({ role: h.role === 'assistant' ? 'model' : 'user',
    parts: [{ text: h.content }] }))], then the prompt pushed as a user
    turn. A turn is its role and its text. *)
Definition contentsOf (prompt : jsstring) (history : list (Role * jsstring))
  : list (jsstring * jsstring) :=
  map (fun h => (match fst h with
                 | assistant => lit "model"
                 | user => lit "user"
                 end, snd h)) history
  ++ [(lit "user", prompt)].

(** [if (location) config.toolConfig = { retrievalConfig: { latLng } }] *)
Definition toolConfigOf (location : option Location.t) : option (float * float) :=
  match location with
  | Some l => Some (Location.lat l, Location.lng l)
  | None => None
  end.

(** What one call of [handleSend] hands to [generateContent]. *)
Definition contentsOfRequest (r : Request.t) : list (jsstring * jsstring) :=
  contentsOf (Request.prompt r) (Request.history r).

End GeminiRequest.

(** The links of a reply, read off its grounding chunks one by one: the
    chunks that have a non-empty maps uri, each with that uri and with its
    title, or View on Maps when it has none. Stated apart from
    [GeminiService.extractLinks], to compare with its loop. *)
Module ChunkLinks.
Import JS GeminiService.

(** [chunk.maps?.uri], an absent one as the empty string. *)
Definition uriOf (chunk : option MapsChunk.t) : jsstring :=
  match chunk with
  | Some mc => match MapsChunk.uri mc with Some u => u | None => [] end
  | None => []
  end.

Definition hasUri (chunk : option MapsChunk.t) : bool :=
  match uriOf chunk with
  | [] => false
  | _ :: _ => true
  end.

Definition titleOf (chunk : option MapsChunk.t) : jsstring :=
  match chunk with
  | Some mc =>
      match MapsChunk.title mc with
      | Some (c :: t) => c :: t
      | _ => lit "View on Maps"
      end
  | None => lit "View on Maps"
  end.

Definition linkOf (chunk : option MapsChunk.t) : GroundingLink.t :=
  GroundingLink.mk (uriOf chunk) (titleOf chunk).

End ChunkLinks.

(** ** The other handlers of the component *)

(** A style edit of the marker card: [{ iconType }] or [{ color }]. *)
Module MarkerUpdate.
Record t := mk { color : option JS.jsstring; iconType : option JS.jsstring }.
End MarkerUpdate.

Module Handlers.
Import JS Common.

Definition id_eqb (a b : N * nat) : bool :=
  N.eqb (fst a) (fst b) && Nat.eqb (snd a) (snd b).

(** [{ ...m, ...up }] *)
Definition applyUpdate (up : MarkerUpdate.t) (mk : MapMarker.t) : MapMarker.t :=
  MapMarker.mk (MapMarker.uri mk) (MapMarker.title mk) (MapMarker.id mk)
    (MapMarker.synthetic mk) (MapMarker.hours mk)
    (match MarkerUpdate.color up with Some c => c | None => MapMarker.color mk end)
    (match MarkerUpdate.iconType up with
     | Some i => i
     | None => MapMarker.iconType mk
     end)
    (MapMarker.stopNumber mk).

(** [prev => prev.map(m => m.id === id ? { ...m, ...up } : m)] *)
Definition onMarkerUpdate (id : N * nat) (up : MarkerUpdate.t)
    (prev : list MapMarker.t) : list MapMarker.t :=
  map (fun mk => if id_eqb (MapMarker.id mk) id then applyUpdate up mk else mk)
      prev.

(** The loop of [activeRoute] as it is written: from the last message
    back to the first, the first route met; [null] when there is none. *)
Fixpoint scanBack (reversed : list Message.t) : option Route.t :=
  match reversed with
  | [] => None
  | msg :: earlier =>
      match Message.route msg with
      | Some r => Some r
      | None => scanBack earlier
      end
  end.
Definition activeRouteLoop (messages : list Message.t) : option Route.t :=
  scanBack (rev messages).

End Handlers.

Module MockHandlers.
Import JS Common.

Definition setIsVoiceMode (v : bool) (s : Mock.State) :=
  Mock.mkState (Mock.messages s) (Mock.input s) (Mock.isChatOpen s) v
    (Mock.isDrivingMode s) (Mock.userLocation s) (Mock.isProcessing s)
    (Mock.showTraffic s) (Mock.activeLayer s) (Mock.activeMarkers s)
    (Mock.zoom s) (Mock.centerX s) (Mock.centerY s).
Definition setIsDrivingMode (v : bool) (s : Mock.State) :=
  Mock.mkState (Mock.messages s) (Mock.input s) (Mock.isChatOpen s)
    (Mock.isVoiceMode s) v (Mock.userLocation s) (Mock.isProcessing s)
    (Mock.showTraffic s) (Mock.activeLayer s) (Mock.activeMarkers s)
    (Mock.zoom s) (Mock.centerX s) (Mock.centerY s).

(** [startVoiceMode] up to its first [await]. *)
Definition startVoiceMode (s : Mock.State) : Mock.State :=
  Mock.setIsChatOpen true (setIsVoiceMode true s).

(** [stopVoiceMode], and the session's [onclose]. *)
Definition stopVoiceMode (s : Mock.State) : Mock.State := setIsVoiceMode false s.

(** [toggleDrivingMode], as the handler of the render with state [s]. *)
Definition toggleDrivingMode (s : Mock.State) : Mock.State :=
  let nextState := negb (Mock.isDrivingMode s) in
  let s1 := setIsDrivingMode nextState s in
  if nextState then
    let s2 := Mock.setZoom (JNum 3)
                (Mock.setShowTraffic (JBool true) (Mock.setIsChatOpen true s1)) in
    if negb (Mock.isVoiceMode s) then startVoiceMode s2 else s2
  else stopVoiceMode s1.

(** The geolocation callback, the chat toggles and the traffic button. *)
Definition setUserLocation (v : option Location.t) (s : Mock.State) :=
  Mock.mkState (Mock.messages s) (Mock.input s) (Mock.isChatOpen s)
    (Mock.isVoiceMode s) (Mock.isDrivingMode s) v (Mock.isProcessing s)
    (Mock.showTraffic s) (Mock.activeLayer s) (Mock.activeMarkers s)
    (Mock.zoom s) (Mock.centerX s) (Mock.centerY s).
Definition toggleChat (s : Mock.State) : Mock.State :=
  Mock.setIsChatOpen (negb (Mock.isChatOpen s)) s.
Definition toggleTraffic (s : Mock.State) : Mock.State :=
  Mock.setShowTraffic (JBool (negb (truthy (Mock.showTraffic s)))) s.

(** The close button of the chat header. *)
Definition reset (s : Mock.State) : Mock.State :=
  stopVoiceMode
    (Mock.setActiveMarkers (fun _ => [])
       (Mock.setInput []
          (Mock.setIsChatOpen false (Mock.setMessages (fun _ => []) s)))).

End MockHandlers.

Module LeafletHandlers.
Import JS Common.

Definition setIsVoiceMode (v : bool) (s : Leaflet.State) :=
  Leaflet.mkState (Leaflet.messages s) (Leaflet.input s) (Leaflet.isChatOpen s) v
    (Leaflet.isDrivingMode s) (Leaflet.userLocation s) (Leaflet.isProcessing s)
    (Leaflet.showTraffic s) (Leaflet.activeLayer s) (Leaflet.showLayerMenu s)
    (Leaflet.activeMarkers s) (Leaflet.zoom s) (Leaflet.mapCenter s).
Definition setIsDrivingMode (v : bool) (s : Leaflet.State) :=
  Leaflet.mkState (Leaflet.messages s) (Leaflet.input s) (Leaflet.isChatOpen s)
    (Leaflet.isVoiceMode s) v (Leaflet.userLocation s) (Leaflet.isProcessing s)
    (Leaflet.showTraffic s) (Leaflet.activeLayer s) (Leaflet.showLayerMenu s)
    (Leaflet.activeMarkers s) (Leaflet.zoom s) (Leaflet.mapCenter s).

(** [startVoiceMode] up to its first [await]. *)
Definition startVoiceMode (s : Leaflet.State) : Leaflet.State :=
  Leaflet.setIsChatOpen true (setIsVoiceMode true s).

(** [stopVoiceMode], and the session's [onclose]. *)
Definition stopVoiceMode (s : Leaflet.State) : Leaflet.State :=
  setIsVoiceMode false s.

(** [toggleDrivingMode], as the handler of the render with state [s]. *)
Definition toggleDrivingMode (s : Leaflet.State) : Leaflet.State :=
  let nextState := negb (Leaflet.isDrivingMode s) in
  let s1 := setIsDrivingMode nextState s in
  if nextState then
    let s2 := Leaflet.setZoom (JNum 17)
                (Leaflet.setShowTraffic (JBool true)
                   (Leaflet.setIsChatOpen true s1)) in
    if negb (Leaflet.isVoiceMode s) then startVoiceMode s2 else s2
  else stopVoiceMode (Leaflet.setZoom (JNum 13) s1).

(** The chat toggles and the traffic button. *)
Definition setUserLocation (v : Location.t) (s : Leaflet.State) :=
  Leaflet.mkState (Leaflet.messages s) (Leaflet.input s) (Leaflet.isChatOpen s)
    (Leaflet.isVoiceMode s) (Leaflet.isDrivingMode s) v (Leaflet.isProcessing s)
    (Leaflet.showTraffic s) (Leaflet.activeLayer s) (Leaflet.showLayerMenu s)
    (Leaflet.activeMarkers s) (Leaflet.zoom s) (Leaflet.mapCenter s).
(** [setUserLocation(loc); setMapCenter(loc)] of the geolocation callback. *)
Definition onPosition (loc : Location.t) (s : Leaflet.State) : Leaflet.State :=
  Leaflet.setMapCenter (JNum (Location.lat loc), JNum (Location.lng loc))
    (setUserLocation loc s).
Definition toggleChat (s : Leaflet.State) : Leaflet.State :=
  Leaflet.setIsChatOpen (negb (Leaflet.isChatOpen s)) s.
Definition toggleTraffic (s : Leaflet.State) : Leaflet.State :=
  Leaflet.setShowTraffic (JBool (negb (truthy (Leaflet.showTraffic s)))) s.

(** The close button of the chat header. *)
Definition reset (s : Leaflet.State) : Leaflet.State :=
  stopVoiceMode
    (Leaflet.setActiveMarkers (fun _ => [])
       (Leaflet.setInput []
          (Leaflet.setIsChatOpen false (Leaflet.setMessages (fun _ => []) s)))).

(** The tile layers of [LeafletMap]. *)
Definition layers_standard : jsstring :=
  lit "https://{s}.tile.openstreetmap.org/{z}/{x}/{y}.png".
Definition layers_satellite : jsstring :=
  lit "https://server.arcgisonline.com/ArcGIS/rest/services/World_Imagery/MapServer/tile/{z}/{y}/{x}".
Definition layers_terrain : jsstring :=
  lit "https://{s}.tile.opentopomap.org/{z}/{x}/{y}.png".
Definition layers_transit : jsstring :=
  lit "https://{s}.tile.thunderforest.com/transport/{z}/{x}/{y}.png?apikey=your_api_key_here".

(** [activeLayer === 'satellite' ? layers.satellite :
     activeLayer === 'terrain' ? layers.terrain : layers.standard] *)
Definition tileUrl (activeLayer : jsval) : jsstring :=
  match activeLayer with
  | JStr l =>
      if str_eqb l (lit "satellite") then layers_satellite
      else if str_eqb l (lit "terrain") then layers_terrain
      else layers_standard
  | _ => layers_standard
  end.

(** The layer button is highlighted when [activeLayer !== 'standard']
    (the menu closed). *)
Definition layerHighlighted (activeLayer : jsval) : bool :=
  match activeLayer with
  | JStr l => negb (str_eqb l (lit "standard"))
  | _ => true
  end.

End LeafletHandlers.

(** ** Vocabulary of the further properties *)

Module Tools.
Import JS Common.

Inductive Tool := SetMapLayer | ToggleTraffic | UpdateMapView | Unknown.

(** The tool a call names, if the executor knows it. *)
Definition toolOf (fc : FunctionCall.t) : Tool :=
  if nameIs fc "set_map_layer" then SetMapLayer
  else if nameIs fc "toggle_traffic" then ToggleTraffic
  else if nameIs fc "update_map_view" then UpdateMapView
  else Unknown.

(** The call reads [fc.args] of an [fc] that has none. *)
Definition malformed (fc : FunctionCall.t) : bool :=
  match toolOf fc, FunctionCall.args fc with
  | Unknown, _ => false
  | _, None => true
  | _, Some _ => false
  end.

Definition setMapLayer (layer : string) : FunctionCall.t :=
  FunctionCall.mk None (Some (lit "set_map_layer"))
    (Some [(lit "layer", JStr (lit layer))]).
Definition toggleTrafficNoArgs : FunctionCall.t :=
  FunctionCall.mk None (Some (lit "toggle_traffic")) None.
Definition toggleTraffic (on : bool) : FunctionCall.t :=
  FunctionCall.mk None (Some (lit "toggle_traffic"))
    (Some [(lit "enabled", JBool on)]).

(** A reply with a good call followed by a call without arguments. *)
Definition halfApplied : AskResult.t :=
  AskResult.mk (lit "Switching to satellite.") []
    (Some [setMapLayer "satellite"; toggleTrafficNoArgs]).

(** A reply whose second link has a lone surrogate in its title. *)
Definition loneSurrogate : GroundingLink.t :=
  GroundingLink.mk (lit "https://maps.example/x") [55357%N].
Definition badTitleReply : AskResult.t :=
  AskResult.mk (lit "Two places.") [Samples.linkA; loneSurrogate]
    (Some [setMapLayer "terrain"]).

End Tools.

Module Turns.
Import JS Common Tools.

(** The calls of a reply, none if the field is absent. *)
Definition callsOf (r : AskResult.t) : list FunctionCall.t :=
  match AskResult.functionCalls r with
  | Some fcs => fcs
  | None => []
  end.

(** The Leaflet revision closes the chat first when the text has the
    directive. *)
Definition afterDirective (r : AskResult.t) (s : Leaflet.State) : Leaflet.State :=
  if includes Leaflet.directive (AskResult.text r)
  then Leaflet.setIsChatOpen false s else s.

Definition wellFormedTitles (links : list GroundingLink.t) : bool :=
  forallb (fun l => isWellFormed (GroundingLink.title l)) links.

End Turns.

(** Runs of the conversation: invocations of [handleSend] that are
    accepted, model calls that settle, and the events in between that
    leave the transcript alone (typing, tool calls from the voice session,
    style edits of a marker, the driving-mode button, the geolocation
    callback, the chat toggles and the traffic button). The close button,
    which empties the transcript, is not among them. *)
Module Conversation.
Import JS Common.

(** A run of the component, from the events of its life: invocations of
    [handleSend] that were accepted, turns settling, and the other handlers
    (the close button apart). An invoked handler belongs to some render,
    which need not be that of the current state. [mockRun stale pending s]:
    the run leaves the state [s] with [pending] model calls that have not
    settled; [stale] tells whether some invocation was accepted while the
    state had a turn in flight. *)
Inductive mockRun : bool -> nat -> Mock.State -> Prop :=
| mock_start : mockRun false 0 Mock.initial
| mock_submit : forall render textToSend stale pending s s' call,
    mockRun stale pending s ->
    Mock.handleSend_start render textToSend s = (s', Some call) ->
    mockRun (stale || Mock.isProcessing s) (S pending) s'
| mock_settle : forall synth outcome stale pending s,
    mockRun stale (S pending) s ->
    mockRun stale pending (Mock.handleSend_settle synth outcome s)
| mock_typing : forall v stale pending s,
    mockRun stale pending s -> mockRun stale pending (Mock.setInput v s)
| mock_tool : forall fc stale pending s,
    mockRun stale pending s ->
    mockRun stale pending (fst (Mock.executeFunctionCall fc s))
| mock_style : forall id up stale pending s,
    mockRun stale pending s ->
    mockRun stale pending
      (Mock.setActiveMarkers (Handlers.onMarkerUpdate id up) s)
| mock_drive : forall stale pending s,
    mockRun stale pending s ->
    mockRun stale pending (MockHandlers.toggleDrivingMode s)
| mock_located : forall l stale pending s,
    mockRun stale pending s ->
    mockRun stale pending (MockHandlers.setUserLocation (Some l) s)
| mock_chat : forall stale pending s,
    mockRun stale pending s -> mockRun stale pending (MockHandlers.toggleChat s)
| mock_traffic : forall stale pending s,
    mockRun stale pending s ->
    mockRun stale pending (MockHandlers.toggleTraffic s).

Inductive leafletRun : bool -> nat -> Leaflet.State -> Prop :=
| leaflet_start : leafletRun false 0 Leaflet.initial
| leaflet_submit : forall render textToSend stale pending s s' call,
    leafletRun stale pending s ->
    Leaflet.handleSend_start render textToSend s = (s', Some call) ->
    leafletRun (stale || Leaflet.isProcessing s) (S pending) s'
| leaflet_settle : forall synth outcome stale pending s,
    leafletRun stale (S pending) s ->
    leafletRun stale pending (Leaflet.handleSend_settle synth outcome s)
| leaflet_typing : forall v stale pending s,
    leafletRun stale pending s -> leafletRun stale pending (Leaflet.setInput v s)
| leaflet_tool : forall fc stale pending s,
    leafletRun stale pending s ->
    leafletRun stale pending (fst (Leaflet.executeFunctionCall fc s))
| leaflet_style : forall id up stale pending s,
    leafletRun stale pending s ->
    leafletRun stale pending
      (Leaflet.setActiveMarkers (Handlers.onMarkerUpdate id up) s)
| leaflet_drive : forall stale pending s,
    leafletRun stale pending s ->
    leafletRun stale pending (LeafletHandlers.toggleDrivingMode s)
| leaflet_located : forall l stale pending s,
    leafletRun stale pending s ->
    leafletRun stale pending (LeafletHandlers.onPosition l s)
| leaflet_chat : forall stale pending s,
    leafletRun stale pending s ->
    leafletRun stale pending (LeafletHandlers.toggleChat s)
| leaflet_traffic : forall stale pending s,
    leafletRun stale pending s ->
    leafletRun stale pending (LeafletHandlers.toggleTraffic s).

(** The number of messages of a role. *)
Definition countRole (r : Role) (messages : list Message.t) : nat :=
  length (filter (fun msg => match Message.role msg, r with
                             | user, user | assistant, assistant => true
                             | _, _ => false
                             end) messages).

(** Every assistant message answers a user message before it that no
    earlier one answers, and [pending] user messages are unanswered. *)
Definition answers (pending : nat) (messages : list Message.t) : Prop :=
  countRole user messages = countRole assistant messages + pending
  /\ forall k, countRole assistant (firstn k messages)
               <= countRole user (firstn k messages).

(** User and assistant messages take turns, the user first. *)
Definition takesTurns (messages : list Message.t) : Prop :=
  forall i msg, nth_error messages i = Some msg ->
    Message.role msg = if Nat.even i then user else assistant.

(** The same of the turns sent to the model. *)
Definition contentsTakeTurns (contents : list (jsstring * jsstring)) : Prop :=
  forall i turn, nth_error contents i = Some turn ->
    fst turn = if Nat.even i then lit "user" else lit "model".

(** The two facts a run keeps about its transcript. *)
Definition inStep (messages : list Message.t) (isProcessing : bool) : Prop :=
  takesTurns messages /\ isProcessing = Nat.odd (length messages).

End Conversation.

(** ** Vocabulary of the voice session's further properties *)

Module VoiceReplies.
Import JS Common Voice Tools.

(** The response sent for a call that returned. *)
Definition answerOf (fc : FunctionCall.t) : ToolResponse :=
  mkResp (FunctionCall.id fc) (FunctionCall.name fc) ack.

(** The calls before the first one that reads [args] of a call without. *)
Fixpoint answered (fcs : list FunctionCall.t) : list FunctionCall.t :=
  match fcs with
  | [] => []
  | fc :: rest => if malformed fc then [] else fc :: answered rest
  end.

(** [msg.toolCall.functionCalls], when the message has them. *)
Definition callsOfMsg (msg : ServerMessage) : list FunctionCall.t :=
  match toolCall msg with
  | Some (Some fcs) => fcs
  | _ => []
  end.

(** A message with audio and two calls, the second without arguments, and
    a message whose audio cannot be decoded. *)
Definition twoCalls : ServerMessage :=
  mkMsg NoAudio false
    (Some (Some [FunctionCall.mk (Some (lit "c1")) (Some (lit "set_map_layer"))
                   (Some [(lit "layer", JStr (lit "terrain"))]);
                 FunctionCall.mk (Some (lit "c2")) (Some (lit "toggle_traffic"))
                   None;
                 FunctionCall.mk (Some (lit "c3")) (Some (lit "toggle_traffic"))
                   (Some [(lit "enabled", JBool true)])])).
Definition oddChunk : ServerMessage :=
  mkMsg (Pcm [0; 0; 0]%N) false
    (Some (Some [FunctionCall.mk (Some (lit "c1")) (Some (lit "set_map_layer"))
                   (Some [(lit "layer", JStr (lit "terrain"))])])).

End VoiceReplies.

(** ** What a marker shows on the map *)

Module MarkerFace.
Import JS Common.

Inductive IconKind := Pin | Heart | Star | Coffee | Utensils.

(** The [switch] of [MarkerIcon] and of [createCustomIcon]. *)
Definition iconOf (iconType : jsstring) : IconKind :=
  if str_eqb iconType (lit "heart") then Heart
  else if str_eqb iconType (lit "star") then Star
  else if str_eqb iconType (lit "coffee") then Coffee
  else if str_eqb iconType (lit "utensils") then Utensils
  else Pin.

Inductive Content := Number (n : Z) | Icon (kind : IconKind).

(** The marker of [MockMap] ([src/App.tsx]): the class of its disc and
    what is drawn on it. *)
Definition mockFace (selected : bool) (mk : MapMarker.t) : jsstring * Content :=
  ((if selected then lit "bg-blue-700 ring-4 ring-blue-200"
    else match MapMarker.stopNumber mk with
         | Some _ => lit "bg-blue-600"
         | None => orString (Some (MapMarker.color mk)) (lit "bg-red-500")
         end),
   match MapMarker.stopNumber mk with
   | Some n => Number n
   | None => Icon (iconOf (orString (Some (MapMarker.iconType mk)) (lit "pin")))
   end).

(** [createCustomIcon] of the Leaflet revision: the colour class, the size
    and ring classes, and what is drawn; a stop number is shown when it is
    truthy. *)
Record DivIcon := mkDivIcon {
  colorClass : jsstring;
  size : jsstring;
  ring : jsstring;
  content : Content
}.

Definition createCustomIcon (color iconType : jsstring) (isSelected : bool)
    (stopNumber : option Z) : DivIcon :=
  mkDivIcon
    (orString (Some color) (lit "bg-blue-600"))
    (if isSelected then lit "w-10 h-10" else lit "w-8 h-8")
    (if isSelected then lit "ring-4 ring-white" else lit "border-2 border-white")
    (match stopNumber with
     | Some n => if Z.eqb n 0 then Icon (iconOf iconType) else Number n
     | None => Icon (iconOf iconType)
     end).

(** [createCustomIcon(marker.color || 'bg-blue-600', marker.iconType || 'pin',
     selectedMarkerId === marker.id, marker.stopNumber)] *)
Definition leafletFace (selected : bool) (mk : MapMarker.t) : DivIcon :=
  createCustomIcon
    (orString (Some (MapMarker.color mk)) (lit "bg-blue-600"))
    (orString (Some (MapMarker.iconType mk)) (lit "pin"))
    selected (MapMarker.stopNumber mk).

End MarkerFace.

(** ** The marker clusters of the schematic map ([MockMap], [src/App.tsx]) *)

Module Clusters.
Import JS Common.

(** The text of [${Math.floor(v)}]: two cells get the same text exactly
    when their floors are the same number (the two zeros both print as 0,
    and NaN prints as NaN). *)
Inductive Coord := Fin (z : Z) | PosInf | NegInf | NotANumber.

Definition Math_floor (v : float) : Coord :=
  match Prim2SF v with
  | S754_zero _ => Fin 0
  | S754_infinity false => PosInf
  | S754_infinity true => NegInf
  | S754_nan => NotANumber
  | S754_finite s m e =>
      let n := if s then Z.neg m else Z.pos m in
      Fin (if (0 <=? e)%Z then n * 2 ^ e else n / 2 ^ (- e))%Z
  end.

Definition coord_eqb (a b : Coord) : bool :=
  match a, b with
  | Fin x, Fin y => Z.eqb x y
  | PosInf, PosInf | NegInf, NegInf | NotANumber, NotANumber => true
  | _, _ => false
  end.

(** The key [`${gx}-${gy}`] of a grid cell. *)
Definition Key : Type := Coord * Coord.
Definition key_eqb (a b : Key) : bool :=
  coord_eqb (fst a) (fst b) && coord_eqb (snd a) (snd b).

Definition xOf (mk : MapMarker.t) : float :=
  fst (Synthetic.position (MapMarker.synthetic mk)).
Definition yOf (mk : MapMarker.t) : float :=
  snd (Synthetic.position (MapMarker.synthetic mk)).

Definition keyOf (clusterGridSize : float) (mk : MapMarker.t) : Key :=
  (Math_floor (PrimFloat.div (xOf mk) clusterGridSize),
   Math_floor (PrimFloat.div (yOf mk) clusterGridSize)).

Section Grid.

(** The object [grid] as the list of its properties in insertion order,
    which is the order of [Object.values]: no key is an array index. *)
Variable K : Type.
Variable eqb : K -> K -> bool.
Variable key : MapMarker.t -> K.

(** [if (!grid[key]) grid[key] = []; grid[key].push(m)] *)
Fixpoint push (k : K) (mk : MapMarker.t) (grid : list (K * list MapMarker.t))
  : list (K * list MapMarker.t) :=
  match grid with
  | [] => [(k, [mk])]
  | (k', group) :: rest =>
      if eqb k' k then (k', group ++ [mk]) :: rest
      else (k', group) :: push k mk rest
  end.

Definition gridFrom (grid : list (K * list MapMarker.t))
    (markers : list MapMarker.t) : list (K * list MapMarker.t) :=
  fold_left (fun g mk => push (key mk) mk g) markers grid.

(** The keys of the grid are different, and every group is a non-empty
    list of markers of its key. *)
Definition gridOk (grid : list (K * list MapMarker.t)) : Prop :=
  NoDup (map fst grid)
  /\ Forall (fun entry => snd entry <> []
                          /\ Forall (fun mk => key mk = fst entry) (snd entry))
            grid.

End Grid.

Inductive Item :=
| Single (data : MapMarker.t)
| Cluster (id : nat) (x y : float) (count : nat) (markers : list MapMarker.t).

Definition ofNat (n : nat) : float :=
  PrimFloat.of_uint63 (Uint63.of_Z (Z.of_nat n)).

(** [group.reduce((acc, m) => acc + m.x, 0) / group.length] *)
Definition average (f : MapMarker.t -> float) (group : list MapMarker.t) : float :=
  PrimFloat.div (fold_left (fun acc mk => PrimFloat.add acc (f mk)) group 0%float)
                (ofNat (length group)).

Definition itemOf (idx : nat) (group : list MapMarker.t) : Item :=
  match group with
  | [mk] => Single mk
  | _ => Cluster idx (average xOf group) (average yOf group) (length group) group
  end.

(** [isDrivingMode ? zoom + 1 : zoom] *)
Definition effectiveZoomOf (isDrivingMode : bool) (zoom : float) : float :=
  if isDrivingMode then PrimFloat.add zoom 1%float else zoom.

(** The memoised [clusters]. *)
Definition clusters (effectiveZoom : float) (markers : list MapMarker.t)
  : list Item :=
  if PrimFloat.leb 4%float effectiveZoom then map Single markers
  else
    let clusterGridSize := PrimFloat.div 12%float effectiveZoom in
    mapi itemOf 0
      (map snd (gridFrom Key key_eqb (keyOf clusterGridSize) [] markers)).

Definition membersOf (item : Item) : list MapMarker.t :=
  match item with
  | Single mk => [mk]
  | Cluster _ _ _ _ ms => ms
  end.

(** Three markers, two of them in one cell at zoom 2. *)
Definition at_ (x y : float) (i : nat) : MapMarker.t :=
  newMarker None
    (fun _ => Synthetic.mk 1700000000000 (x, y) 4.5%float 120%float [] [] [] [])
    i Samples.linkA.
Definition three : list MapMarker.t :=
  [at_ 20%float 20%float 0; at_ 70%float 30%float 1; at_ 22%float 19%float 2].

End Clusters.

(** ** What the two maps draw for the markers *)

Module MapView.
Import JS Common MarkerFace Clusters.

(** [selectedMarkerId === marker.id] *)
Definition isSelected (selectedMarkerId : option (N * nat)) (mk : MapMarker.t)
  : bool :=
  match selectedMarkerId with
  | Some id => Handlers.id_eqb id (MapMarker.id mk)
  | None => false
  end.

(** What [MockMap] draws for an item of [clusters]: for a cluster a disc
    with the count of its markers, for a marker its own disc. *)
Inductive Drawn :=
| CountDisc (count : nat)
| MarkerDisc (face : jsstring * Content).

Definition drawItem (selectedMarkerId : option (N * nat)) (item : Item) : Drawn :=
  match item with
  | Cluster _ _ _ count _ => CountDisc count
  | Single mk => MarkerDisc (mockFace (isSelected selectedMarkerId mk) mk)
  end.

(** [clusters.map((item) => ...)] of [MockMap]. *)
Definition mockDrawn (isDrivingMode : bool) (zoom : float)
    (selectedMarkerId : option (N * nat)) (markers : list MapMarker.t)
  : list Drawn :=
  map (drawItem selectedMarkerId)
    (clusters (effectiveZoomOf isDrivingMode zoom) markers).

(** [markers.map(marker => <Marker icon={createCustomIcon(...)} />)] of
    [LeafletMap]. *)
Definition leafletDrawn (selectedMarkerId : option (N * nat))
    (markers : list MapMarker.t) : list DivIcon :=
  map (fun mk => leafletFace (isSelected selectedMarkerId mk) mk) markers.

(** Two stops of a route close to each other, and a third one apart. *)
Definition stopAt (x y : float) (i : nat) (title : jsstring) : MapMarker.t :=
  newMarker (Some Samples.routeABC)
    (fun _ => Synthetic.mk 1700000000000 (x, y) 4.5%float 120%float [] [] [] [])
    i (GroundingLink.mk (lit "https://maps.example/stop") title).
Definition stops : list MapMarker.t :=
  [stopAt 20%float 20%float 0 (lit "A"); stopAt 22%float 19%float 1 (lit "B");
   stopAt 70%float 30%float 2 (lit "C")].

End MapView.

(** ** Vocabulary of the step parser's further properties *)

Module StepLines.
Import JS RegExp RouteParser.

(** Where [^] matches under the [m] flag. *)
Definition lineStart (pv : option char) : bool :=
  match pv with
  | None => true
  | Some c => isLineTerminator c
  end.

(** Where [$] matches under the [m] flag. *)
Definition lineEnd (post : jsstring) : Prop :=
  match post with
  | [] => True
  | c :: _ => isLineTerminator c = true
  end.

(** The number of lines that begin with a digit. *)
Fixpoint numberedLines (pv : option char) (s : jsstring) : nat :=
  match s with
  | [] => 0
  | a :: s' =>
      (if lineStart pv && isDigit a then 1 else 0) + numberedLines (Some a) s'
  end.

(** [s] reads a number, a full stop, the white space [ws], the rest of a
    line [raw], and [post]. *)
Definition stepAt (s digits ws raw post : jsstring) : Prop :=
  s = digits ++ 46%N :: ws ++ raw ++ post
  /\ digits <> [] /\ forallb isDigit digits = true
  /\ ws <> [] /\ forallb isSpace ws = true
  /\ raw <> [] /\ forallb isDot raw = true
  /\ lineEnd post.

(** A distance as the step pattern takes it: digits and full stops,
    white space if any, and word characters. *)
Definition distanceShape (d : jsstring) : Prop :=
  exists num ws unit,
    d = num ++ ws ++ unit
    /\ num <> [] /\ forallb digitOrDot num = true
    /\ forallb isSpace ws = true
    /\ unit <> [] /\ forallb isWord unit = true.

(** The pattern without its capture groups. *)
Fixpoint strip (r : regex) : regex :=
  match r with
  | Seq r1 r2 => Seq (strip r1) (strip r2)
  | Alt r1 r2 => Alt (strip r1) (strip r2)
  | Group _ r' => strip r'
  | _ => r
  end.

(** Two matcher states at the same position. *)
Definition samePlace (x y : mstate) : Prop :=
  prev x = prev y /\ rest x = rest y.
Definition sameOutcome (a b : option mstate) : Prop :=
  match a, b with
  | Some x, Some y => samePlace x y
  | None, None => True
  | _, _ => False
  end.

(** A reply with numbered lines, and a text without a digit. *)
Definition numbered : jsstring :=
  lit "Route:" ++ [10%N] ++ lit "1. Head north (0.2 mi) on Pine St" ++ [10%N]
  ++ lit "2. Arrive".
Definition noDigits : jsstring := lit "Turn left, then right. Total time: soon".

End StepLines.

(** ** The audio helpers: [encode], [decode], [decodeAudioData] and the
    microphone loop of [onaudioprocess] (both revisions) *)

Module Audio.
Import JS.

(** *** Base64, as [btoa] and [atob] do it *)

Local Open Scope N_scope.

(** Table 1 of RFC 4648. *)
Definition alphabet : jsstring :=
  lit "ABCDEFGHIJKLMNOPQRSTUVWXYZabcdefghijklmnopqrstuvwxyz0123456789+/".
Definition padChar : char := 61.

Definition charOf (sextet : N) : char := nth (N.to_nat sextet) alphabet padChar.

Definition sextetOf (c : char) : option N :=
  if between 65 90 c then Some (c - 65)
  else if between 97 122 c then Some (c - 71)
  else if between 48 57 c then Some (c + 4)
  else if N.eqb c 43 then Some 62
  else if N.eqb c 47 then Some 63
  else None.

(** Three bytes give four sextets; a final group of one or two bytes gives
    two or three, the missing bits being zero. *)
Fixpoint sextetsOfBytes (bytes : list N) : list N :=
  match bytes with
  | b0 :: b1 :: b2 :: more =>
      b0 / 4 :: (b0 mod 4) * 16 + b1 / 16 :: (b1 mod 16) * 4 + b2 / 64
      :: b2 mod 64 :: sextetsOfBytes more
  | [b0; b1] => [b0 / 4; (b0 mod 4) * 16 + b1 / 16; (b1 mod 16) * 4]
  | [b0] => [b0 / 4; (b0 mod 4) * 16]
  | [] => []
  end.

Definition padding (n : nat) : jsstring :=
  match (n mod 3)%nat with
  | 1%nat => [padChar; padChar]
  | 2%nat => [padChar]
  | _ => []
  end.

Definition base64Encode (bytes : list N) : jsstring :=
  map charOf (sextetsOfBytes bytes) ++ padding (length bytes).

(** [btoa(data)]: an [InvalidCharacterError] when a code unit is above
    255. *)
Definition btoa (data : jsstring) : option jsstring :=
  if forallb (fun c => N.leb c 255) data then Some (base64Encode data) else None.

Definition isAsciiWhitespace (c : char) : bool :=
  N.eqb c 9 || N.eqb c 10 || N.eqb c 12 || N.eqb c 13 || N.eqb c 32.

(** When the length is a multiple of four, one or two [=] at the end are
    removed. *)
Definition stripPadding (data : jsstring) : jsstring :=
  if Nat.eqb (length data mod 4) 0 then
    match rev data with
    | a :: b :: r =>
        if N.eqb a padChar
        then if N.eqb b padChar then rev r else rev (b :: r)
        else data
    | [a] => if N.eqb a padChar then [] else data
    | [] => data
    end
  else data.

Fixpoint sextetsOfChars (data : jsstring) : option (list N) :=
  match data with
  | [] => Some []
  | c :: more =>
      match sextetOf c, sextetsOfChars more with
      | Some s, Some ss => Some (s :: ss)
      | _, _ => None
      end
  end.

(** Four sextets give three bytes; of a final group of two or three
    sextets the last four or two bits are discarded. *)
Fixpoint bytesOfSextets (sextets : list N) : list N :=
  match sextets with
  | s0 :: s1 :: s2 :: s3 :: more =>
      s0 * 4 + s1 / 16 :: (s1 mod 16) * 16 + s2 / 4 :: (s2 mod 4) * 64 + s3
      :: bytesOfSextets more
  | [s0; s1; s2] => [s0 * 4 + s1 / 16; (s1 mod 16) * 16 + s2 / 4]
  | [s0; s1] => [s0 * 4 + s1 / 16]
  | _ => []
  end.

(** [atob(data)] (forgiving-base64 decode): an [InvalidCharacterError]
    when, white space and padding removed, the length is 1 modulo 4 or a
    character is not of the alphabet. *)
Definition atob (data : jsstring) : option jsstring :=
  let d := stripPadding (filter (fun c => negb (isAsciiWhitespace c)) data) in
  if Nat.eqb (length d mod 4) 1 then None
  else option_map bytesOfSextets (sextetsOfChars d).

(** *** [encode] and [decode]

    A [Uint8Array] is the list of its elements, each below 256. *)

Definition isBytes (bytes : list N) : Prop := Forall (fun b => b < 256) bytes.

(** [String.fromCharCode(bytes[i])] *)
Definition fromCharCode (n : N) : char := n mod 65536.

Definition encode (bytes : list N) : option jsstring :=
  btoa (map fromCharCode bytes).

(** [bytes[i] = binaryString.charCodeAt(i)], stored modulo 256. *)
Definition decode (base64 : jsstring) : option (list N) :=
  option_map (map (fun c => c mod 256)) (atob base64).

(** What [onmessage] makes of [inlineData.data] when the parts are there:
    nothing for [undefined] and the empty string. *)
Definition audioFieldOf (data : option jsstring) : Voice.AudioField :=
  match data with
  | None | Some [] => Voice.NoAudio
  | Some base64Audio =>
      match decode base64Audio with
      | Some bytes => Voice.Pcm bytes
      | None => Voice.BadBase64
      end
  end.

(** *** Samples

    An [Int16Array] over the buffer of a [Uint8Array] reads the bytes in
    pairs, low byte first (every platform these pages run on is
    little-endian); an odd number of bytes is a [RangeError]. *)

Local Open Scope Z_scope.

Definition signed16 (u : Z) : Z := if u <? 32768 then u else u - 65536.

Fixpoint int16sOf (bytes : list N) : option (list Z) :=
  match bytes with
  | [] => Some []
  | [_] => None
  | lo :: hi :: more =>
      option_map (cons (signed16 (Z.of_N lo + 256 * Z.of_N hi))) (int16sOf more)
  end.

(** [new Uint8Array(int16.buffer)] *)
Definition bytesOfInt16s (values : list Z) : list N :=
  flat_map (fun v => let u := v mod 65536 in [Z.to_N (u mod 256); Z.to_N (u / 256)])
           values.

(** The Number with an integer value of small magnitude. *)
Definition numberOf (v : Z) : float :=
  if v <? 0 then PrimFloat.opp (PrimFloat.of_uint63 (Uint63.of_Z (- v)))
  else PrimFloat.of_uint63 (Uint63.of_Z v).

(** [dataInt16[i] / 32768.0]; the quotient is a multiple of 2^-15 of
    magnitude at most 1, which the [Float32Array] holds as it is. *)
Definition sampleOf (v : Z) : float := PrimFloat.div (numberOf v) 32768%float.

(** [decodeAudioData(data, outputCtx, 24000, 1)]: the samples of the one
    channel. [createBuffer] refuses a length of zero. *)
Definition decodeAudioData (data : list N) : list float + Eff.exn :=
  match int16sOf data with
  | None => inr Eff.RangeError
  | Some [] => inr Eff.DOMException
  | Some dataInt16 => inl (map sampleOf dataInt16)
  end.

(** The integer part of a Number, towards zero; 0 for NaN and the
    infinities. *)
Definition truncate (x : float) : Z :=
  match Prim2SF x with
  | S754_finite s m e =>
      let magnitude := if 0 <=? e then Z.pos m * 2 ^ e else Z.pos m / 2 ^ (- e) in
      if s then - magnitude else magnitude
  | _ => 0
  end.

(** What an [Int16Array] element holds after [a[i] = x]. *)
Definition ToInt16 (x : float) : Z := signed16 (truncate x mod 65536).

(** [int16[i] = inputData[i] * 32768] *)
Definition micSample (x : float) : Z := ToInt16 (PrimFloat.mul x 32768%float).

(** [encode(new Uint8Array(int16.buffer))] of the microphone loop. *)
Definition micChunk (inputData : list float) : option jsstring :=
  encode (bytesOfInt16s (map micSample inputData)).

(** A check of every integer from [base] up to [base + 2^bits - 1]. *)
Fixpoint allFrom (bits : nat) (p : Z -> bool) (base : Z) : bool :=
  match bits with
  | O => p base
  | S k => allFrom k p base && allFrom k p (base + 2 ^ Z.of_nat k)
  end.

Definition sampleExact (v : Z) : bool :=
  Z.eqb (micSample (sampleOf v)) v
  && PrimFloat.leb (-1)%float (sampleOf v) && PrimFloat.ltb (sampleOf v) 1%float.

Definition sampleWraps (k : Z) : bool :=
  Z.eqb (micSample (sampleOf k)) (k - 65536).

End Audio.

(* ================================================================== *)
(** * Part II: properties                                              *)
(* ================================================================== *)

(** ** Strings *)

Module JSFacts.
Import JS.

Lemma str_eqb_refl (a : jsstring) : str_eqb a a = true.
Proof.
  induction a as [|x a IH]; simpl; [reflexivity|].
  now rewrite N.eqb_refl, IH.
Qed.

Lemma str_eqb_eq (a b : jsstring) : str_eqb a b = true <-> a = b.
Proof.
  split.
  - revert b; induction a as [|x a IH]; intros [|y b]; simpl; try discriminate; auto.
    intros H. apply andb_true_iff in H as [Hx Hab].
    apply N.eqb_eq in Hx. f_equal; auto.
  - intros ->. apply str_eqb_refl.
Qed.

Lemma str_eqb_neq (a b : jsstring) : str_eqb a b = false <-> a <> b.
Proof.
  rewrite <- str_eqb_eq. destruct (str_eqb a b); split; congruence.
Qed.

End JSFacts.

(** ** The tool-call executor *)

Module ExecutorFacts.
Import JS Common JSFacts Samples.

Lemma nameIs_false (fc : FunctionCall.t) (n : string) :
  FunctionCall.name fc <> Some (lit n) -> nameIs fc n = false.
Proof.
  unfold nameIs. destruct (FunctionCall.name fc) as [s|]; [|reflexivity].
  intros H. apply str_eqb_neq. congruence.
Qed.

Lemma nameIs_true (fc : FunctionCall.t) (n : string) :
  FunctionCall.name fc = Some (lit n) -> nameIs fc n = true.
Proof.
  unfold nameIs. intros ->. apply str_eqb_refl.
Qed.

Lemma unknown_names (fc : FunctionCall.t) :
  ~ known (FunctionCall.name fc) ->
  nameIs fc "set_map_layer" = false /\ nameIs fc "toggle_traffic" = false
  /\ nameIs fc "update_map_view" = false.
Proof.
  unfold known. intros H.
  repeat split; apply nameIs_false; intros E; apply H; auto.
Qed.

End ExecutorFacts.

(** C4. A tool call whose name is none of [update_map_view],
    [set_map_layer], [toggle_traffic] leaves the whole component state, and
    so the zoom, the centre, the active layer and the traffic flag,
    unchanged, does not throw, and returns the fixed acknowledgement; in
    both revisions. *)
Theorem unknown_tool_is_noop (fc : FunctionCall.t) :
  ~ Samples.known (FunctionCall.name fc) ->
  (forall s : Mock.State,
      Mock.executeFunctionCall fc s = (s, inl Common.ack))
  /\ (forall s : Leaflet.State,
      Leaflet.executeFunctionCall fc s = (s, inl Common.ack)).
Proof.
  intros H. destruct (ExecutorFacts.unknown_names fc H) as (H1 & H2 & H3).
  split; intros s.
  - unfold Mock.executeFunctionCall. rewrite H1, H2, H3. reflexivity.
  - unfold Leaflet.executeFunctionCall. rewrite H1, H2, H3. reflexivity.
Qed.

Lemma unknown_tool_is_noop_witness :
  Mock.executeFunctionCall Samples.futureTool Mock.initial
    = (Mock.initial, inl Common.ack)
  /\ Leaflet.executeFunctionCall Samples.futureTool Leaflet.initial
    = (Leaflet.initial, inl Common.ack).
Proof.
  assert (H : ~ Samples.known (FunctionCall.name Samples.futureTool)).
  { intros [E | [E | E]]; discriminate E. }
  split; [apply (proj1 (unknown_tool_is_noop Samples.futureTool H))
         | apply (proj2 (unknown_tool_is_noop Samples.futureTool H))].
Defined.

Module ViewFacts.
Import JS Common JSFacts Samples ExecutorFacts.

Lemma truthy_zero (v : jsval) : isZero v -> truthy v = false.
Proof. intros [-> | ->]; reflexivity. Qed.

Lemma update_map_view_names (fc : FunctionCall.t) :
  FunctionCall.name fc = Some (lit "update_map_view") ->
  nameIs fc "set_map_layer" = false /\ nameIs fc "toggle_traffic" = false
  /\ nameIs fc "update_map_view" = true.
Proof.
  intros E. repeat split.
  - apply nameIs_false. rewrite E. intros H. discriminate H.
  - apply nameIs_false. rewrite E. intros H. discriminate H.
  - now apply nameIs_true.
Qed.

(** What [update_map_view] does in each revision, once the name tests are
    resolved. *)
Lemma mock_update_map_view (fc : FunctionCall.t) (a : object) (s : Mock.State) :
  FunctionCall.name fc = Some (lit "update_map_view") ->
  FunctionCall.args fc = Some a ->
  Mock.executeFunctionCall fc s =
  (let s1 := if truthy (get a (lit "zoom"))
             then Mock.setZoom (get a (lit "zoom")) s else s in
   let s2 := if truthy (get a (lit "focusX"))
             then Mock.setCenterX (get a (lit "focusX")) s1 else s1 in
   let s3 := if truthy (get a (lit "focusY"))
             then Mock.setCenterY (get a (lit "focusY")) s2 else s2 in
   (s3, inl ack)).
Proof.
  intros En Ea. destruct (update_map_view_names fc En) as (H1 & H2 & H3).
  unfold Mock.executeFunctionCall. rewrite H1, H2, H3.
  unfold argsOf. rewrite Ea.
  unfold Eff.bind, Eff.ret, Eff.when, Eff.modify.
  destruct (truthy (get a (lit "zoom"))), (truthy (get a (lit "focusX"))),
    (truthy (get a (lit "focusY"))); reflexivity.
Qed.

Lemma leaflet_update_map_view (fc : FunctionCall.t) (a : object) (s : Leaflet.State) :
  FunctionCall.name fc = Some (lit "update_map_view") ->
  FunctionCall.args fc = Some a ->
  Leaflet.executeFunctionCall fc s =
  (let s1 := if truthy (get a (lit "zoom"))
             then Leaflet.setZoom (get a (lit "zoom")) s else s in
   let s2 := if truthy (get a (lit "latitude")) && truthy (get a (lit "longitude"))
             then Leaflet.setMapCenter
                    (get a (lit "latitude"), get a (lit "longitude")) s1
             else s1 in
   (s2, inl ack)).
Proof.
  intros En Ea. destruct (update_map_view_names fc En) as (H1 & H2 & H3).
  unfold Leaflet.executeFunctionCall. rewrite H1, H2, H3.
  unfold argsOf. rewrite Ea.
  unfold Eff.bind, Eff.ret, Eff.when, Eff.modify.
  destruct (truthy (get a (lit "zoom"))),
    (truthy (get a (lit "latitude")) && truthy (get a (lit "longitude")));
    reflexivity.
Qed.

End ViewFacts.

(** C9. In an [update_map_view] call presence is tested by truthiness, so
    a zoom of 0 leaves the zoom as it was (both revisions), exactly as a
    call without a zoom does; and in the Leaflet revision a latitude of 0, a
    longitude of 0, or a missing latitude or longitude leaves the map
    centre as it was. *)
Theorem zero_argument_is_absent (fc : FunctionCall.t) (a : JS.object) :
  FunctionCall.name fc = Some (JS.lit "update_map_view") ->
  FunctionCall.args fc = Some a ->
  (Samples.isZero (JS.get a (JS.lit "zoom")) ->
   (forall s, Mock.zoom (fst (Mock.executeFunctionCall fc s)) = Mock.zoom s)
   /\ (forall s, Leaflet.zoom (fst (Leaflet.executeFunctionCall fc s))
                 = Leaflet.zoom s)
   /\ (forall a',
          JS.get a' (JS.lit "zoom") = JS.JUndefined ->
          (forall k, k <> JS.lit "zoom" -> JS.get a' k = JS.get a k) ->
          (forall s, Mock.executeFunctionCall (Samples.withArgs fc a') s
                     = Mock.executeFunctionCall fc s)
          /\ (forall s, Leaflet.executeFunctionCall (Samples.withArgs fc a') s
                        = Leaflet.executeFunctionCall fc s)))
  /\ (Samples.isZero (JS.get a (JS.lit "latitude"))
      \/ Samples.isZero (JS.get a (JS.lit "longitude"))
      \/ JS.get a (JS.lit "latitude") = JS.JUndefined
      \/ JS.get a (JS.lit "longitude") = JS.JUndefined ->
      forall s, Leaflet.mapCenter (fst (Leaflet.executeFunctionCall fc s))
                = Leaflet.mapCenter s).
Proof.
  intros En Ea. split.
  - intros Hz. pose proof (ViewFacts.truthy_zero _ Hz) as Tz.
    split; [|split].
    + intros s. rewrite (ViewFacts.mock_update_map_view fc a s En Ea).
      rewrite Tz. cbv zeta.
      destruct (JS.truthy (JS.get a (JS.lit "focusX"))),
        (JS.truthy (JS.get a (JS.lit "focusY"))); reflexivity.
    + intros s. rewrite (ViewFacts.leaflet_update_map_view fc a s En Ea).
      rewrite Tz. cbv zeta.
      destruct (JS.truthy (JS.get a (JS.lit "latitude"))
                && JS.truthy (JS.get a (JS.lit "longitude"))); reflexivity.
    + intros a' Hu Hsame.
      assert (Ex : JS.get a' (JS.lit "focusX") = JS.get a (JS.lit "focusX"))
        by (apply Hsame; intros H; discriminate H).
      assert (Ey : JS.get a' (JS.lit "focusY") = JS.get a (JS.lit "focusY"))
        by (apply Hsame; intros H; discriminate H).
      assert (Elat : JS.get a' (JS.lit "latitude") = JS.get a (JS.lit "latitude"))
        by (apply Hsame; intros H; discriminate H).
      assert (Elng : JS.get a' (JS.lit "longitude") = JS.get a (JS.lit "longitude"))
        by (apply Hsame; intros H; discriminate H).
      split; intros s.
      * rewrite (ViewFacts.mock_update_map_view fc a s En Ea).
        rewrite (ViewFacts.mock_update_map_view (Samples.withArgs fc a') a' s En eq_refl).
        rewrite Tz, Hu, Ex, Ey. reflexivity.
      * rewrite (ViewFacts.leaflet_update_map_view fc a s En Ea).
        rewrite (ViewFacts.leaflet_update_map_view (Samples.withArgs fc a') a' s En eq_refl).
        rewrite Tz, Hu, Elat, Elng. reflexivity.
  - intros Hc s. rewrite (ViewFacts.leaflet_update_map_view fc a s En Ea).
    assert (Tc : JS.truthy (JS.get a (JS.lit "latitude"))
                 && JS.truthy (JS.get a (JS.lit "longitude")) = false).
    { destruct Hc as [H | [H | [H | H]]].
      - now rewrite (ViewFacts.truthy_zero _ H).
      - rewrite (ViewFacts.truthy_zero _ H). apply andb_false_r.
      - now rewrite H.
      - rewrite H. apply andb_false_r. }
    rewrite Tc. cbv zeta.
    destruct (JS.truthy (JS.get a (JS.lit "zoom"))); reflexivity.
Qed.

Lemma zero_argument_is_absent_witness :
  Mock.zoom (fst (Mock.executeFunctionCall
                    (Samples.updateMapView Samples.zeroView) Mock.initial))
    = Mock.zoom Mock.initial
  /\ Leaflet.zoom (fst (Leaflet.executeFunctionCall
                          (Samples.updateMapView Samples.zeroView) Leaflet.initial))
    = Leaflet.zoom Leaflet.initial
  /\ Leaflet.mapCenter (fst (Leaflet.executeFunctionCall
                               (Samples.updateMapView Samples.zeroView)
                               Leaflet.initial))
    = Leaflet.mapCenter Leaflet.initial.
Proof.
  destruct (zero_argument_is_absent
              (Samples.updateMapView Samples.zeroView) Samples.zeroView
              eq_refl eq_refl) as [Hzoom Hcentre].
  destruct (Hzoom (or_introl eq_refl)) as (Hm & Hl & _).
  split; [apply Hm | split; [apply Hl | apply Hcentre]].
  left. left. reflexivity.
Defined.

(** ** The acceptance threshold of the route parser *)

(** C1. [parseRouteData] returns a route exactly when at least one numbered
    step was parsed or there are at least two links; with no step and one
    link it returns no route, and with no step and two links it returns the
    route with no steps whose stops are the two titles in link order. Both
    revisions. *)
Theorem route_acceptance_threshold (text : JS.jsstring) :
  (forall links,
      (Mock.parseRouteData text links <> None
       <-> (0 < length (RouteParser.parseSteps text) \/ 2 <= length links))
      /\ (Leaflet.parseRouteData text links <> None
          <-> (0 < length (RouteParser.parseSteps text) \/ 2 <= length links)))
  /\ (RouteParser.parseSteps text = [] ->
      (forall l,
          Mock.parseRouteData text [l] = None
          /\ Leaflet.parseRouteData text [l] = None)
      /\ (forall l1 l2,
             (exists r, Mock.parseRouteData text [l1; l2] = Some r
                        /\ Route.steps r = []
                        /\ Route.stops r
                           = [GroundingLink.title l1; GroundingLink.title l2])
             /\ (exists r, Leaflet.parseRouteData text [l1; l2] = Some r
                           /\ Route.steps r = []
                           /\ Route.stops r
                              = [GroundingLink.title l1; GroundingLink.title l2]))).
Proof.
  split.
  - intros links. unfold Mock.parseRouteData, Leaflet.parseRouteData.
    destruct (Nat.ltb_spec 0 (length (RouteParser.parseSteps text))) as [Hs|Hs];
      destruct (Nat.leb_spec 2 (length links)) as [Hl|Hl]; cbn [orb];
      (split; split; intros H; try discriminate; try lia; try congruence).
  - intros Hnone. unfold Mock.parseRouteData, Leaflet.parseRouteData.
    rewrite Hnone. split.
    + intros l. split; reflexivity.
    + intros l1 l2. split; eexists; (split; [reflexivity | split; reflexivity]).
Qed.

Lemma route_acceptance_threshold_witness :
  Mock.parseRouteData Samples.plainText [Samples.linkA] = None
  /\ exists r, Leaflet.parseRouteData Samples.plainText [Samples.linkA; Samples.linkB]
               = Some r
               /\ Route.steps r = []
               /\ Route.stops r = [JS.lit "A"; JS.lit "B"].
Proof.
  assert (H : RouteParser.parseSteps Samples.plainText = []) by reflexivity.
  destruct (route_acceptance_threshold Samples.plainText) as [_ Hcase].
  destruct (Hcase H) as [H1 H2].
  split; [apply (H1 Samples.linkA) | apply (H2 Samples.linkA Samples.linkB)].
Defined.

(** ** The conversation controller *)

Module TrimFacts.
Import JS.

Lemma dropWhile_nil (p : char -> bool) (s : jsstring) :
  dropWhile p s = [] <-> forallb p s = true.
Proof.
  induction s as [|c s IH]; simpl; [tauto|].
  destruct (p c); simpl; [exact IH|]. split; discriminate.
Qed.

Lemma dropWhile_head (p : char -> bool) (s : jsstring) c s' :
  dropWhile p s = c :: s' -> p c = false.
Proof.
  induction s as [|d s IH]; simpl; [discriminate|].
  destruct (p d) eqn:E; [exact IH|]. intros H. injection H as -> _. exact E.
Qed.

Lemma forallb_rev (p : char -> bool) (s : jsstring) :
  forallb p (rev s) = forallb p s.
Proof.
  induction s as [|c s IH]; simpl; [reflexivity|].
  rewrite forallb_app, IH. simpl. rewrite andb_true_r. apply andb_comm.
Qed.

(** [trim] leaves nothing exactly of the strings made of white space. *)
Lemma trim_nil (s : jsstring) : trim s = [] <-> forallb isSpace s = true.
Proof.
  unfold trim, trimEnd, trimStart. split.
  - intros H.
    assert (H1 : dropWhile isSpace (rev (dropWhile isSpace s)) = []).
    { destruct (dropWhile isSpace (rev (dropWhile isSpace s))) as [|c l];
        [reflexivity|].
      simpl in H. destruct (rev l); discriminate H. }
    apply dropWhile_nil in H1. rewrite forallb_rev in H1.
    destruct (dropWhile isSpace s) as [|c s'] eqn:E.
    + now apply dropWhile_nil.
    + apply dropWhile_head in E. simpl in H1. rewrite E in H1. discriminate.
  - intros H. apply dropWhile_nil in H. rewrite H. reflexivity.
Qed.

Lemma isBlank_spec (s : jsstring) :
  Common.isBlank s = true <-> forallb isSpace s = true.
Proof.
  rewrite <- trim_nil. unfold Common.isBlank.
  destruct (trim s); split; congruence.
Qed.

End TrimFacts.

Module ControllerFacts.
Import JS Common Runs.

Lemma lastRoute_snoc acc l msg :
  Message.route msg = None -> lastRoute acc (l ++ [msg]) = lastRoute acc l.
Proof.
  intros H. revert acc. induction l as [|x l IH]; intros acc; simpl.
  - now rewrite H.
  - apply IH.
Qed.

Lemma activeRoute_after_failure l :
  activeRoute (l ++ [failureMessage]) = activeRoute l.
Proof. apply lastRoute_snoc. reflexivity. Qed.

(** A relation kept by each call is kept by the whole loop. *)
Lemma forEach_keeps {S A B} (f : A -> Eff.M S B) (inv : S -> Prop) :
  (forall x s, inv s -> inv (fst (f x s))) ->
  forall xs s, inv s -> inv (fst (Eff.forEach f xs s)).
Proof.
  intros Hf xs. induction xs as [|x xs IH]; intros s Hs; simpl; [exact Hs|].
  unfold Eff.bind. specialize (Hf x s Hs).
  destruct (f x s) as [s1 [b|e]]; simpl in *; auto.
Qed.

Lemma mock_execute_frame fc s :
  mockChat (fst (Mock.executeFunctionCall fc s)) = mockChat s.
Proof.
  unfold Mock.executeFunctionCall, argsOf, Eff.bind, Eff.ret, Eff.when,
    Eff.modify, Eff.throw.
  destruct (nameIs fc "set_map_layer"), (nameIs fc "toggle_traffic"),
    (nameIs fc "update_map_view"), (FunctionCall.args fc) as [a|];
    try reflexivity;
    destruct (truthy (get a (lit "zoom"))), (truthy (get a (lit "focusX"))),
      (truthy (get a (lit "focusY"))); reflexivity.
Qed.

Lemma leaflet_execute_frame fc s :
  leafletChat (fst (Leaflet.executeFunctionCall fc s)) = leafletChat s.
Proof.
  unfold Leaflet.executeFunctionCall, argsOf, Eff.bind, Eff.ret, Eff.when,
    Eff.modify, Eff.throw.
  destruct (nameIs fc "set_map_layer"), (nameIs fc "toggle_traffic"),
    (nameIs fc "update_map_view"), (FunctionCall.args fc) as [a|];
    try reflexivity;
    destruct (truthy (get a (lit "zoom"))),
      (truthy (get a (lit "latitude")) && truthy (get a (lit "longitude")));
    reflexivity.
Qed.

Lemma mock_calls_frame fcs s :
  mockChat (fst (Eff.forEach Mock.executeFunctionCall fcs s)) = mockChat s.
Proof.
  apply (forEach_keeps Mock.executeFunctionCall (fun s' => mockChat s' = mockChat s));
    [|reflexivity].
  intros x s1 H. now rewrite mock_execute_frame.
Qed.

Lemma leaflet_calls_frame fcs s :
  leafletChat (fst (Eff.forEach Leaflet.executeFunctionCall fcs s)) = leafletChat s.
Proof.
  apply (forEach_keeps Leaflet.executeFunctionCall
           (fun s' => leafletChat s' = leafletChat s)); [|reflexivity].
  intros x s1 H. now rewrite leaflet_execute_frame.
Qed.

End ControllerFacts.

Module TurnFacts.
Import JS Common Runs ControllerFacts.

Lemma mock_applyResponse_ok synth r s s' :
  Mock.applyResponse synth r s = (s', inl tt) ->
  Mock.messages s' = Mock.messages s ++ [mockReply r]
  /\ Mock.activeMarkers s'
     = Mock.activeMarkers s
       ++ mapi (newMarker (Mock.parseRouteData (AskResult.text r) (AskResult.links r))
                  synth) 0 (AskResult.links r)
  /\ Mock.isChatOpen s' = Mock.isChatOpen s
  /\ Mock.isProcessing s' = Mock.isProcessing s
  /\ Mock.input s' = Mock.input s.
Proof.
  intros H. unfold Mock.applyResponse, Eff.bind in H.
  set (calls := match AskResult.functionCalls r with
                | Some fcs => Eff.forEach Mock.executeFunctionCall fcs
                | None => Eff.ret tt
                end) in H.
  assert (F : mockChat (fst (calls s)) = mockChat s).
  { unfold calls. destruct (AskResult.functionCalls r);
      [apply mock_calls_frame | reflexivity]. }
  destruct (calls s) as [s1 [u|e]]; [|discriminate H]. simpl in F.
  unfold mockChat in F. injection F as Fm Fi Fc _ _ _ Fp Fa.
  unfold mockReply.
  destruct (AskResult.links r) as [|l ls] eqn:El.
  - cbn in H. injection H as <-. cbn.
    rewrite Fm, Fi, Fc, Fp, Fa, app_nil_r. auto.
  - unfold newMarkers in H.
    destruct (forallb (fun l0 => isWellFormed (GroundingLink.title l0)) (l :: ls));
      cbn in H; [|discriminate H].
    injection H as <-. cbn.
    rewrite Fm, Fi, Fc, Fp, Fa. auto.
Qed.

Lemma leaflet_applyResponse_ok synth r s s' :
  Leaflet.applyResponse synth r s = (s', inl tt) ->
  Leaflet.messages s' = Leaflet.messages s ++ [leafletReply r]
  /\ Leaflet.activeMarkers s'
     = Leaflet.activeMarkers s
       ++ mapi (newMarker (Leaflet.parseRouteData (AskResult.text r) (AskResult.links r))
                  synth) 0 (AskResult.links r)
  /\ Leaflet.isChatOpen s'
     = (if includes Leaflet.directive (AskResult.text r) then false
        else Leaflet.isChatOpen s)
  /\ Leaflet.isProcessing s' = Leaflet.isProcessing s
  /\ Leaflet.input s' = Leaflet.input s.
Proof.
  intros H. unfold Leaflet.applyResponse, Eff.bind in H.
  set (s0 := fst (Eff.when (includes Leaflet.directive (AskResult.text r))
                    (Eff.modify (Leaflet.setIsChatOpen false)) s)).
  assert (E0 : Eff.when (includes Leaflet.directive (AskResult.text r))
                 (Eff.modify (Leaflet.setIsChatOpen false)) s = (s0, inl tt)).
  { unfold s0, Eff.when. destruct (includes _ _); reflexivity. }
  rewrite E0 in H.
  assert (C0 : Leaflet.messages s0 = Leaflet.messages s
               /\ Leaflet.activeMarkers s0 = Leaflet.activeMarkers s
               /\ Leaflet.isChatOpen s0
                  = (if includes Leaflet.directive (AskResult.text r) then false
                     else Leaflet.isChatOpen s)
               /\ Leaflet.isProcessing s0 = Leaflet.isProcessing s
               /\ Leaflet.input s0 = Leaflet.input s).
  { unfold s0, Eff.when. destruct (includes _ _); cbn; auto. }
  clearbody s0. clear E0. destruct C0 as (Cm & Ca & Cc & Cp & Ci).
  set (calls := match AskResult.functionCalls r with
                | Some fcs => Eff.forEach Leaflet.executeFunctionCall fcs
                | None => Eff.ret tt
                end) in H.
  assert (F : leafletChat (fst (calls s0)) = leafletChat s0).
  { unfold calls. destruct (AskResult.functionCalls r);
      [apply leaflet_calls_frame | reflexivity]. }
  destruct (calls s0) as [s1 [u|e]]; [|discriminate H]. simpl in F.
  unfold leafletChat in F. injection F as Fm Fi Fc _ _ _ Fp _ Fa.
  unfold leafletReply.
  destruct (AskResult.links r) as [|l ls] eqn:El.
  - cbn in H. injection H as <-. cbn.
    rewrite Fm, Fi, Fc, Fp, Fa, Cm, Ca, Cc, Cp, Ci, app_nil_r. auto.
  - unfold newMarkers in H.
    destruct (forallb (fun l0 => isWellFormed (GroundingLink.title l0)) (l :: ls));
      cbn in H; [|discriminate H].
    injection H as <-. cbn.
    rewrite Fm, Fi, Fc, Fp, Fa, Cm, Ca, Cc, Cp, Ci. auto.
Qed.

(** A settled turn whose [try] block ran to its end. *)
Lemma mock_settle_ok synth r s s' :
  Mock.applyResponse synth r s = (s', inl tt) ->
  Mock.handleSend_settle synth (Resolved r) s = Mock.setIsProcessing false s'.
Proof.
  intros H. unfold Mock.handleSend_settle, Eff.finally_, Eff.tryCatch.
  now rewrite H.
Qed.

Lemma leaflet_settle_ok synth r s s' :
  Leaflet.applyResponse synth r s = (s', inl tt) ->
  Leaflet.handleSend_settle synth (Resolved r) s = Leaflet.setIsProcessing false s'.
Proof.
  intros H. unfold Leaflet.handleSend_settle, Eff.finally_, Eff.tryCatch.
  now rewrite H.
Qed.

End TurnFacts.

(** C3, as the code has it. An invocation of [handleSend] is a no-op (the state is
    unchanged, no user message is appended and no model call is made) when
    the effective input is empty or made of white space only, or when the
    render the invoked handler belongs to has a turn in flight; any other
    invocation appends the user message, sets the flag and makes one model
    call. So of the invocations made before the first turn settles only the
    first reaches the model, as long as the later ones come from renders
    that have the flag set; the state an accepted invocation leaves is such
    a render. Both revisions. *)
Theorem submit_guard :
  (forall render textToSend s,
      forallb JS.isSpace (Common.finalInputOf textToSend (Mock.input render)) = true
      \/ Mock.isProcessing render = true ->
      Mock.handleSend_start render textToSend s = (s, None))
  /\ (forall render textToSend s,
      forallb JS.isSpace (Common.finalInputOf textToSend (Mock.input render)) = false ->
      Mock.isProcessing render = false ->
      let finalInput := Common.finalInputOf textToSend (Mock.input render) in
      Mock.handleSend_start render textToSend s
      = (Mock.setIsProcessing true
           (Mock.setIsChatOpen true
              (Mock.setInput []
                 (Mock.setMessages
                    (fun prev => prev ++ [Common.userMessage finalInput]) s))),
         Some (Request.mk finalInput (Mock.userLocation render)
                 (Common.historyOf (Mock.messages render)))))
  /\ (forall render first s s1 call,
      Mock.handleSend_start render first s = (s1, Some call) ->
      Mock.isProcessing s1 = true
      /\ Mock.messages s1 = Mock.messages s ++ [Common.userMessage (Request.prompt call)]
      /\ forall later,
           Forall (fun invocation => Mock.isProcessing (fst invocation) = true) later ->
           Runs.invokeAll Mock.handleSend_start ((render, first) :: later) s
           = (s1, [call]))
  /\ (forall render textToSend s,
      forallb JS.isSpace (Common.finalInputOf textToSend (Leaflet.input render)) = true
      \/ Leaflet.isProcessing render = true ->
      Leaflet.handleSend_start render textToSend s = (s, None))
  /\ (forall render textToSend s,
      forallb JS.isSpace (Common.finalInputOf textToSend (Leaflet.input render)) = false ->
      Leaflet.isProcessing render = false ->
      let finalInput := Common.finalInputOf textToSend (Leaflet.input render) in
      Leaflet.handleSend_start render textToSend s
      = (Leaflet.setIsProcessing true
           (Leaflet.setIsChatOpen true
              (Leaflet.setInput []
                 (Leaflet.setMessages
                    (fun prev => prev ++ [Common.userMessage finalInput]) s))),
         Some (Request.mk finalInput (Some (Leaflet.userLocation render))
                 (Common.historyOf (Leaflet.messages render)))))
  /\ (forall render first s s1 call,
      Leaflet.handleSend_start render first s = (s1, Some call) ->
      Leaflet.isProcessing s1 = true
      /\ Leaflet.messages s1
         = Leaflet.messages s ++ [Common.userMessage (Request.prompt call)]
      /\ forall later,
           Forall (fun invocation => Leaflet.isProcessing (fst invocation) = true)
             later ->
           Runs.invokeAll Leaflet.handleSend_start ((render, first) :: later) s
           = (s1, [call])).
Proof.
  assert (G1 : forall render textToSend s,
             forallb JS.isSpace (Common.finalInputOf textToSend (Mock.input render)) = true
             \/ Mock.isProcessing render = true ->
             Mock.handleSend_start render textToSend s = (s, None)).
  { intros render t s [H | H]; unfold Mock.handleSend_start.
    - apply TrimFacts.isBlank_spec in H. now rewrite H.
    - rewrite H, orb_true_r. reflexivity. }
  assert (G2 : forall render textToSend s,
             forallb JS.isSpace (Common.finalInputOf textToSend (Leaflet.input render)) = true
             \/ Leaflet.isProcessing render = true ->
             Leaflet.handleSend_start render textToSend s = (s, None)).
  { intros render t s [H | H]; unfold Leaflet.handleSend_start.
    - apply TrimFacts.isBlank_spec in H. now rewrite H.
    - rewrite H, orb_true_r. reflexivity. }
  split; [exact G1|]. split; [|split; [|split; [exact G2|split]]].
  - intros render t s Hb Hp finalInput. unfold Mock.handleSend_start.
    destruct (Common.isBlank (Common.finalInputOf t (Mock.input render))) eqn:E.
    + apply TrimFacts.isBlank_spec in E. unfold JS.char in *. congruence.
    + rewrite Hp. reflexivity.
  - intros render first s s1 call H.
    assert (P : Mock.isProcessing s1 = true
                /\ Mock.messages s1
                   = Mock.messages s ++ [Common.userMessage (Request.prompt call)]).
    { unfold Mock.handleSend_start in H.
      destruct (Common.isBlank _ || Mock.isProcessing render); [discriminate H|].
      injection H as <- <-. split; reflexivity. }
    destruct P as [P M]. split; [exact P|]. split; [exact M|].
    intros later Hl. cbn [Runs.invokeAll]. rewrite H.
    assert (L : Runs.invokeAll Mock.handleSend_start later s1 = (s1, [])).
    { induction Hl as [|[r e] later Hr _ IH]; [reflexivity|].
      cbn [Runs.invokeAll]. rewrite (G1 r e s1 (or_intror Hr)), IH. reflexivity. }
    now rewrite L.
  - intros render t s Hb Hp finalInput. unfold Leaflet.handleSend_start.
    destruct (Common.isBlank (Common.finalInputOf t (Leaflet.input render))) eqn:E.
    + apply TrimFacts.isBlank_spec in E. unfold JS.char in *. congruence.
    + rewrite Hp. reflexivity.
  - intros render first s s1 call H.
    assert (P : Leaflet.isProcessing s1 = true
                /\ Leaflet.messages s1
                   = Leaflet.messages s ++ [Common.userMessage (Request.prompt call)]).
    { unfold Leaflet.handleSend_start in H.
      destruct (Common.isBlank _ || Leaflet.isProcessing render); [discriminate H|].
      injection H as <- <-. split; reflexivity. }
    destruct P as [P M]. split; [exact P|]. split; [exact M|].
    intros later Hl. cbn [Runs.invokeAll]. rewrite H.
    assert (L : Runs.invokeAll Leaflet.handleSend_start later s1 = (s1, [])).
    { induction Hl as [|[r e] later Hr _ IH]; [reflexivity|].
      cbn [Runs.invokeAll]. rewrite (G2 r e s1 (or_intror Hr)), IH. reflexivity. }
    now rewrite L.
Qed.

Lemma submit_guard_witness :
  Mock.handleSend_start Mock.initial (Some (JS.lit "   ")) Mock.initial
    = (Mock.initial, None)
  /\ length (snd (Runs.invokeAll Mock.handleSend_start
                    [(Mock.initial, Some (JS.lit "coffee near me"));
                     (Samples.mockWaiting, Some (JS.lit "coffee near me"))]
                    Mock.initial)) = 1
  /\ length (snd (Runs.invokeAll Leaflet.handleSend_start
                    [(Leaflet.initial, Some (JS.lit "coffee near me"));
                     (Samples.leafletWaiting, Some (JS.lit "coffee near me"))]
                    Leaflet.initial)) = 1.
Proof.
  destruct submit_guard as (G1 & _ & G3 & _ & _ & G6). split; [|split].
  - apply (G1 Mock.initial (Some (JS.lit "   "))). left. reflexivity.
  - destruct (G3 Mock.initial (Some (JS.lit "coffee near me")) Mock.initial _ _
                eq_refl) as (_ & _ & H).
    rewrite (H [(Samples.mockWaiting, Some (JS.lit "coffee near me"))]).
    + reflexivity.
    + constructor; [reflexivity | constructor].
  - destruct (G6 Leaflet.initial (Some (JS.lit "coffee near me")) Leaflet.initial
                _ _ eq_refl) as (_ & _ & H).
    rewrite (H [(Samples.leafletWaiting, Some (JS.lit "coffee near me"))]).
    + reflexivity.
    + constructor; [reflexivity | constructor].
Defined.

(** C3 as stated fails, in both revisions: a handler invoked twice from one
    render, the second time while the turn of the first is in flight, is
    accepted both times. Two user messages are appended and two model calls
    made. *)
Lemma submit_guard_counterexample :
  let text := Some (JS.lit "coffee near me") in
  (let s1 := fst (Mock.handleSend_start Mock.initial text Mock.initial) in
   Mock.isProcessing s1 = true
   /\ Mock.handleSend_start Mock.initial text s1 <> (s1, None)
   /\ length (Mock.messages (fst (Mock.handleSend_start Mock.initial text s1))) = 2
   /\ length (snd (Runs.invokeAll Mock.handleSend_start
                     [(Mock.initial, text); (Mock.initial, text)] Mock.initial)) = 2)
  /\ (let s1 := fst (Leaflet.handleSend_start Leaflet.initial text Leaflet.initial) in
      Leaflet.isProcessing s1 = true
      /\ Leaflet.handleSend_start Leaflet.initial text s1 <> (s1, None)
      /\ length (Leaflet.messages
                   (fst (Leaflet.handleSend_start Leaflet.initial text s1))) = 2
      /\ length (snd (Runs.invokeAll Leaflet.handleSend_start
                        [(Leaflet.initial, text); (Leaflet.initial, text)]
                        Leaflet.initial)) = 2).
Proof.
  split; (split; [reflexivity|]; split; [|split; reflexivity]);
    intros H; apply (f_equal snd) in H; discriminate H.
Qed.

(** C2. When the model call rejects, the turn settles by appending exactly
    one assistant message with the fixed failure text; the markers, the map
    view and the active route are what they were, every other field but the
    processing flag is untouched, and the processing flag is false. Both
    revisions, from any state. *)
Theorem failed_turn_is_atomic (synth : nat -> Synthetic.t) :
  GeminiService.askMaps None = Rejected
  /\ Message.role Common.failureMessage = assistant
  /\ Message.content Common.failureMessage
     = JS.lit "Something went wrong. Let's try again."
  /\ (forall s : Mock.State,
      let s' := Mock.handleSend_settle synth Rejected s in
      Mock.messages s' = Mock.messages s ++ [Common.failureMessage]
      /\ Mock.activeMarkers s' = Mock.activeMarkers s
      /\ Mock.mapView s' = Mock.mapView s
      /\ Common.activeRoute (Mock.messages s') = Common.activeRoute (Mock.messages s)
      /\ Mock.isProcessing s' = false
      /\ s' = Mock.setIsProcessing false
                (Mock.setMessages (fun prev => prev ++ [Common.failureMessage]) s))
  /\ (forall s : Leaflet.State,
      let s' := Leaflet.handleSend_settle synth Rejected s in
      Leaflet.messages s' = Leaflet.messages s ++ [Common.failureMessage]
      /\ Leaflet.activeMarkers s' = Leaflet.activeMarkers s
      /\ Leaflet.mapView s' = Leaflet.mapView s
      /\ Common.activeRoute (Leaflet.messages s')
         = Common.activeRoute (Leaflet.messages s)
      /\ Leaflet.isProcessing s' = false
      /\ s' = Leaflet.setIsProcessing false
                (Leaflet.setMessages (fun prev => prev ++ [Common.failureMessage]) s))
  /\ (forall render textToSend s s1 call,
      Mock.handleSend_start render textToSend s = (s1, Some call) ->
      let s' := Mock.handleSend_settle synth Rejected s1 in
      Mock.messages s'
      = Mock.messages s
        ++ [Common.userMessage (Request.prompt call); Common.failureMessage]
      /\ Mock.activeMarkers s' = Mock.activeMarkers s
      /\ Mock.mapView s' = Mock.mapView s
      /\ Mock.isProcessing s' = false)
  /\ (forall render textToSend s s1 call,
      Leaflet.handleSend_start render textToSend s = (s1, Some call) ->
      let s' := Leaflet.handleSend_settle synth Rejected s1 in
      Leaflet.messages s'
      = Leaflet.messages s
        ++ [Common.userMessage (Request.prompt call); Common.failureMessage]
      /\ Leaflet.activeMarkers s' = Leaflet.activeMarkers s
      /\ Leaflet.mapView s' = Leaflet.mapView s
      /\ Leaflet.isProcessing s' = false).
Proof.
  split; [reflexivity|]. split; [reflexivity|]. split; [reflexivity|].
  split; [|split; [|split]].
  - intros s. repeat split; try reflexivity. cbn.
    apply ControllerFacts.activeRoute_after_failure.
  - intros s. repeat split; try reflexivity. cbn.
    apply ControllerFacts.activeRoute_after_failure.
  - intros render t s s1 call H.
    unfold Mock.handleSend_start in H.
    destruct (Common.isBlank _ || Mock.isProcessing render); [discriminate H|].
    injection H as <- <-. cbn. rewrite <- app_assoc. repeat split; reflexivity.
  - intros render t s s1 call H.
    unfold Leaflet.handleSend_start in H.
    destruct (Common.isBlank _ || Leaflet.isProcessing render); [discriminate H|].
    injection H as <- <-. cbn. rewrite <- app_assoc. repeat split; reflexivity.
Qed.

Lemma failed_turn_is_atomic_witness :
  let s1 := fst (Leaflet.handleSend_start Leaflet.initial
                   (Some (JS.lit "coffee near me")) Leaflet.initial) in
  let s' := Leaflet.handleSend_settle Samples.synth Rejected s1 in
  Leaflet.messages s'
  = [Common.userMessage (JS.lit "coffee near me"); Common.failureMessage]
  /\ Leaflet.activeMarkers s' = []
  /\ Leaflet.mapView s' = Leaflet.mapView Leaflet.initial
  /\ Leaflet.isProcessing s' = false.
Proof.
  destruct (failed_turn_is_atomic Samples.synth) as (_ & _ & _ & _ & _ & _ & H).
  exact (H Leaflet.initial (Some (JS.lit "coffee near me")) Leaflet.initial _ _
           eq_refl).
Defined.

(** ** Stop numbers *)

Module StopFacts.
Import JS Common Runs JSFacts.

Lemma indexOf_range x l : (-1 <= Array_indexOf x l)%Z.
Proof.
  induction l as [|y l IH]; simpl; [lia|].
  destruct (str_eqb y x); [lia|].
  destruct (Z.eqb_spec (Array_indexOf x l) (-1)); lia.
Qed.

Lemma indexOf_absent x l : ~ In x l -> Array_indexOf x l = (-1)%Z.
Proof.
  induction l as [|y l IH]; simpl; [reflexivity|].
  intros H. destruct (str_eqb y x) eqn:E.
  - apply str_eqb_eq in E. tauto.
  - rewrite IH by tauto. reflexivity.
Qed.

Lemma indexOf_first x l i :
  isFirstOccurrence x l i -> Array_indexOf x l = Z.of_nat i.
Proof.
  revert i. induction l as [|y l IH]; intros i [Hi Hlt].
  - destruct i; discriminate Hi.
  - simpl. destruct i as [|i].
    + simpl in Hi. injection Hi as ->. now rewrite str_eqb_refl.
    + destruct (str_eqb y x) eqn:E.
      * apply str_eqb_eq in E. subst y.
        exfalso. apply (Hlt 0); [lia | reflexivity].
      * assert (F : isFirstOccurrence x l i).
        { split; [exact Hi|]. intros j Hj. apply (Hlt (S j)). lia. }
        rewrite (IH i F).
        destruct (Z.eqb_spec (Z.of_nat i) (-1)); lia.
Qed.

Lemma first_occurrence_exists x l :
  In x l -> exists i, isFirstOccurrence x l i.
Proof.
  induction l as [|y l IH]; intros H; [destruct H|].
  destruct (str_eqb y x) eqn:E.
  - apply str_eqb_eq in E. subst y. exists 0. split; [reflexivity|]. lia.
  - apply str_eqb_neq in E. destruct H as [H | H]; [congruence|].
    destruct (IH H) as [i [Hi Hlt]]. exists (S i). split; [exact Hi|].
    intros [|j] Hj; simpl; [congruence | apply Hlt; lia].
Qed.

Lemma stopNumber_first route x i :
  isFirstOccurrence x (Route.stops route) i ->
  stopNumberOf (Some route) x = Some (1 + Z.of_nat i)%Z.
Proof.
  intros H. unfold stopNumberOf. cbn [option_map].
  rewrite (indexOf_first _ _ _ H).
  destruct (Z.eqb_spec (Z.of_nat i) (-1)) as [E|E]; [lia|].
  cbn [negb]. f_equal. lia.
Qed.

Lemma stopNumber_absent route x :
  ~ In x (Route.stops route) -> stopNumberOf (Some route) x = None.
Proof.
  intros H. unfold stopNumberOf. simpl. now rewrite (indexOf_absent _ _ H).
Qed.

Lemma mapi_length {A B} (f : nat -> A -> B) l : forall i, length (mapi f i l) = length l.
Proof. induction l as [|x l IH]; intros i; simpl; [reflexivity | now rewrite IH]. Qed.

Lemma mapi_nth {A B} (f : nat -> A -> B) l :
  forall i k, nth_error (mapi f i l) k = option_map (f (i + k)) (nth_error l k).
Proof.
  induction l as [|x l IH]; intros i [|k]; simpl; try reflexivity.
  - now rewrite Nat.add_0_r.
  - rewrite IH. now rewrite Nat.add_succ_r.
Qed.

Lemma newMarkers_markersFor routeData synth links :
  markersFor routeData links (mapi (newMarker routeData synth) 0 links).
Proof.
  split; [apply mapi_length|].
  intros k link H. rewrite mapi_nth, H. simpl.
  eexists. split; [reflexivity|]. split; reflexivity.
Qed.

End StopFacts.

(** C6. A marker's stop number is 1 plus the index of the first occurrence
    of its link's title among the route's stops, and it is unset when the
    title does not occur or when there is no route. Each successful turn
    appends one such marker for each link, in link order, numbered against
    the route parsed in that turn, whose stops hold every link's title. With
    stops A, B, C the marker titled B gets stop number 2. Both revisions. *)
Theorem stop_number_is_first_match :
  (forall route title,
      (forall i, Runs.isFirstOccurrence title (Route.stops route) i ->
                 Common.stopNumberOf (Some route) title = Some (1 + Z.of_nat i)%Z)
      /\ (~ In title (Route.stops route) ->
          Common.stopNumberOf (Some route) title = None))
  /\ (forall title, Common.stopNumberOf None title = None)
  /\ (forall synth r s s',
      Mock.applyResponse synth r s = (s', inl tt) ->
      let routeData := Mock.parseRouteData (AskResult.text r) (AskResult.links r) in
      (exists ms, Mock.activeMarkers s' = Mock.activeMarkers s ++ ms
                  /\ Runs.markersFor routeData (AskResult.links r) ms)
      /\ forall route link,
          routeData = Some route -> In link (AskResult.links r) ->
          exists i, Runs.isFirstOccurrence (GroundingLink.title link)
                      (Route.stops route) i)
  /\ (forall synth r s s',
      Leaflet.applyResponse synth r s = (s', inl tt) ->
      let routeData := Leaflet.parseRouteData (AskResult.text r) (AskResult.links r) in
      (exists ms, Leaflet.activeMarkers s' = Leaflet.activeMarkers s ++ ms
                  /\ Runs.markersFor routeData (AskResult.links r) ms)
      /\ forall route link,
          routeData = Some route -> In link (AskResult.links r) ->
          exists i, Runs.isFirstOccurrence (GroundingLink.title link)
                      (Route.stops route) i)
  /\ Common.stopNumberOf (Some Samples.routeABC) (JS.lit "B") = Some 2%Z.
Proof.
  split; [|split; [|split; [|split]]].
  - intros route title. split.
    + apply StopFacts.stopNumber_first.
    + apply StopFacts.stopNumber_absent.
  - reflexivity.
  - intros synth r s s' H routeData. split.
    + destruct (TurnFacts.mock_applyResponse_ok synth r s s' H) as (_ & Ha & _).
      eexists. split; [exact Ha|]. apply StopFacts.newMarkers_markersFor.
    + intros route link Hr Hin. apply StopFacts.first_occurrence_exists.
      unfold routeData, Mock.parseRouteData in Hr.
      destruct (_ || _); [|discriminate Hr]. injection Hr as <-. simpl.
      now apply in_map.
  - intros synth r s s' H routeData. split.
    + destruct (TurnFacts.leaflet_applyResponse_ok synth r s s' H) as (_ & Ha & _).
      eexists. split; [exact Ha|]. apply StopFacts.newMarkers_markersFor.
    + intros route link Hr Hin. apply StopFacts.first_occurrence_exists.
      unfold routeData, Leaflet.parseRouteData in Hr.
      destruct (_ || _); [|discriminate Hr]. injection Hr as <-. simpl.
      now apply in_map.
  - reflexivity.
Qed.

Lemma stop_number_is_first_match_witness :
  Common.stopNumberOf (Some Samples.routeABC) (JS.lit "B") = Some (1 + Z.of_nat 1)%Z
  /\ Common.stopNumberOf (Some Samples.routeABC) (JS.lit "D") = None.
Proof.
  destruct stop_number_is_first_match as (H & _).
  destruct (H Samples.routeABC (JS.lit "B")) as [Hfirst _].
  destruct (H Samples.routeABC (JS.lit "D")) as [_ Habsent].
  split.
  - apply Hfirst. split; [reflexivity|].
    intros [|j] Hj; [discriminate | lia].
  - apply Habsent. simpl. intros [E | [E | [E | []]]]; discriminate E.
Defined.

(** ** The display directive and the reply text *)

Module DirectiveFacts.
Import JS.

Lemma startsWith_app p rest : startsWith p (p ++ rest) = true.
Proof.
  induction p as [|c p IH]; simpl; [reflexivity|].
  now rewrite N.eqb_refl, IH.
Qed.

Lemma indexOfStr_prefix p s : startsWith p s = true -> indexOfStr p s = Some 0.
Proof. intros H. destruct s; simpl; now rewrite H. Qed.

Lemma skipn_prefix (p rest : jsstring) : skipn (length p) (p ++ rest) = rest.
Proof. induction p as [|c p IH]; simpl; [reflexivity | exact IH]. Qed.

Lemma includes_prefix p rest : includes p (p ++ rest) = true.
Proof.
  unfold includes. now rewrite (indexOfStr_prefix _ _ (startsWith_app p rest)).
Qed.

Lemma removeFirst_prefix p rest : removeFirst p (p ++ rest) = rest.
Proof.
  unfold removeFirst. rewrite (indexOfStr_prefix _ _ (startsWith_app p rest)).
  simpl. apply skipn_prefix.
Qed.

Lemma orString_nonempty a b : b <> [] -> orString a b <> [].
Proof.
  intros Hb. unfold orString. destruct a as [[|c s]|]; try exact Hb. discriminate.
Qed.

End DirectiveFacts.

(** C7, as the code has it. In the Leaflet revision a successful turn
    stores the reply text with the first occurrence of the directive removed
    and the remainder trimmed, and sets the chat-visibility flag to false,
    whenever the text contains the directive; when the text starts with the
    directive the stored content is the trimmed remainder; a text without
    the directive is stored as it is and the flag is left alone. The
    schematic-map revision has no directive: it stores every text as it is
    and leaves the flag alone. *)
Theorem display_directive :
  (forall synth r s s',
      Leaflet.applyResponse synth r s = (s', inl tt) ->
      let final := Leaflet.handleSend_settle synth (Resolved r) s in
      let text := AskResult.text r in
      Leaflet.messages final = Leaflet.messages s ++ [Runs.leafletReply r]
      /\ (JS.includes Leaflet.directive text = true ->
          Message.content (Runs.leafletReply r)
          = JS.trim (JS.removeFirst Leaflet.directive text)
          /\ Leaflet.isChatOpen final = false)
      /\ (forall rest,
             text = Leaflet.directive ++ rest ->
             Message.content (Runs.leafletReply r) = JS.trim rest
             /\ Leaflet.isChatOpen final = false)
      /\ (JS.includes Leaflet.directive text = false ->
          Message.content (Runs.leafletReply r) = text
          /\ Leaflet.isChatOpen final = Leaflet.isChatOpen s))
  /\ (forall synth r s s',
      Mock.applyResponse synth r s = (s', inl tt) ->
      let final := Mock.handleSend_settle synth (Resolved r) s in
      Mock.messages final = Mock.messages s ++ [Runs.mockReply r]
      /\ Message.content (Runs.mockReply r) = AskResult.text r
      /\ Mock.isChatOpen final = Mock.isChatOpen s).
Proof.
  split.
  - intros synth r s s' H final text.
    destruct (TurnFacts.leaflet_applyResponse_ok synth r s s' H)
      as (Hm & _ & Hc & _).
    assert (Ef : final = Leaflet.setIsProcessing false s')
      by apply (TurnFacts.leaflet_settle_ok synth r s s' H).
    assert (Hm' : Leaflet.messages final = Leaflet.messages s ++ [Runs.leafletReply r])
      by (rewrite Ef; exact Hm).
    assert (Hc' : Leaflet.isChatOpen final
                  = if JS.includes Leaflet.directive text then false
                    else Leaflet.isChatOpen s)
      by (rewrite Ef; exact Hc).
    split; [exact Hm'|]. unfold Runs.leafletReply, Leaflet.displayTextOf.
    fold text. cbn [Message.content]. split; [|split].
    + intros Hi. rewrite Hi in *. auto.
    + intros rest Hr. rewrite Hc'. rewrite Hr.
      rewrite DirectiveFacts.includes_prefix, DirectiveFacts.removeFirst_prefix.
      auto.
    + intros Hi. rewrite Hi in *. auto.
  - intros synth r s s' H final.
    destruct (TurnFacts.mock_applyResponse_ok synth r s s' H)
      as (Hm & _ & Hc & _).
    assert (Ef : final = Mock.setIsProcessing false s')
      by apply (TurnFacts.mock_settle_ok synth r s s' H).
    rewrite Ef. repeat split; assumption.
Qed.

Lemma display_directive_witness :
  let final := Leaflet.handleSend_settle Samples.synth
                 (Resolved Samples.showMapReply) Samples.leafletWaiting in
  Leaflet.messages final
  = Leaflet.messages Samples.leafletWaiting
    ++ [Message.mk assistant (JS.lit "Here is the map view.") (Some []) None]
  /\ Leaflet.isChatOpen final = false.
Proof.
  destruct display_directive as [H _].
  destruct (H Samples.synth Samples.showMapReply Samples.leafletWaiting _ eq_refl)
    as (Hm & _ & Hp & _).
  split; [exact Hm|].
  exact (proj2 (Hp (JS.lit " Here is the map view.") eq_refl)).
Defined.

(** C7 as stated fails. In the schematic-map revision a reply that starts
    with the directive is stored with the directive in it and the chat
    flag is not changed; in the Leaflet revision a second occurrence of the
    directive stays in the stored text, and a chat panel that was closed
    while the turn was in flight stays closed (the flag is set, not
    toggled). *)
Lemma display_directive_counterexample :
  (let final := Mock.handleSend_settle Samples.synth
                  (Resolved Samples.showMapReply) Samples.mockWaiting in
   Mock.messages final
   = Mock.messages Samples.mockWaiting
     ++ [Message.mk assistant
           (JS.lit "[ACTION: SHOW_MAP] Here is the map view.") (Some []) None]
   /\ Mock.isChatOpen Samples.mockWaiting = true
   /\ Mock.isChatOpen final = true)
  /\ (let final := Leaflet.handleSend_settle Samples.synth
                     (Resolved Samples.doubleDirectiveReply) Samples.leafletWaiting in
      Leaflet.messages final
      = Leaflet.messages Samples.leafletWaiting
        ++ [Message.mk assistant (JS.lit "[ACTION: SHOW_MAP]") (Some []) None])
  /\ (let final := Leaflet.handleSend_settle Samples.synth
                     (Resolved Samples.showMapReply) Samples.leafletWaitingClosed in
      Leaflet.isChatOpen Samples.leafletWaitingClosed = false
      /\ Leaflet.isChatOpen final = false).
Proof. repeat split; vm_compute; reflexivity. Qed.

(** C10, as the code has it. [askMaps] returns the text of the response,
    or the fixed placeholder when that text is empty or absent, so the text
    it returns is never empty. The content a successful turn stores is
    that text in the schematic-map revision, hence never empty; in the
    Leaflet revision it is empty exactly when the text contains the display
    directive and nothing but white space is left once the first occurrence
    is removed. *)
Theorem placeholder_text (response : GeminiService.Response.t) :
  exists r,
    GeminiService.askMaps (Some response) = Resolved r
    /\ AskResult.text r <> []
    /\ (GeminiService.Response.text response = None
        \/ GeminiService.Response.text response = Some [] ->
        AskResult.text r = JS.lit "Searching the map for you...")
    /\ (forall t, GeminiService.Response.text response = Some t -> t <> [] ->
                  AskResult.text r = t)
    /\ (forall synth s s',
           Mock.applyResponse synth r s = (s', inl tt) ->
           Mock.messages (Mock.handleSend_settle synth (Resolved r) s)
           = Mock.messages s ++ [Runs.mockReply r]
           /\ Message.content (Runs.mockReply r) <> [])
    /\ (forall synth s s',
           Leaflet.applyResponse synth r s = (s', inl tt) ->
           Leaflet.messages (Leaflet.handleSend_settle synth (Resolved r) s)
           = Leaflet.messages s ++ [Runs.leafletReply r]
           /\ (Message.content (Runs.leafletReply r) = []
               <-> JS.includes Leaflet.directive (AskResult.text r) = true
                   /\ forallb JS.isSpace
                        (JS.removeFirst Leaflet.directive (AskResult.text r))
                      = true)).
Proof.
  eexists. split; [reflexivity|]. cbn [AskResult.text].
  assert (Hne : JS.orString (GeminiService.Response.text response)
                  GeminiService.placeholder <> []).
  { apply DirectiveFacts.orString_nonempty. discriminate. }
  split; [exact Hne|]. split; [|split; [|split]].
  - intros [E | E]; rewrite E; reflexivity.
  - intros t E Ht. rewrite E. destruct t; [congruence | reflexivity].
  - intros synth s s' H.
    destruct (TurnFacts.mock_applyResponse_ok _ _ _ _ H) as (Hm & _).
    rewrite (TurnFacts.mock_settle_ok _ _ _ _ H). split; [exact Hm | exact Hne].
  - intros synth s s' H.
    destruct (TurnFacts.leaflet_applyResponse_ok _ _ _ _ H) as (Hm & _).
    rewrite (TurnFacts.leaflet_settle_ok _ _ _ _ H). split; [exact Hm|].
    unfold Runs.leafletReply, Leaflet.displayTextOf. cbn [Message.content AskResult.text].
    destruct (JS.includes Leaflet.directive _) eqn:Hi.
    + rewrite TrimFacts.trim_nil. tauto.
    + split; [intros E; contradiction | intros [E _]; discriminate E].
Qed.

Lemma placeholder_text_witness :
  exists r,
    GeminiService.askMaps
      (Some (GeminiService.Response.mk (Some []) None None)) = Resolved r
    /\ AskResult.text r = JS.lit "Searching the map for you...".
Proof.
  destruct (placeholder_text (GeminiService.Response.mk (Some []) None None))
    as (r & Hr & _ & Hp & _).
  exists r. split; [exact Hr|]. apply Hp. right. reflexivity.
Defined.

(** C10 as stated fails in the Leaflet revision: a response whose text is
    the bare directive is a successful turn whose assistant message has the
    empty string as content. *)
Lemma placeholder_text_counterexample :
  exists r,
    GeminiService.askMaps (Some Samples.bareDirective) = Resolved r
    /\ AskResult.text r <> []
    /\ Leaflet.applyResponse Samples.synth r Samples.leafletWaiting
       = (Leaflet.setMessages
            (fun prev => prev ++ [Message.mk assistant [] (Some []) None])
            (Leaflet.setIsChatOpen false Samples.leafletWaiting),
          inl tt)
    /\ Leaflet.messages
         (Leaflet.handleSend_settle Samples.synth (Resolved r) Samples.leafletWaiting)
       = [Common.userMessage (JS.lit "show map");
          Message.mk assistant [] (Some []) None].
Proof.
  eexists. split; [reflexivity|]. split; [discriminate|].
  split; vm_compute; reflexivity.
Qed.

(** ** The voice session *)

(** The order of the Numbers, from the comparison of their
    specification. *)
Module FloatOrder.
Local Open Scope float_scope.














End FloatOrder.

Module VoiceFacts.
Import JS Common Voice.
Local Open Scope float_scope.


Lemma stop_fields now n :
  startAt (stop now n) = startAt n
  /\ startCalledAt (stop now n) = startCalledAt n
  /\ frames (stop now n) = frames n.
Proof. unfold stop. destruct (stoppedAt n); auto. Qed.





Section Handler.

Variable App : Type.
Variable exec : FunctionCall.t -> Eff.M App jsstring.

Let Session := Voice.Session App.



(** How the playback side looks after a chunk that decodes. *)
Lemma playChunk_ok c bytes (s : Session) :
  decodable bytes ->
  playChunk App c (Pcm bytes) s
  = (mkSession App (app App s)
       (Math_max (nextStartTime App s) (atRead c)
        + durationOf (Z.of_nat (length bytes / 2)))
       (sources App s ++ [length (graph App s)])
       (graph App s
          ++ [mkNode (Math_max (nextStartTime App s) (atRead c)) (atStart c)
                (Z.of_nat (length bytes / 2)) None])
       (outbox App s),
     inl tt).
Proof.
  intros [Hodd Hlen]. unfold playChunk, Eff.bind, Eff.modify, decodeAudioData.
  rewrite Hodd. destruct (Nat.eqb_spec (length bytes) 0); [contradiction|].
  reflexivity.
Qed.

Lemma onAudio_ok c msg (s : Session) :
  audioOk (audio msg) ->
  exists s1, onAudio App c msg s = (s1, inl tt)
    /\ app App s1 = app App s /\ outbox App s1 = outbox App s
    /\ (audio msg = NoAudio -> s1 = s)
    /\ (forall bytes, audio msg = Pcm bytes ->
          playback App s1
          = (Math_max (nextStartTime App s) (atRead c)
             + durationOf (Z.of_nat (length bytes / 2)),
             sources App s ++ [length (graph App s)],
             graph App s
               ++ [mkNode (Math_max (nextStartTime App s) (atRead c)) (atStart c)
                     (Z.of_nat (length bytes / 2)) None])).
Proof.
  intros [E | (bytes & E & Hd)]; unfold onAudio; rewrite E.
  - exists s. repeat split; auto. intros bytes H. discriminate H.
  - rewrite (playChunk_ok c bytes s Hd). eexists. split; [reflexivity|].
    repeat split; auto.
    + intros H. discriminate H.
    + intros b H. injection H as <-. reflexivity.
Qed.










End Handler.
End VoiceFacts.




(** ** The matcher *)

Module RegExpFacts.
Import JS RegExp Phrase.

Lemma after_snoc pv w c : after pv (w ++ [c]) = Some c.
Proof. unfold after. now rewrite fold_left_app. Qed.

Lemma after_cons pv c w : after pv (c :: w) = after (Some c) w.
Proof. reflexivity. Qed.

Lemma after_app pv w1 w2 : after pv (w1 ++ w2) = after (after pv w1) w2.
Proof. unfold after. now rewrite fold_left_app. Qed.

Lemma orElse_some {A} (a b : option A) z :
  orElse a b = Some z -> a = Some z \/ (a = None /\ b = Some z).
Proof. destruct a; simpl; intros H; [left | right]; auto. Qed.

Lemma orElse_left {A} (a b : option A) : a <> None -> orElse a b <> None.
Proof. destruct a; simpl; congruence. Qed.

Lemma orElse_right {A} (a b : option A) : b <> None -> orElse a b <> None.
Proof. destruct a; simpl; congruence. Qed.

(** *** Repetition of a class

    Every result of the loop comes from a run of class members followed by
    the continuation; the lazy loop takes the shortest run that lets the
    continuation succeed, the greedy loop the longest. *)

(** Whatever the order, the loop finds a result when some run does. *)
Lemma star_complete ok g k cs : forall w s' pv,
  forallb ok w = true ->
  k {| prev := after pv w; rest := s'; caps := cs |} <> None ->
  star ok g k cs pv (w ++ s') <> None.
Proof.
  induction w as [|a w IH]; intros s' pv Hw Hk.
  - simpl in *. destruct s' as [|b s']; simpl; [exact Hk|].
    destruct (ok b); [|exact Hk].
    destruct g; [now apply orElse_right | now apply orElse_left].
  - simpl in Hw. apply andb_true_iff in Hw as [Ha Hw].
    simpl. rewrite Ha. specialize (IH s' (Some a) Hw Hk).
    destruct g; [now apply orElse_left | now apply orElse_right].
Qed.

Lemma star_none ok g k cs w s' pv :
  star ok g k cs pv (w ++ s') = None -> forallb ok w = true ->
  k {| prev := after pv w; rest := s'; caps := cs |} = None.
Proof.
  intros Hn Hw.
  destruct (k {| prev := after pv w; rest := s'; caps := cs |}) eqn:E;
    [|reflexivity].
  exfalso. apply (star_complete ok g k cs w s' pv Hw); [congruence | exact Hn].
Qed.

Lemma star_lazy ok k cs : forall s pv z,
  star ok false k cs pv s = Some z ->
  exists w s',
    s = w ++ s' /\ forallb ok w = true
    /\ k {| prev := after pv w; rest := s'; caps := cs |} = Some z
    /\ forall w1 c w2, w = w1 ++ c :: w2 ->
         k {| prev := after pv w1; rest := c :: w2 ++ s'; caps := cs |} = None.
Proof.
  induction s as [|a s IH]; intros pv z H; simpl in H.
  - exists [], []. repeat split; auto. intros [|] ? ? E; discriminate E.
  - destruct (ok a) eqn:Ea.
    + apply orElse_some in H as [H | [Hnone H]].
      * exists [], (a :: s). repeat split; auto. intros [|] ? ? E; discriminate E.
      * destruct (IH (Some a) z H) as (w & s' & -> & Hw & Hk & Hmin).
        exists (a :: w), s'. split; [reflexivity|]. split; [simpl; now rewrite Ea|].
        split; [exact Hk|].
        intros [|b w1] c w2 E; injection E as -> E'.
        -- subst w. exact Hnone.
        -- now apply (Hmin w1 c w2).
    + exists [], (a :: s). repeat split; auto. intros [|] ? ? E; discriminate E.
Qed.

Lemma star_greedy ok k cs : forall s pv z,
  star ok true k cs pv s = Some z ->
  exists w s',
    s = w ++ s' /\ forallb ok w = true
    /\ k {| prev := after pv w; rest := s'; caps := cs |} = Some z
    /\ forall w' s'', s = w' ++ s'' -> forallb ok w' = true ->
         length w < length w' ->
         k {| prev := after pv w'; rest := s''; caps := cs |} = None.
Proof.
  induction s as [|a s IH]; intros pv z H; simpl in H.
  - exists [], []. repeat split; auto.
    intros [|] ? E _ Hl; [simpl in Hl; lia | discriminate E].
  - destruct (ok a) eqn:Ea.
    + apply orElse_some in H as [H | [Hnone H]].
      * destruct (IH (Some a) z H) as (w & s' & -> & Hw & Hk & Hmax).
        exists (a :: w), s'. split; [reflexivity|]. split; [simpl; now rewrite Ea|].
        split; [exact Hk|].
        intros [|b w'] s'' E Hw' Hl; [simpl in Hl; lia|].
        injection E as <- E. simpl in Hw'. apply andb_true_iff in Hw' as [_ Hw'].
        apply (Hmax w' s'' E Hw'). simpl in Hl. lia.
      * exists [], (a :: s). repeat split; auto.
        intros [|b w'] s'' E Hw' Hl; [simpl in Hl; lia|].
        injection E as <- E. simpl in Hw'. apply andb_true_iff in Hw' as [_ Hw'].
        subst s. exact (star_none ok true k cs w' s'' (Some a) Hnone Hw').
    + exists [], (a :: s). repeat split; auto.
      intros [|b w'] s'' E Hw' Hl; [simpl in Hl; lia|].
      injection E as <- E. simpl in Hw'. rewrite Ea in Hw'. discriminate Hw'.
Qed.

(** *** A run of pattern characters *)

Lemma lits_sound fl l : forall k x z,
  m fl (lits l) k x = Some z ->
  exists w s',
    rest x = w ++ s'
    /\ Forall2 (fun p a => charMatches fl p a = true) l w
    /\ k {| prev := after (prev x) w; rest := s'; caps := caps x |} = Some z.
Proof.
  induction l as [|c l IH]; intros k x z H.
  - exists [], (rest x). destruct x. simpl in *.
    split; [reflexivity|]. split; [constructor | exact H].
  - simpl in H. destruct (rest x) as [|a s] eqn:Er; [discriminate H|].
    destruct (charMatches fl c a) eqn:Ec; [|discriminate H].
    destruct (IH _ _ _ H) as (w & s' & Hr & Hw & Hk). simpl in *.
    exists (a :: w), s'. split; [now rewrite Hr|]. split; [now constructor|].
    exact Hk.
Qed.

Lemma lits_complete fl l : forall k x w s',
  rest x = w ++ s' ->
  Forall2 (fun p a => charMatches fl p a = true) l w ->
  m fl (lits l) k x = k {| prev := after (prev x) w; rest := s'; caps := caps x |}.
Proof.
  induction l as [|c l IH]; intros k x w s' Hr Hw; inversion Hw; subst.
  - simpl in *. destruct x; simpl in *. now subst.
  - simpl. rewrite Hr. simpl. rewrite H1.
    exact (IH k {| prev := Some y; rest := l' ++ s'; caps := caps x |} l' s'
             eq_refl H3).
Qed.

Lemma consumed_app (x y : mstate) w :
  rest x = w ++ rest y -> consumed x y = w.
Proof.
  intros H. unfold consumed. rewrite H, length_app.
  replace (length w + length (rest y) - length (rest y)) with (length w) by lia.
  rewrite firstn_app, Nat.sub_diag, firstn_all. simpl. apply app_nil_r.
Qed.

(** *** The leftmost match *)

Lemma search_sound fl r : forall s i pv mr,
  search fl r i pv s = Some mr ->
  exists pre post y,
    s = pre ++ post
    /\ runAt fl r (after pv pre) post = Some y
    /\ mr = result (i + length pre) post y
    /\ forall p1 c p2, pre = p1 ++ c :: p2 ->
         runAt fl r (after pv p1) (c :: p2 ++ post) = None.
Proof.
  induction s as [|a s IH]; intros i pv mr H; simpl in H.
  - destruct (runAt fl r pv []) as [y|] eqn:E; [|discriminate H].
    injection H as <-. exists [], [], y. simpl. rewrite Nat.add_0_r.
    repeat split; auto. intros [|] ? ? E'; discriminate E'.
  - destruct (runAt fl r pv (a :: s)) as [y|] eqn:E.
    + injection H as <-. exists [], (a :: s), y. simpl. rewrite Nat.add_0_r.
      repeat split; auto. intros [|] ? ? E'; discriminate E'.
    + destruct (IH _ _ _ H) as (pre & post & y & -> & Hy & -> & Hmin).
      exists (a :: pre), post, y. simpl. rewrite Nat.add_succ_r.
      repeat split; auto.
      intros [|b p1] c p2 E'; injection E' as -> E'.
      * subst pre. exact E.
      * now apply (Hmin p1 c p2).
Qed.

Lemma search_none fl r : forall s i pv,
  search fl r i pv s = None ->
  forall pre post, s = pre ++ post -> runAt fl r (after pv pre) post = None.
Proof.
  induction s as [|a s IH]; intros i pv H pre post E; simpl in H.
  - destruct pre; [|discriminate E]. simpl in E. subst post.
    change (after pv []) with pv.
    destruct (runAt fl r pv []); [discriminate H | reflexivity].
  - destruct (runAt fl r pv (a :: s)) as [y|] eqn:Ey; [discriminate H|].
    destruct pre as [|b pre]; simpl in E.
    + subst post. exact Ey.
    + injection E as <- E. now apply (IH _ _ H pre post).
Qed.

(** Two ways of cutting one text: the shorter prefix is a prefix of the
    longer one. *)
Lemma split_shorter {A} : forall (p p' q q' : list A),
  p ++ q = p' ++ q' -> length p' < length p ->
  exists c r, p = p' ++ c :: r /\ q' = c :: r ++ q.
Proof.
  induction p as [|a p IH]; intros p' q q' E Hl; [simpl in Hl; lia|].
  destruct p' as [|b p'].
  - exists a, p. simpl in *. auto.
  - simpl in E. injection E as <- E. simpl in Hl.
    destruct (IH p' q q' E) as (c & r & -> & ->); [lia|].
    exists c, r. auto.
Qed.

End RegExpFacts.

(** ** The labelled phrases of the route parser *)

Module PatternFacts.
Import JS RegExp Phrase RouteParser RegExpFacts.

Lemma between_spec lo hi c :
  between lo hi c = true <-> (lo <= c /\ c <= hi)%N.
Proof. unfold between. now rewrite andb_true_iff, !N.leb_le. Qed.

Lemma between_out lo hi c : (c < lo \/ hi < c)%N -> between lo hi c = false.
Proof.
  intros H. destruct (between lo hi c) eqn:E; [|reflexivity].
  apply between_spec in E. lia.
Qed.

Lemma between_in lo hi c : (lo <= c /\ c <= hi)%N -> between lo hi c = true.
Proof. apply between_spec. Qed.

Lemma eqb_out c k : c <> k -> N.eqb c k = false.
Proof. apply N.eqb_neq. Qed.

(** Letters are not white space. *)
Lemma isSpace_letter c : (65 <= c <= 122)%N -> isSpace c = false.
Proof.
  intros H. unfold isSpace, isWhiteSpace, isLineTerminator.
  rewrite (between_out 8192 8202 c) by lia.
  rewrite !eqb_out by lia. reflexivity.
Qed.

Lemma asciiUpper_cases a :
  (asciiUpper a = a /\ between 97 122 a = false)
  \/ (asciiUpper a = (a - 32)%N /\ (97 <= a <= 122)%N).
Proof.
  unfold asciiUpper. destruct (between 97 122 a) eqn:E; [right | left]; auto.
  apply between_spec in E. auto.
Qed.

Lemma asciiLower_cases a :
  (asciiLower a = a /\ between 65 90 a = false)
  \/ (asciiLower a = (a + 32)%N /\ (65 <= a <= 90)%N).
Proof.
  unfold asciiLower. destruct (between 65 90 a) eqn:E; [right | left]; auto.
  apply between_spec in E. auto.
Qed.

Lemma isSpace_upper a : isSpace (asciiUpper a) = isSpace a.
Proof.
  destruct (asciiUpper_cases a) as [[-> _] | [-> H]]; [reflexivity|].
  rewrite !isSpace_letter by lia. reflexivity.
Qed.

Lemma isSpace_lower a : isSpace (asciiLower a) = isSpace a.
Proof.
  destruct (asciiLower_cases a) as [[-> _] | [-> H]]; [reflexivity|].
  rewrite !isSpace_letter by lia. reflexivity.
Qed.

Lemma isWord_letter c : (65 <= c <= 90 \/ 97 <= c <= 122)%N -> isWord c = true.
Proof.
  intros [H | H]; unfold isWord.
  - rewrite (between_in 65 90 c H). now rewrite orb_true_r.
  - now rewrite (between_in 97 122 c H).
Qed.

Lemma isWord_upper a : isWord (asciiUpper a) = isWord a.
Proof.
  destruct (asciiUpper_cases a) as [[-> _] | [-> H]]; [reflexivity|].
  rewrite !isWord_letter by lia. reflexivity.
Qed.

Lemma isWord_lower a : isWord (asciiLower a) = isWord a.
Proof.
  destruct (asciiLower_cases a) as [[-> _] | [-> H]]; [reflexivity|].
  rewrite !isWord_letter by lia. reflexivity.
Qed.

Lemma isDot_upper a : N.eqb (asciiUpper a) 46 = N.eqb a 46.
Proof.
  destruct (asciiUpper_cases a) as [[-> _] | [-> H]]; [reflexivity|].
  rewrite !eqb_out by lia. reflexivity.
Qed.

Lemma isDot_lower a : N.eqb (asciiLower a) 46 = N.eqb a 46.
Proof.
  destruct (asciiLower_cases a) as [[-> _] | [-> H]]; [reflexivity|].
  rewrite !eqb_out by lia. reflexivity.
Qed.

(** The classes of the patterns are closed under ASCII case, so the [i]
    flag changes nothing for them. *)
Lemma caseless_isSpace a : classMatches flags_i isSpace a = isSpace a.
Proof.
  unfold classMatches. cbn [flags_i ignoreCase].
  rewrite isSpace_upper, isSpace_lower. now destruct (isSpace a).
Qed.

Lemma caseless_wordOrSpace a : classMatches flags_i wordOrSpace a = wordOrSpace a.
Proof.
  unfold classMatches, wordOrSpace. cbn [flags_i ignoreCase].
  rewrite isSpace_upper, isSpace_lower, isWord_upper, isWord_lower.
  now destruct (isWord a), (isSpace a).
Qed.

Lemma caseless_wordSpaceOrDot a :
  classMatches flags_i wordSpaceOrDot a = wordSpaceOrDot a.
Proof.
  unfold classMatches, wordSpaceOrDot. cbn [flags_i ignoreCase].
  rewrite isSpace_upper, isSpace_lower, isWord_upper, isWord_lower,
    isDot_upper, isDot_lower.
  now destruct (isWord a), (isSpace a), (N.eqb a 46).
Qed.

(** A punctuation pattern character matches itself only. *)
Lemma punct_matches p a :
  (p < 65)%N -> charMatches flags_i p a = true <-> a = p.
Proof.
  intros Hp. unfold charMatches, canonicalize. cbn [flags_i ignoreCase].
  rewrite N.eqb_eq.
  destruct (asciiUpper_cases p) as [[-> _] | [_ H]]; [|lia].
  destruct (asciiUpper_cases a) as [[-> _] | [-> H]]; [split; congruence|].
  split; intros E; lia.
Qed.

Lemma letters_match p a :
  charMatches flags_i p a = true <-> asciiUpper p = asciiUpper a.
Proof. unfold charMatches, canonicalize, flags_i, ignoreCase. apply N.eqb_eq. Qed.

Lemma sameLetters_matches l w :
  sameLetters l w <-> Forall2 (fun p a => charMatches flags_i p a = true) l w.
Proof.
  unfold sameLetters. split; intros H; induction H; constructor; auto;
    now apply letters_match.
Qed.

(** The terminator [(?:\.|\n|$)] succeeds exactly on a full stop, a line
    feed or the end of the text, and makes no capture. *)
Lemma terminator_some x z :
  m flags_i terminator Some x = Some z -> ends (rest x) /\ caps z = caps x.
Proof.
  unfold terminator. destruct x as [pv [|c s] cs];
    cbn [m rest prev caps]; unfold atLineEnd;
    cbn [rest multiline flags_i andb]; intros H.
  - cbn in H. injection H as <-. cbn. auto.
  - destruct (charMatches flags_i 46%N c) eqn:E1.
    + apply (punct_matches 46%N c) in E1; [|lia]. cbn in H. injection H as <-.
      cbn. auto.
    + destruct (charMatches flags_i 10%N c) eqn:E2; cbn in H; [|discriminate H].
      apply (punct_matches 10%N c) in E2; [|lia]. injection H as <-. cbn. auto.
Qed.

Lemma terminator_ends x : ends (rest x) -> m flags_i terminator Some x <> None.
Proof.
  unfold terminator. destruct x as [pv [|c s] cs];
    cbn [m rest prev caps]; unfold atLineEnd;
    cbn [rest multiline flags_i andb ends].
  - discriminate.
  - intros [-> | ->]; cbn; discriminate.
Qed.

(** *** [trim] *)

Lemma dropWhile_suffix p s : exists l, s = l ++ dropWhile p s.
Proof.
  induction s as [|c s [l IH]]; [now exists []|]. simpl.
  destruct (p c); [|now exists []].
  exists (c :: l). simpl. now rewrite <- IH.
Qed.

Lemma trim_In c s : In c (trim s) -> In c s.
Proof.
  unfold trim, trimEnd, trimStart. intros H. apply in_rev in H.
  destruct (dropWhile_suffix isSpace (rev (dropWhile isSpace s))) as [l E].
  assert (H1 : In c (rev (dropWhile isSpace s))).
  { rewrite E. apply in_or_app. now right. }
  apply in_rev in H1.
  destruct (dropWhile_suffix isSpace s) as [l' E'].
  rewrite E'. apply in_or_app. now right.
Qed.

Lemma dropWhile_keeps_last p l c :
  p c = false -> exists l', dropWhile p (l ++ [c]) = l' ++ [c].
Proof.
  intros Hc. induction l as [|a l [l' IH]]; simpl.
  - rewrite Hc. now exists [].
  - destruct (p a); [now exists l'|]. now exists (a :: l).
Qed.

Lemma trim_trimmed s : trimmed (trim s).
Proof.
  unfold trim, trimEnd, trimStart. split.
  - intros c d' E.
    destruct (dropWhile isSpace s) as [|a x] eqn:Ex; [discriminate E|].
    pose proof (TrimFacts.dropWhile_head _ _ _ _ Ex) as Ha.
    simpl in E.
    destruct (dropWhile_keeps_last isSpace (rev x) a Ha) as [l' El].
    rewrite El, rev_app_distr in E. simpl in E. injection E as <- _. exact Ha.
  - intros c d' E.
    apply (f_equal (@rev char)) in E. rewrite rev_involutive, rev_app_distr in E.
    simpl in E. exact (TrimFacts.dropWhile_head _ _ _ _ E).
Qed.

Lemma trim_forallb p s : forallb p s = true -> forallb p (trim s) = true.
Proof.
  rewrite !forallb_forall. intros H c Hc. apply H. now apply trim_In.
Qed.

End PatternFacts.

(** ** Group 1 takes part in every match of the parser's patterns *)

Module CaptureFacts.
Import JS RegExp Phrase RouteParser RegExpFacts.

Lemma group_cons n i s gs :
  group n ((i, s) :: gs) <> None <-> (i = n \/ group n gs <> None).
Proof.
  simpl. destruct (Nat.eqb_spec i n); split; intros H; auto; try discriminate.
  destruct H; [contradiction | assumption].
Qed.

Lemma m_captures fl n r : forall k x z,
  m fl r k x = Some z ->
  exists y,
    k y = Some z
    /\ (captures n r = true \/ group n (caps x) <> None ->
        group n (caps y) <> None).
Proof.
  induction r as [|c|p|r1 IH1 r2 IH2|r1 IH1 r2 IH2|g p|i r IH| |];
    intros k x z H; cbn [m] in H; cbn [captures].
  - exists x. split; [exact H|]. intros [E | E]; [discriminate E | exact E].
  - destruct (rest x) as [|a s]; [discriminate H|].
    destruct (charMatches fl c a); [|discriminate H].
    eexists. split; [exact H|]. intros [E | E]; [discriminate E | exact E].
  - destruct (rest x) as [|a s]; [discriminate H|].
    destruct (classMatches fl p a); [|discriminate H].
    eexists. split; [exact H|]. intros [E | E]; [discriminate E | exact E].
  - destruct (IH1 _ _ _ H) as (y1 & H1 & P1).
    destruct (IH2 _ _ _ H1) as (y2 & H2 & P2).
    exists y2. split; [exact H2|]. intros [E | E].
    + apply orb_true_iff in E as [E | E]; auto.
    + auto.
  - apply orElse_some in H as [H | [_ H]].
    + destruct (IH1 _ _ _ H) as (y & Hy & P). exists y. split; [exact Hy|].
      intros [E | E]; [apply andb_true_iff in E as [E _]|]; auto.
    + destruct (IH2 _ _ _ H) as (y & Hy & P). exists y. split; [exact Hy|].
      intros [E | E]; [apply andb_true_iff in E as [_ E]|]; auto.
  - assert (S : exists w s', k {| prev := after (prev x) w; rest := s'; caps := caps x |}
                             = Some z).
    { destruct g.
      - apply star_greedy in H as (w & s' & _ & _ & Hk & _). now exists w, s'.
      - apply star_lazy in H as (w & s' & _ & _ & Hk & _). now exists w, s'. }
    destruct S as (w & s' & Hk). eexists. split; [exact Hk|].
    intros [E | E]; [discriminate E | exact E].
  - destruct (IH _ _ _ H) as (y & Hy & P). eexists. split; [exact Hy|].
    cbn [caps]. intros E. apply group_cons.
    destruct (Nat.eqb_spec i n) as [En | En]; [now left | right].
    apply P. destruct E as [E | E]; [left | right; exact E].
    simpl in E. exact E.
  - destruct (atLineStart fl x); [|discriminate H].
    exists x. split; [exact H|]. intros [E | E]; [discriminate E | exact E].
  - destruct (atLineEnd fl x); [|discriminate H].
    exists x. split; [exact H|]. intros [E | E]; [discriminate E | exact E].
Qed.

Lemma runAt_captures fl n r pv s y :
  captures n r = true -> runAt fl r pv s = Some y -> group n (caps y) <> None.
Proof.
  intros Hc H. destruct (m_captures fl n r _ _ _ H) as (y' & E & P).
  injection E as ->. apply P. now left.
Qed.

Lemma match_captures fl n r text mr :
  captures n r = true -> String_match fl r text = Some mr ->
  group n (groups mr) <> None.
Proof.
  intros Hc H. apply search_sound in H as (pre & post & y & _ & Hy & -> & _).
  exact (runAt_captures fl n r _ _ y Hc Hy).
Qed.

Lemma matchAll_captures fl n r :
  captures n r = true ->
  forall s skip i pv mr,
    In mr (matchAllFrom fl r skip i pv s) -> group n (groups mr) <> None.
Proof.
  intros Hc. induction s as [|a s IH]; intros skip i pv mr Hin.
  - destruct skip; simpl in Hin; [|destruct Hin].
    destruct (runAt fl r pv []) as [y|] eqn:E; [|destruct Hin].
    destruct Hin as [<- | []]. exact (runAt_captures fl n r _ _ y Hc E).
  - destruct skip; simpl in Hin; [|exact (IH _ _ _ _ Hin)].
    destruct (runAt fl r pv (a :: s)) as [y|] eqn:E.
    + destruct Hin as [<- | Hin]; [|exact (IH _ _ _ _ Hin)].
      exact (runAt_captures fl n r _ _ y Hc E).
    + exact (IH _ _ _ _ Hin).
Qed.

(** So the default of [capture1] is never taken. *)
Lemma patterns_capture :
  captures 1 durationRe = true /\ captures 1 distanceRe = true
  /\ captures 1 stepRe = true /\ captures 1 stepDistanceRe = true.
Proof. repeat split; reflexivity. Qed.

End CaptureFacts.

Module LabelledFacts.
Import JS RegExp Phrase RouteParser RegExpFacts PatternFacts.

Section Labelled.

Variable labels : list jsstring.
Variable labelsRe : regex.
Variable value : char -> bool.

Hypothesis labels_sound : forall k x z,
  m flags_i labelsRe k x = Some z ->
  exists l lab s',
    In l labels /\ sameLetters l lab /\ rest x = lab ++ s'
    /\ k {| prev := after (prev x) lab; rest := s'; caps := caps x |} = Some z.
Hypothesis labels_complete : forall k x l lab s',
  In l labels -> sameLetters l lab -> rest x = lab ++ s' ->
  k {| prev := after (prev x) lab; rest := s'; caps := caps x |} <> None ->
  m flags_i labelsRe k x <> None.
Hypothesis value_caseless : forall a, classMatches flags_i value a = value a.

Lemma forallb_ext {A} (f g : A -> bool) l :
  (forall a, f a = g a) -> forallb f l = forallb g l.
Proof. intros H. induction l; simpl; [reflexivity | now rewrite H, IHl]. Qed.

Lemma valueRe_sound x z :
  m flags_i (valueRe value) Some x = Some z ->
  exists cap post,
    rest x = cap ++ post /\ cap <> [] /\ forallb value cap = true
    /\ ends post /\ stopsEarly cap /\ caps z = (1, cap) :: caps x.
Proof.
  unfold valueRe, Plus. cbn [m]. intros H.
  destruct (rest x) as [|c0 s] eqn:Er; [discriminate H|].
  destruct (classMatches flags_i value c0) eqn:Ec; [|discriminate H].
  cbn [prev rest caps] in H.
  apply star_lazy in H as (w & post & -> & Hw & Hk & Hmin).
  cbn [prev rest caps] in Hk.
  apply terminator_some in Hk as [Hends Hcaps]. cbn [rest caps] in Hends, Hcaps.
  assert (Ecap : consumed x {| prev := after (Some c0) w; rest := post; caps := caps x |}
                 = c0 :: w).
  { apply consumed_app. cbn [rest]. now rewrite Er. }
  rewrite Ecap in Hcaps.
  exists (c0 :: w), post. split; [reflexivity|]. split; [discriminate|].
  split.
  { simpl. rewrite <- (value_caseless c0), Ec.
    rewrite <- (forallb_ext _ _ w value_caseless). exact Hw. }
  split; [exact Hends|]. split; [|exact Hcaps].
  intros c Hin. simpl in Hin. apply in_split in Hin as (w1 & w2 & ->).
  specialize (Hmin w1 c w2 eq_refl). cbn [prev rest caps] in Hmin.
  split; intros ->.
  - apply (terminator_ends {| prev := after (Some c0) w1;
                              rest := 46%N :: w2 ++ post;
                              caps := (1, consumed x {| prev := after (Some c0) w1;
                                                         rest := 46%N :: w2 ++ post;
                                                         caps := caps x |}) :: caps x |});
      [cbn; auto | exact Hmin].
  - apply (terminator_ends {| prev := after (Some c0) w1;
                              rest := 10%N :: w2 ++ post;
                              caps := (1, consumed x {| prev := after (Some c0) w1;
                                                         rest := 10%N :: w2 ++ post;
                                                         caps := caps x |}) :: caps x |});
      [cbn; auto | exact Hmin].
Qed.

Lemma valueRe_complete x cap post :
  rest x = cap ++ post -> cap <> [] -> forallb value cap = true -> ends post ->
  m flags_i (valueRe value) Some x <> None.
Proof.
  intros Er Hne Hv He. unfold valueRe, Plus. cbn [m].
  destruct cap as [|c0 w]; [contradiction|].
  rewrite Er. simpl in Hv. apply andb_true_iff in Hv as [Hc Hw].
  cbn [app]. rewrite value_caseless, Hc. cbn [prev rest caps].
  apply star_complete.
  - now rewrite (forallb_ext _ _ w value_caseless).
  - cbn [prev rest caps]. now apply terminator_ends.
Qed.

(** One attempt at a position: what a success means. The white space
    taken is the longest that still lets a value follow, and the value is
    the shortest. *)
Lemma labelled_sound pv s y :
  runAt flags_i (labelled labelsRe value) pv s = Some y ->
  exists ws cap post,
    phraseAt labels value s [] ws cap post
    /\ stopsEarly cap
    /\ caps y = [(1, cap)]
    /\ forall ws' cap' post',
         ws ++ cap ++ post = ws' ++ cap' ++ post' ->
         forallb isSpace ws' = true -> cap' <> [] ->
         forallb value cap' = true -> ends post' ->
         length ws' <= length ws.
Proof.
  unfold runAt, labelled. cbn [m]. intros H.
  apply labels_sound in H as (l & lab & s1 & Hin & Hsame & Hr & Hk).
  cbn [prev rest caps] in Hr, Hk.
  destruct s1 as [|a s2]; [discriminate Hk|].
  destruct (charMatches flags_i 58%N a) eqn:Ec; [|discriminate Hk].
  apply (punct_matches 58%N a) in Ec; [|lia]. subst a.
  apply star_greedy in Hk as (ws & s3 & -> & Hws & Hk & Hmax).
  rewrite (forallb_ext _ _ ws caseless_isSpace) in Hws.
  apply valueRe_sound in Hk
    as (cap & post & Hr3 & Hne & Hv & Hends & Hearly & Hcaps).
  cbn [rest caps] in Hr3, Hcaps. subst s3.
  exists ws, cap, post. split; [|split; [exact Hearly | split; [exact Hcaps|]]].
  - split; [|auto]. exists l, lab. auto.
  - intros ws' cap' post' E Hws' Hne' Hv' He'.
    destruct (Nat.le_gt_cases (length ws') (length ws)) as [Hle | Hgt];
      [exact Hle | exfalso].
    rewrite <- (forallb_ext _ _ ws' caseless_isSpace) in Hws'.
    specialize (Hmax ws' (cap' ++ post') E Hws' Hgt).
    revert Hmax. apply (valueRe_complete _ cap' post'); auto.
Qed.

Lemma labelled_complete pv s ws cap post :
  phraseAt labels value s [] ws cap post ->
  runAt flags_i (labelled labelsRe value) pv s <> None.
Proof.
  intros ((l & lab & Hin & Hsame & Hs) & Hws & Hne & Hv & He).
  cbn [app] in Hs. unfold runAt, labelled. cbn [m].
  apply (labels_complete _ {| prev := pv; rest := s; caps := [] |} l lab
           (58%N :: ws ++ cap ++ post) Hin Hsame Hs).
  cbn [prev rest caps].
  assert (Ec : charMatches flags_i 58%N 58%N = true) by reflexivity.
  rewrite Ec. apply star_complete.
  - now rewrite (forallb_ext _ _ ws caseless_isSpace).
  - apply (valueRe_complete _ cap post); auto.
Qed.

Lemma phrase_shift pre s ws cap post :
  phraseAt labels value s [] ws cap post ->
  phraseAt labels value (pre ++ s) pre ws cap post.
Proof.
  intros ((l & lab & Hin & Hsame & ->) & H). split; [|exact H].
  exists l, lab. auto.
Qed.

Lemma phrase_unshift text pre ws cap post :
  phraseAt labels value text pre ws cap post ->
  exists s, text = pre ++ s /\ phraseAt labels value s [] ws cap post.
Proof.
  intros ((l & lab & Hin & Hsame & ->) & H).
  exists (lab ++ 58%N :: ws ++ cap ++ post). split; [reflexivity|].
  split; [|exact H]. exists l, lab. auto.
Qed.

(** The value extracted is the one the text gives. *)
Lemma extract_sound text d :
  extract (labelled labelsRe value) text = Some d ->
  valueOf labels value text d.
Proof.
  unfold extract, String_match. intros H.
  destruct (search flags_i (labelled labelsRe value) 0 None text) as [mr|] eqn:E;
    [|discriminate H].
  injection H as <-.
  apply search_sound in E as (pre & s & y & -> & Hy & -> & Hmin).
  destruct (labelled_sound _ _ _ Hy) as (ws & cap & post & Hp & Hearly & Hcaps & Hmax).
  exists pre, ws, cap, post.
  split; [now apply phrase_shift|]. split; [exact Hearly|]. split; [|split].
  - intros pre' ws' cap' post' Hp'.
    destruct (Nat.le_gt_cases (length pre) (length pre')) as [Hle | Hgt];
      [exact Hle | exfalso].
    apply phrase_unshift in Hp' as (s' & E' & Hp').
    destruct (split_shorter pre pre' s s' E' Hgt) as (c & r & -> & ->).
    apply (labelled_complete (after None pre') _ _ _ _ Hp').
    exact (Hmin pre' c r eq_refl).
  - exact Hmax.
  - unfold capture1, result. cbn [groups]. rewrite Hcaps. reflexivity.
Qed.

Lemma extract_none text :
  extract (labelled labelsRe value) text = None <-> noPhrase labels value text.
Proof.
  unfold extract, String_match. split.
  - intros H pre ws cap post Hp.
    destruct (search flags_i (labelled labelsRe value) 0 None text) as [mr|] eqn:E;
      [discriminate H|].
    apply phrase_unshift in Hp as (s & -> & Hp).
    apply (labelled_complete (after None pre) _ _ _ _ Hp).
    exact (search_none _ _ _ _ _ E pre s eq_refl).
  - intros Hno.
    destruct (search flags_i (labelled labelsRe value) 0 None text) as [mr|] eqn:E;
      [exfalso | reflexivity].
    apply search_sound in E as (pre & s & y & -> & Hy & _).
    destruct (labelled_sound _ _ _ Hy) as (ws & cap & post & Hp & _).
    exact (Hno pre ws cap post (phrase_shift pre s ws cap post Hp)).
Qed.

(** *** The value is determined *)

Hypothesis labels_distinct : distinctInitials labels = true.

Lemma distinct_spec : forall ls,
  distinctInitials ls = true ->
  forall l l', In l ls -> In l' ls ->
    l <> [] /\ (asciiUpper (hd 0%N l) = asciiUpper (hd 0%N l') -> l = l').
Proof.
  induction ls as [|x ls IH]; intros Hd l l' Hl Hl'; [destruct Hl|].
  cbn [distinctInitials] in Hd.
  apply andb_true_iff in Hd as [Hd Hls]. apply andb_true_iff in Hd as [Hx Hne].
  assert (Hdiff : forall y, In y ls ->
            asciiUpper (hd 0%N x) <> asciiUpper (hd 0%N y)).
  { intros y Hy. rewrite forallb_forall in Hx. specialize (Hx y Hy).
    apply negb_true_iff, N.eqb_neq in Hx. exact Hx. }
  destruct Hl as [<- | Hl], Hl' as [<- | Hl'].
  - split; [|auto]. intros ->. discriminate Hne.
  - split; [intros ->; discriminate Hne|]. intros E. now apply Hdiff in Hl'.
  - split; [exact (proj1 (IH Hls l l Hl Hl))|]. intros E.
    symmetry in E. now apply Hdiff in Hl.
  - exact (IH Hls l l' Hl Hl').
Qed.

Lemma same_length_split {A} : forall (a c b d : list A),
  a ++ b = c ++ d -> length a = length c -> a = c /\ b = d.
Proof.
  induction a as [|x a IH]; intros [|y c] b d E Hl; try discriminate Hl.
  - auto.
  - simpl in E. injection E as -> E. simpl in Hl.
    destruct (IH c b d E) as [-> ->]; [lia | auto].
Qed.

Lemma sameLetters_head l lab :
  sameLetters l lab -> l <> [] ->
  lab <> [] /\ asciiUpper (hd 0%N l) = asciiUpper (hd 0%N lab).
Proof.
  intros H Hne. destruct H; [contradiction|]. split; [discriminate | assumption].
Qed.

Lemma label_unique l l' lab lab' t t' :
  In l labels -> In l' labels -> sameLetters l lab -> sameLetters l' lab' ->
  lab ++ t = lab' ++ t' -> lab = lab' /\ t = t'.
Proof.
  intros Hl Hl' Hs Hs' E.
  destruct (distinct_spec labels labels_distinct l l' Hl Hl') as [Hne Heq].
  destruct (distinct_spec labels labels_distinct l' l Hl' Hl) as [Hne' _].
  destruct (sameLetters_head l lab Hs Hne) as [Hn1 H1].
  destruct (sameLetters_head l' lab' Hs' Hne') as [Hn2 H2].
  assert (El : l = l').
  { apply Heq. rewrite H1, H2.
    destruct lab, lab'; try contradiction. simpl in E. now injection E as ->. }
  subst l'. apply same_length_split; [exact E|].
  unfold sameLetters in Hs, Hs'.
  now rewrite <- (Forall2_length Hs), <- (Forall2_length Hs').
Qed.

Lemma valueOf_unique text d d' :
  valueOf labels value text d -> valueOf labels value text d' -> d = d'.
Proof.
  intros (pre & ws & cap & post & Hp & Hearly & Hleft & Hlong & ->)
         (pre' & ws' & cap' & post' & Hp' & Hearly' & Hleft' & Hlong' & ->).
  pose proof (Hleft _ _ _ _ Hp') as L1. pose proof (Hleft' _ _ _ _ Hp) as L2.
  destruct Hp as ((l & lab & Hin & Hs & E) & Hws & Hne & Hv & He).
  destruct Hp' as ((l' & lab' & Hin' & Hs' & E') & Hws' & Hne' & Hv' & He').
  rewrite E in E'.
  apply same_length_split in E' as [<- E']; [|lia].
  apply (label_unique l l' lab lab' _ _ Hin Hin' Hs Hs') in E' as [<- E'].
  injection E' as E'.
  pose proof (Hlong _ _ _ E' Hws' Hne' Hv' He') as M1.
  pose proof (Hlong' _ _ _ (eq_sym E') Hws Hne Hv He) as M2.
  apply same_length_split in E' as [<- E']; [|lia].
  f_equal.
  destruct (Nat.lt_trichotomy (length cap) (length cap')) as [Hlt | [Heq | Hgt]].
  - exfalso. symmetry in E'.
    destruct (split_shorter cap' cap post' post E' Hlt) as (c & r & -> & ->).
    destruct (Hearly' c) as [N1 N2].
    { destruct cap as [|c0 cap]; [contradiction|]. simpl.
      apply in_or_app. right. now left. }
    destruct He as [-> | ->]; contradiction.
  - now apply same_length_split in E' as [-> _].
  - exfalso.
    destruct (split_shorter cap cap' post post' E' Hgt) as (c & r & -> & ->).
    destruct (Hearly c) as [N1 N2].
    { destruct cap' as [|c0 cap']; [contradiction|]. simpl.
      apply in_or_app. right. now left. }
    destruct He' as [-> | ->]; contradiction.
Qed.

(** The parser's value is the value the text gives, and no other. *)
Lemma extract_spec text d :
  extract (labelled labelsRe value) text = Some d
  <-> valueOf labels value text d.
Proof.
  split; [apply extract_sound|]. intros H.
  destruct (extract (labelled labelsRe value) text) as [d0|] eqn:E.
  - f_equal. apply extract_sound in E. exact (valueOf_unique text d0 d E H).
  - exfalso. apply extract_none in E.
    destruct H as (pre & ws & cap & post & Hp & _). exact (E _ _ _ _ Hp).
Qed.

End Labelled.

(** The two label sets meet the assumptions of the section. *)

Lemma lits_label fl l k x z :
  fl = flags_i ->
  m fl (lits l) k x = Some z ->
  exists lab s',
    sameLetters l lab /\ rest x = lab ++ s'
    /\ k {| prev := after (prev x) lab; rest := s'; caps := caps x |} = Some z.
Proof.
  intros -> H. apply lits_sound in H as (w & s' & Hr & Hw & Hk).
  exists w, s'. split; [now apply sameLetters_matches | auto].
Qed.

Lemma lits_label_complete l k x lab s' :
  sameLetters l lab -> rest x = lab ++ s' ->
  m flags_i (lits l) k x
  = k {| prev := after (prev x) lab; rest := s'; caps := caps x |}.
Proof.
  intros Hs Hr. apply lits_complete; [exact Hr | now apply sameLetters_matches].
Qed.

Lemma durationLabels_sound k x z :
  m flags_i durationLabels k x = Some z ->
  exists l lab s',
    In l durationLabelList /\ sameLetters l lab /\ rest x = lab ++ s'
    /\ k {| prev := after (prev x) lab; rest := s'; caps := caps x |} = Some z.
Proof.
  unfold durationLabels. cbn [m]. intros H.
  apply orElse_some in H as [H | [_ H]];
    [|apply orElse_some in H as [H | [_ H]]];
    apply (lits_label flags_i _ _ _ _ eq_refl) in H as (lab & s' & H1 & H2 & H3).
  - exists (lit "Total time"), lab, s'. repeat split; auto. now left.
  - exists (lit "Duration"), lab, s'. repeat split; auto. right. now left.
  - exists (lit "Estimated time"), lab, s'. repeat split; auto. right. right. now left.
Qed.

Lemma durationLabels_complete k x l lab s' :
  In l durationLabelList -> sameLetters l lab -> rest x = lab ++ s' ->
  k {| prev := after (prev x) lab; rest := s'; caps := caps x |} <> None ->
  m flags_i durationLabels k x <> None.
Proof.
  intros Hin Hs Hr Hk. unfold durationLabels. cbn [m].
  destruct Hin as [<- | [<- | [<- | []]]].
  - apply orElse_left. now rewrite (lits_label_complete _ k x lab s' Hs Hr).
  - apply orElse_right, orElse_left.
    now rewrite (lits_label_complete _ k x lab s' Hs Hr).
  - apply orElse_right, orElse_right.
    now rewrite (lits_label_complete _ k x lab s' Hs Hr).
Qed.

Lemma distanceLabels_sound k x z :
  m flags_i distanceLabels k x = Some z ->
  exists l lab s',
    In l distanceLabelList /\ sameLetters l lab /\ rest x = lab ++ s'
    /\ k {| prev := after (prev x) lab; rest := s'; caps := caps x |} = Some z.
Proof.
  unfold distanceLabels. cbn [m]. intros H.
  apply orElse_some in H as [H | [_ H]];
    apply (lits_label flags_i _ _ _ _ eq_refl) in H as (lab & s' & H1 & H2 & H3).
  - exists (lit "Total distance"), lab, s'. repeat split; auto. now left.
  - exists (lit "Distance"), lab, s'. repeat split; auto. right. now left.
Qed.

Lemma distanceLabels_complete k x l lab s' :
  In l distanceLabelList -> sameLetters l lab -> rest x = lab ++ s' ->
  k {| prev := after (prev x) lab; rest := s'; caps := caps x |} <> None ->
  m flags_i distanceLabels k x <> None.
Proof.
  intros Hin Hs Hr Hk. unfold distanceLabels. cbn [m].
  destruct Hin as [<- | [<- | []]].
  - apply orElse_left. now rewrite (lits_label_complete _ k x lab s' Hs Hr).
  - apply orElse_right.
    now rewrite (lits_label_complete _ k x lab s' Hs Hr).
Qed.

Lemma duration_spec text d :
  extract durationRe text = Some d
  <-> valueOf durationLabelList wordOrSpace text d.
Proof.
  apply (extract_spec durationLabelList durationLabels wordOrSpace
           durationLabels_sound durationLabels_complete caseless_wordOrSpace
           eq_refl).
Qed.

Lemma duration_none text :
  extract durationRe text = None <-> noPhrase durationLabelList wordOrSpace text.
Proof.
  apply (extract_none durationLabelList durationLabels wordOrSpace
           durationLabels_sound durationLabels_complete caseless_wordOrSpace).
Qed.

Lemma distance_spec text d :
  extract distanceRe text = Some d
  <-> valueOf distanceLabelList wordSpaceOrDot text d.
Proof.
  apply (extract_spec distanceLabelList distanceLabels wordSpaceOrDot
           distanceLabels_sound distanceLabels_complete caseless_wordSpaceOrDot
           eq_refl).
Qed.

Lemma distance_none text :
  extract distanceRe text = None
  <-> noPhrase distanceLabelList wordSpaceOrDot text.
Proof.
  apply (extract_none distanceLabelList distanceLabels wordSpaceOrDot
           distanceLabels_sound distanceLabels_complete caseless_wordSpaceOrDot).
Qed.

(** The trimmed value keeps to the class of the phrase and has no white
    space at its ends. *)
Lemma valueOf_shape labels value text d :
  valueOf labels value text d -> forallb value d = true /\ trimmed d.
Proof.
  intros (pre & ws & cap & post & (_ & _ & _ & Hv & _) & _ & _ & _ & ->).
  split; [now apply trim_forallb | apply trim_trimmed].
Qed.

End LabelledFacts.

(** C5, as the code has it. The duration the parser returns is exactly
    the value the text gives for the labels Total time, Duration and
    Estimated time (in any ASCII case): the leftmost phrase made of a label,
    a colon, white space (as much as still lets a value follow) and a
    non-empty run of word characters and white space that is followed by a
    full stop, a line feed or the end of the text, the run stopping before
    the first full stop or line feed after its first code unit; the run is
    returned trimmed, so it has no punctuation and no white space at its
    ends; and there is no duration exactly when the text has no such phrase.
    In the Leaflet revision the distance is read the same way with the
    labels Total distance and Distance and a run that may also hold full
    stops; the schematic-map revision extracts no distance.
    "Total time: 45 mins." gives "45 mins". *)
Theorem labelled_values (text : JS.jsstring) :
  (forall d,
      (RouteParser.extract RouteParser.durationRe text = Some d
       <-> Phrase.valueOf Phrase.durationLabelList RouteParser.wordOrSpace text d)
      /\ (RouteParser.extract RouteParser.durationRe text = Some d ->
          forallb RouteParser.wordOrSpace d = true /\ Phrase.trimmed d))
  /\ (RouteParser.extract RouteParser.durationRe text = None
      <-> Phrase.noPhrase Phrase.durationLabelList RouteParser.wordOrSpace text)
  /\ (forall d,
      (RouteParser.extract RouteParser.distanceRe text = Some d
       <-> Phrase.valueOf Phrase.distanceLabelList RouteParser.wordSpaceOrDot text d)
      /\ (RouteParser.extract RouteParser.distanceRe text = Some d ->
          forallb RouteParser.wordSpaceOrDot d = true /\ Phrase.trimmed d))
  /\ (RouteParser.extract RouteParser.distanceRe text = None
      <-> Phrase.noPhrase Phrase.distanceLabelList RouteParser.wordSpaceOrDot text)
  /\ (forall links r,
      Mock.parseRouteData text links = Some r ->
      Route.duration r = RouteParser.extract RouteParser.durationRe text
      /\ Route.distance r = None)
  /\ (forall links r,
      Leaflet.parseRouteData text links = Some r ->
      Route.duration r = RouteParser.extract RouteParser.durationRe text
      /\ Route.distance r = RouteParser.extract RouteParser.distanceRe text)
  /\ RouteParser.extract RouteParser.durationRe (JS.lit "Total time: 45 mins.")
     = Some (JS.lit "45 mins").
Proof.
  split; [|split; [|split; [|split; [|split; [|split]]]]].
  - intros d. split; [apply LabelledFacts.duration_spec|].
    intros H. apply LabelledFacts.duration_spec in H.
    exact (LabelledFacts.valueOf_shape _ _ _ _ H).
  - apply LabelledFacts.duration_none.
  - intros d. split; [apply LabelledFacts.distance_spec|].
    intros H. apply LabelledFacts.distance_spec in H.
    exact (LabelledFacts.valueOf_shape _ _ _ _ H).
  - apply LabelledFacts.distance_none.
  - intros links r H. unfold Mock.parseRouteData in H.
    destruct (_ || _); [|discriminate H]. injection H as <-. auto.
  - intros links r H. unfold Leaflet.parseRouteData in H.
    destruct (_ || _); [|discriminate H]. injection H as <-. auto.
  - vm_compute. reflexivity.
Qed.

Lemma labelled_values_witness :
  Phrase.valueOf Phrase.durationLabelList RouteParser.wordOrSpace
    (JS.lit "Total time: 45 mins.") (JS.lit "45 mins")
  /\ Phrase.trimmed (JS.lit "45 mins").
Proof.
  destruct (labelled_values (JS.lit "Total time: 45 mins.")) as [H _].
  destruct (H (JS.lit "45 mins")) as [Hspec Hshape].
  assert (E : RouteParser.extract RouteParser.durationRe
                (JS.lit "Total time: 45 mins.") = Some (JS.lit "45 mins"))
    by (vm_compute; reflexivity).
  split; [exact (proj1 Hspec E) | exact (proj2 (Hshape E))].
Defined.

(** C5 as stated fails for the distance. The schematic-map revision
    extracts none, whatever the text says; and in the Leaflet revision the
    distance is not read by the procedure of the duration: after
    "Distance: " the value ".5 mi" is taken whole, while the duration's
    procedure with the distance labels gives the empty string, and the
    value of "Distance: ." is the full stop itself. *)
Lemma labelled_values_counterexample :
  Mock.parseRouteData (JS.lit "Total distance: 12 km") [Samples.linkA; Samples.linkB]
  = Some (Route.mk [JS.lit "A"; JS.lit "B"] [] None None)
  /\ Leaflet.parseRouteData (JS.lit "Total distance: 12 km")
       [Samples.linkA; Samples.linkB]
     = Some (Route.mk [JS.lit "A"; JS.lit "B"] [] None (Some (JS.lit "12 km")))
  /\ RouteParser.extract RouteParser.distanceRe (JS.lit "Distance: .5 mi")
     = Some (JS.lit ".5 mi")
  /\ RouteParser.extract
       (RouteParser.labelled RouteParser.distanceLabels RouteParser.wordOrSpace)
       (JS.lit "Distance: .5 mi")
     = Some []
  /\ RouteParser.extract RouteParser.distanceRe (JS.lit "Distance: .")
     = Some (JS.lit ".").
Proof. repeat split; vm_compute; reflexivity. Qed.

(** ** The parser on sample texts *)

Module ParserExamples.
Import JS RouteParser.

Example step_with_distance :
  parseSteps (lit "1. Turn left onto Main St (0.3 mi)")
  = [RouteStep.mk (lit "Turn left onto Main St") (Some (lit "0.3 mi"))].
Proof. vm_compute. reflexivity. Qed.

Example steps_in_order :
  map RouteStep.instruction
    (parseSteps (lit "Route:" ++ [10%N] ++ lit "1. Head north" ++ [10%N]
                 ++ lit "2.  Turn right" ++ [13%N; 10%N] ++ lit "x 3. no"
                 ++ [10%N] ++ lit "10. Arrive"))
  = [lit "Head north"; lit "Turn right"; lit "Arrive"].
Proof. vm_compute. reflexivity. Qed.

Example duration_any_case :
  extract durationRe (lit "ESTIMATED TIME:  1 hour 5 min" ++ [10%N] ++ lit "Enjoy")
  = Some (lit "1 hour 5 min").
Proof. vm_compute. reflexivity. Qed.

Example duration_needs_a_boundary :
  extract durationRe (lit "Duration: 45 mins, via the bridge.") = None.
Proof. vm_compute. reflexivity. Qed.

End ParserExamples.

(* ================================================================== *)
(** * Part II, continued: further properties of the code               *)
(* ================================================================== *)

(** ** The tool-call executor, call by call *)

Module ToolFacts.
Import JS Common JSFacts ExecutorFacts Tools.

Lemma toolOf_names fc :
  match toolOf fc with
  | SetMapLayer =>
      nameIs fc "set_map_layer" = true /\ nameIs fc "toggle_traffic" = false
      /\ nameIs fc "update_map_view" = false
  | ToggleTraffic =>
      nameIs fc "set_map_layer" = false /\ nameIs fc "toggle_traffic" = true
      /\ nameIs fc "update_map_view" = false
  | UpdateMapView =>
      nameIs fc "set_map_layer" = false /\ nameIs fc "toggle_traffic" = false
      /\ nameIs fc "update_map_view" = true
  | Unknown =>
      nameIs fc "set_map_layer" = false /\ nameIs fc "toggle_traffic" = false
      /\ nameIs fc "update_map_view" = false
  end.
Proof.
  unfold toolOf, nameIs. destruct (FunctionCall.name fc) as [n|]; [|auto].
  destruct (str_eqb n (lit "set_map_layer")) eqn:E1.
  { apply str_eqb_eq in E1. subst n. auto. }
  destruct (str_eqb n (lit "toggle_traffic")) eqn:E2.
  { apply str_eqb_eq in E2. subst n. auto. }
  destruct (str_eqb n (lit "update_map_view")); auto.
Qed.

Lemma nameIs_inv fc n : nameIs fc n = true -> FunctionCall.name fc = Some (lit n).
Proof.
  unfold nameIs. destruct (FunctionCall.name fc) as [x|]; [|discriminate].
  intros H. apply str_eqb_eq in H. now subst.
Qed.

Lemma toolOf_known fc :
  toolOf fc <> Unknown <-> Samples.known (FunctionCall.name fc).
Proof.
  pose proof (toolOf_names fc) as H. unfold Samples.known. split.
  - intros Hk.
    destruct (toolOf fc); try contradiction; destruct H as (H1 & H2 & H3).
    + right. left. now apply nameIs_inv.
    + right. right. now apply nameIs_inv.
    + left. now apply nameIs_inv.
  - intros Hk E. rewrite E in H. destruct H as (H1 & H2 & H3).
    destruct Hk as [K | [K | K]].
    + rewrite (nameIs_true fc "update_map_view" K) in H3. discriminate.
    + rewrite (nameIs_true fc "set_map_layer" K) in H1. discriminate.
    + rewrite (nameIs_true fc "toggle_traffic" K) in H2. discriminate.
Qed.

(** The executor of each revision, tool by tool. *)
Lemma mock_exec fc s :
  Mock.executeFunctionCall fc s =
  match toolOf fc, FunctionCall.args fc with
  | Unknown, _ => (s, inl ack)
  | _, None => (s, inr Eff.TypeError)
  | SetMapLayer, Some a => (Mock.setActiveLayer (get a (lit "layer")) s, inl ack)
  | ToggleTraffic, Some a =>
      (Mock.setShowTraffic (get a (lit "enabled")) s, inl ack)
  | UpdateMapView, Some a =>
      (let s1 := if truthy (get a (lit "zoom"))
                 then Mock.setZoom (get a (lit "zoom")) s else s in
       let s2 := if truthy (get a (lit "focusX"))
                 then Mock.setCenterX (get a (lit "focusX")) s1 else s1 in
       if truthy (get a (lit "focusY"))
       then Mock.setCenterY (get a (lit "focusY")) s2 else s2, inl ack)
  end.
Proof.
  pose proof (toolOf_names fc) as H. unfold Mock.executeFunctionCall.
  destruct (toolOf fc); destruct H as (-> & -> & ->);
    unfold argsOf, Eff.bind, Eff.ret, Eff.when, Eff.modify, Eff.throw;
    destruct (FunctionCall.args fc) as [a|]; try reflexivity.
  destruct (truthy (get a (lit "zoom"))), (truthy (get a (lit "focusX"))),
    (truthy (get a (lit "focusY"))); reflexivity.
Qed.

Lemma leaflet_exec fc s :
  Leaflet.executeFunctionCall fc s =
  match toolOf fc, FunctionCall.args fc with
  | Unknown, _ => (s, inl ack)
  | _, None => (s, inr Eff.TypeError)
  | SetMapLayer, Some a =>
      (Leaflet.setActiveLayer (get a (lit "layer")) s, inl ack)
  | ToggleTraffic, Some a =>
      (Leaflet.setShowTraffic (get a (lit "enabled")) s, inl ack)
  | UpdateMapView, Some a =>
      (let s1 := if truthy (get a (lit "zoom"))
                 then Leaflet.setZoom (get a (lit "zoom")) s else s in
       if truthy (get a (lit "latitude")) && truthy (get a (lit "longitude"))
       then Leaflet.setMapCenter
              (get a (lit "latitude"), get a (lit "longitude")) s1
       else s1, inl ack)
  end.
Proof.
  pose proof (toolOf_names fc) as H. unfold Leaflet.executeFunctionCall.
  destruct (toolOf fc); destruct H as (-> & -> & ->);
    unfold argsOf, Eff.bind, Eff.ret, Eff.when, Eff.modify, Eff.throw;
    destruct (FunctionCall.args fc) as [a|]; try reflexivity.
  destruct (truthy (get a (lit "zoom"))),
    (truthy (get a (lit "latitude")) && truthy (get a (lit "longitude")));
    reflexivity.
Qed.

Lemma malformed_spec fc :
  malformed fc = true
  <-> Samples.known (FunctionCall.name fc) /\ FunctionCall.args fc = None.
Proof.
  rewrite <- toolOf_known. unfold malformed.
  destruct (toolOf fc), (FunctionCall.args fc); split;
    try discriminate; try (intros [H1 H2]; congruence);
    intros _; split; congruence.
Qed.

End ToolFacts.

(** X1. A tool call throws exactly when it names one of the three known
    tools and carries no [args]; the call that throws changes nothing, and
    every other call returns the acknowledgement. Both revisions. *)
Theorem executor_throws_only_without_args (fc : FunctionCall.t) :
  (Tools.malformed fc = true
   <-> Samples.known (FunctionCall.name fc) /\ FunctionCall.args fc = None)
  /\ (forall s : Mock.State,
        if Tools.malformed fc
        then Mock.executeFunctionCall fc s = (s, inr Eff.TypeError)
        else exists s', Mock.executeFunctionCall fc s = (s', inl Common.ack))
  /\ (forall s : Leaflet.State,
        if Tools.malformed fc
        then Leaflet.executeFunctionCall fc s = (s, inr Eff.TypeError)
        else exists s', Leaflet.executeFunctionCall fc s = (s', inl Common.ack)).
Proof.
  split; [apply ToolFacts.malformed_spec|]. split; intros s.
  - rewrite ToolFacts.mock_exec. unfold Tools.malformed.
    destruct (Tools.toolOf fc), (FunctionCall.args fc); try reflexivity; eauto.
  - rewrite ToolFacts.leaflet_exec. unfold Tools.malformed.
    destruct (Tools.toolOf fc), (FunctionCall.args fc); try reflexivity; eauto.
Qed.

Lemma executor_throws_only_without_args_witness :
  Leaflet.executeFunctionCall Tools.toggleTrafficNoArgs Leaflet.initial
  = (Leaflet.initial, inr Eff.TypeError).
Proof.
  destruct (executor_throws_only_without_args Tools.toggleTrafficNoArgs)
    as (_ & _ & H).
  exact (H Leaflet.initial).
Defined.

(** X2. Running the same tool call twice in a row leaves the state the
    first run reached, with the same outcome; and two calls of different
    tools give the same state in either order. Both revisions. *)
Theorem executor_idempotent_and_commutes :
  (forall fc (s : Mock.State),
      Mock.executeFunctionCall fc (fst (Mock.executeFunctionCall fc s))
      = Mock.executeFunctionCall fc s)
  /\ (forall fc (s : Leaflet.State),
      Leaflet.executeFunctionCall fc (fst (Leaflet.executeFunctionCall fc s))
      = Leaflet.executeFunctionCall fc s)
  /\ (forall fc1 fc2 (s : Mock.State),
      Tools.toolOf fc1 <> Tools.toolOf fc2 ->
      fst (Mock.executeFunctionCall fc2 (fst (Mock.executeFunctionCall fc1 s)))
      = fst (Mock.executeFunctionCall fc1 (fst (Mock.executeFunctionCall fc2 s))))
  /\ (forall fc1 fc2 (s : Leaflet.State),
      Tools.toolOf fc1 <> Tools.toolOf fc2 ->
      fst (Leaflet.executeFunctionCall fc2 (fst (Leaflet.executeFunctionCall fc1 s)))
      = fst (Leaflet.executeFunctionCall fc1
               (fst (Leaflet.executeFunctionCall fc2 s)))).
Proof.
  split; [|split; [|split]].
  - intros fc s. rewrite !ToolFacts.mock_exec.
    destruct (Tools.toolOf fc), (FunctionCall.args fc) as [a|]; try reflexivity.
    destruct (JS.truthy (JS.get a (JS.lit "zoom"))),
      (JS.truthy (JS.get a (JS.lit "focusX"))),
      (JS.truthy (JS.get a (JS.lit "focusY"))); reflexivity.
  - intros fc s. rewrite !ToolFacts.leaflet_exec.
    destruct (Tools.toolOf fc), (FunctionCall.args fc) as [a|]; try reflexivity.
    destruct (JS.truthy (JS.get a (JS.lit "zoom"))),
      (JS.truthy (JS.get a (JS.lit "latitude"))
       && JS.truthy (JS.get a (JS.lit "longitude"))); reflexivity.
  - intros fc1 fc2 s Hd. rewrite !ToolFacts.mock_exec.
    destruct (Tools.toolOf fc1), (Tools.toolOf fc2); try congruence;
      destruct (FunctionCall.args fc1) as [a1|], (FunctionCall.args fc2) as [a2|];
      try reflexivity; cbn [fst];
      try (destruct (JS.truthy (JS.get a1 (JS.lit "zoom"))),
             (JS.truthy (JS.get a1 (JS.lit "focusX"))),
             (JS.truthy (JS.get a1 (JS.lit "focusY"))); reflexivity);
      try (destruct (JS.truthy (JS.get a2 (JS.lit "zoom"))),
             (JS.truthy (JS.get a2 (JS.lit "focusX"))),
             (JS.truthy (JS.get a2 (JS.lit "focusY"))); reflexivity).
  - intros fc1 fc2 s Hd. rewrite !ToolFacts.leaflet_exec.
    destruct (Tools.toolOf fc1), (Tools.toolOf fc2); try congruence;
      destruct (FunctionCall.args fc1) as [a1|], (FunctionCall.args fc2) as [a2|];
      try reflexivity; cbn [fst];
      try (destruct (JS.truthy (JS.get a1 (JS.lit "zoom"))),
             (JS.truthy (JS.get a1 (JS.lit "latitude"))
              && JS.truthy (JS.get a1 (JS.lit "longitude"))); reflexivity);
      try (destruct (JS.truthy (JS.get a2 (JS.lit "zoom"))),
             (JS.truthy (JS.get a2 (JS.lit "latitude"))
              && JS.truthy (JS.get a2 (JS.lit "longitude"))); reflexivity).
Qed.

Lemma executor_idempotent_and_commutes_witness :
  fst (Leaflet.executeFunctionCall (Tools.toggleTraffic true)
         (fst (Leaflet.executeFunctionCall (Tools.setMapLayer "terrain")
                 Leaflet.initial)))
  = fst (Leaflet.executeFunctionCall (Tools.setMapLayer "terrain")
           (fst (Leaflet.executeFunctionCall (Tools.toggleTraffic true)
                   Leaflet.initial))).
Proof.
  destruct executor_idempotent_and_commutes as (_ & _ & _ & H).
  apply H. intros E. discriminate E.
Defined.

(** ** Turns that fail midway *)

Module FailureFacts.
Import JS Common Runs ControllerFacts Tools Turns ToolFacts.

Lemma forEach_ok {S A B} (f : A -> Eff.M S B) (bad : A -> bool) :
  (forall x s, bad x = false -> exists s' b, f x s = (s', inl b)) ->
  forall xs s, forallb (fun x => negb (bad x)) xs = true ->
    Eff.forEach f xs s = (fst (Eff.forEach f xs s), inl tt).
Proof.
  intros Hf xs. induction xs as [|x xs IH]; intros s Hall; [reflexivity|].
  simpl in Hall. apply andb_true_iff in Hall as [Hx Hall].
  apply negb_true_iff in Hx. destruct (Hf x s Hx) as (s' & b & E).
  simpl. unfold Eff.bind. rewrite E. apply IH, Hall.
Qed.

Lemma forEach_stops {S A B} (f : A -> Eff.M S B) (bad : A -> bool) e :
  (forall x s, bad x = false -> exists s' b, f x s = (s', inl b)) ->
  (forall x s, bad x = true -> f x s = (s, inr e)) ->
  forall pre x post s,
    forallb (fun y => negb (bad y)) pre = true -> bad x = true ->
    Eff.forEach f (pre ++ x :: post) s = (fst (Eff.forEach f pre s), inr e).
Proof.
  intros Hok Hbad pre. induction pre as [|y pre IH]; intros x post s Hall Hx.
  - simpl. unfold Eff.bind. now rewrite (Hbad x s Hx).
  - simpl in Hall. apply andb_true_iff in Hall as [Hy Hall].
    apply negb_true_iff in Hy. destruct (Hok y s Hy) as (s' & b & E).
    simpl. unfold Eff.bind. rewrite E. apply IH; assumption.
Qed.

Lemma mock_exec_ok fc (s : Mock.State) :
  malformed fc = false -> exists s' b, Mock.executeFunctionCall fc s = (s', inl b).
Proof.
  intros H. rewrite mock_exec. unfold malformed in H.
  destruct (toolOf fc), (FunctionCall.args fc); try discriminate H; eauto.
Qed.

Lemma mock_exec_bad fc (s : Mock.State) :
  malformed fc = true -> Mock.executeFunctionCall fc s = (s, inr Eff.TypeError).
Proof.
  intros H. rewrite mock_exec. unfold malformed in H.
  destruct (toolOf fc), (FunctionCall.args fc); try discriminate H; reflexivity.
Qed.

Lemma leaflet_exec_ok fc (s : Leaflet.State) :
  malformed fc = false ->
  exists s' b, Leaflet.executeFunctionCall fc s = (s', inl b).
Proof.
  intros H. rewrite leaflet_exec. unfold malformed in H.
  destruct (toolOf fc), (FunctionCall.args fc); try discriminate H; eauto.
Qed.

Lemma leaflet_exec_bad fc (s : Leaflet.State) :
  malformed fc = true ->
  Leaflet.executeFunctionCall fc s = (s, inr Eff.TypeError).
Proof.
  intros H. rewrite leaflet_exec. unfold malformed in H.
  destruct (toolOf fc), (FunctionCall.args fc); try discriminate H; reflexivity.
Qed.

(** The calls of a reply as one loop. *)
Lemma mock_calls r (s : Mock.State) :
  match AskResult.functionCalls r with
  | Some fcs => Eff.forEach Mock.executeFunctionCall fcs
  | None => Eff.ret tt
  end s = Eff.forEach Mock.executeFunctionCall (callsOf r) s.
Proof. unfold callsOf. now destruct (AskResult.functionCalls r). Qed.

Lemma leaflet_calls r (s : Leaflet.State) :
  match AskResult.functionCalls r with
  | Some fcs => Eff.forEach Leaflet.executeFunctionCall fcs
  | None => Eff.ret tt
  end s = Eff.forEach Leaflet.executeFunctionCall (callsOf r) s.
Proof. unfold callsOf. now destruct (AskResult.functionCalls r). Qed.

(** [try] in three stages: the calls, the markers, the message. *)
Lemma mock_applyResponse_stages synth r s :
  Mock.applyResponse synth r s =
  match Eff.forEach Mock.executeFunctionCall (callsOf r) s with
  | (s1, inr e) => (s1, inr e)
  | (s1, inl _) =>
      if wellFormedTitles (AskResult.links r)
      then (Mock.setMessages (fun prev => prev ++ [mockReply r])
              (Mock.setActiveMarkers
                 (fun prev =>
                    prev ++ mapi (newMarker
                                    (Mock.parseRouteData (AskResult.text r)
                                       (AskResult.links r)) synth)
                              0 (AskResult.links r)) s1),
            inl tt)
      else (s1, inr Eff.URIError)
  end.
Proof.
  unfold Mock.applyResponse, Eff.bind. rewrite mock_calls.
  destruct (Eff.forEach Mock.executeFunctionCall (callsOf r) s) as [s1 [u|e]];
    [|reflexivity].
  unfold mockReply, wellFormedTitles.
  destruct (AskResult.links r) as [|l ls] eqn:El.
  - cbn. destruct s1. unfold Mock.setMessages, Mock.setActiveMarkers. cbn.
    now rewrite app_nil_r.
  - unfold newMarkers.
    destruct (forallb (fun l0 => isWellFormed (GroundingLink.title l0)) (l :: ls));
      reflexivity.
Qed.

Lemma leaflet_applyResponse_stages synth r s :
  Leaflet.applyResponse synth r s =
  match Eff.forEach Leaflet.executeFunctionCall (callsOf r) (afterDirective r s) with
  | (s1, inr e) => (s1, inr e)
  | (s1, inl _) =>
      if wellFormedTitles (AskResult.links r)
      then (Leaflet.setMessages (fun prev => prev ++ [leafletReply r])
              (Leaflet.setActiveMarkers
                 (fun prev =>
                    prev ++ mapi (newMarker
                                    (Leaflet.parseRouteData (AskResult.text r)
                                       (AskResult.links r)) synth)
                              0 (AskResult.links r)) s1),
            inl tt)
      else (s1, inr Eff.URIError)
  end.
Proof.
  unfold Leaflet.applyResponse, Eff.bind.
  assert (E0 : Eff.when (includes Leaflet.directive (AskResult.text r))
                 (Eff.modify (Leaflet.setIsChatOpen false)) s
               = (afterDirective r s, inl tt)).
  { unfold afterDirective, Eff.when. destruct (includes _ _); reflexivity. }
  rewrite E0, leaflet_calls.
  destruct (Eff.forEach Leaflet.executeFunctionCall (callsOf r) (afterDirective r s))
    as [s1 [u|e]]; [|reflexivity].
  unfold leafletReply, wellFormedTitles.
  destruct (AskResult.links r) as [|l ls] eqn:El.
  - cbn. destruct s1. unfold Leaflet.setMessages, Leaflet.setActiveMarkers. cbn.
    now rewrite app_nil_r.
  - unfold newMarkers.
    destruct (forallb (fun l0 => isWellFormed (GroundingLink.title l0)) (l :: ls));
      reflexivity.
Qed.

Lemma mock_settle_shape (synth : nat -> Synthetic.t) (outcome : AskOutcome)
    (s : Mock.State) :
      let s' := Mock.handleSend_settle synth outcome s in
      Mock.isProcessing s' = false /\ Mock.input s' = Mock.input s
      /\ ((Mock.messages s' = Mock.messages s ++ [Common.failureMessage]
           /\ Mock.activeMarkers s' = Mock.activeMarkers s)
          \/ exists r,
               outcome = Resolved r
               /\ Mock.messages s' = Mock.messages s ++ [Runs.mockReply r]
               /\ Mock.activeMarkers s'
                  = Mock.activeMarkers s
                    ++ Common.mapi
                         (Common.newMarker
                            (Mock.parseRouteData (AskResult.text r)
                               (AskResult.links r)) synth)
                         0 (AskResult.links r)).
Proof.
  intros s'.
  unfold s', Mock.handleSend_settle, Eff.finally_, Eff.tryCatch.
  destruct outcome as [|r].
  + cbn. auto.
  + rewrite mock_applyResponse_stages.
    pose proof (ControllerFacts.mock_calls_frame (Turns.callsOf r) s) as F.
    destruct (Eff.forEach Mock.executeFunctionCall (Turns.callsOf r) s)
      as [s1 [u|e]]; cbn [fst] in F; unfold Runs.mockChat in F;
      injection F as Fm Fi _ _ _ _ _ Fa.
    * destruct (Turns.wellFormedTitles (AskResult.links r)); cbn;
        rewrite Fm, Fi, Fa; [|auto].
      split; [reflexivity|]. split; [reflexivity|]. right. exists r. auto.
    * cbn. rewrite Fm, Fi, Fa. auto.
Qed.

Lemma leaflet_settle_shape (synth : nat -> Synthetic.t) (outcome : AskOutcome)
    (s : Leaflet.State) :
      let s' := Leaflet.handleSend_settle synth outcome s in
      Leaflet.isProcessing s' = false /\ Leaflet.input s' = Leaflet.input s
      /\ ((Leaflet.messages s' = Leaflet.messages s ++ [Common.failureMessage]
           /\ Leaflet.activeMarkers s' = Leaflet.activeMarkers s)
          \/ exists r,
               outcome = Resolved r
               /\ Leaflet.messages s' = Leaflet.messages s ++ [Runs.leafletReply r]
               /\ Leaflet.activeMarkers s'
                  = Leaflet.activeMarkers s
                    ++ Common.mapi
                         (Common.newMarker
                            (Leaflet.parseRouteData (AskResult.text r)
                               (AskResult.links r)) synth)
                         0 (AskResult.links r)).
Proof.
  intros s'.
  unfold s', Leaflet.handleSend_settle, Eff.finally_, Eff.tryCatch.
  destruct outcome as [|r].
  + cbn. auto.
  + rewrite leaflet_applyResponse_stages.
    pose proof (ControllerFacts.leaflet_calls_frame (Turns.callsOf r)
                  (Turns.afterDirective r s)) as F.
    assert (D : Leaflet.messages (Turns.afterDirective r s) = Leaflet.messages s
                /\ Leaflet.input (Turns.afterDirective r s) = Leaflet.input s
                /\ Leaflet.activeMarkers (Turns.afterDirective r s)
                   = Leaflet.activeMarkers s).
    { unfold Turns.afterDirective. destruct (JS.includes _ _); auto. }
    destruct D as (Dm & Di & Da).
    destruct (Eff.forEach Leaflet.executeFunctionCall (Turns.callsOf r)
                (Turns.afterDirective r s))
      as [s1 [u|e]]; cbn [fst] in F; unfold Runs.leafletChat in F;
      injection F as Fm Fi _ _ _ _ _ _ Fa.
    * destruct (Turns.wellFormedTitles (AskResult.links r)); cbn;
        rewrite Fm, Fi, Fa, Dm, Di, Da; [|auto].
      split; [reflexivity|]. split; [reflexivity|]. right. exists r. auto.
    * cbn. rewrite Fm, Fi, Fa, Dm, Di, Da. auto.
Qed.

End FailureFacts.

(** X3. However a turn settles (the call rejected, a tool call or a title
    made the handler throw, or all went well), exactly one assistant
    message is appended to the transcript: the reply or the failure text.
    The markers are extended by the turn's markers with the reply and left
    alone with the failure text; the processing flag ends false and the
    input is not touched. Both revisions. *)
Theorem settle_appends_one_message (synth : nat -> Synthetic.t)
    (outcome : AskOutcome) :
  (forall s : Mock.State,
      let s' := Mock.handleSend_settle synth outcome s in
      Mock.isProcessing s' = false /\ Mock.input s' = Mock.input s
      /\ ((Mock.messages s' = Mock.messages s ++ [Common.failureMessage]
           /\ Mock.activeMarkers s' = Mock.activeMarkers s)
          \/ exists r,
               outcome = Resolved r
               /\ Mock.messages s' = Mock.messages s ++ [Runs.mockReply r]
               /\ Mock.activeMarkers s'
                  = Mock.activeMarkers s
                    ++ Common.mapi
                         (Common.newMarker
                            (Mock.parseRouteData (AskResult.text r)
                               (AskResult.links r)) synth)
                         0 (AskResult.links r)))
  /\ (forall s : Leaflet.State,
      let s' := Leaflet.handleSend_settle synth outcome s in
      Leaflet.isProcessing s' = false /\ Leaflet.input s' = Leaflet.input s
      /\ ((Leaflet.messages s' = Leaflet.messages s ++ [Common.failureMessage]
           /\ Leaflet.activeMarkers s' = Leaflet.activeMarkers s)
          \/ exists r,
               outcome = Resolved r
               /\ Leaflet.messages s' = Leaflet.messages s ++ [Runs.leafletReply r]
               /\ Leaflet.activeMarkers s'
                  = Leaflet.activeMarkers s
                    ++ Common.mapi
                         (Common.newMarker
                            (Leaflet.parseRouteData (AskResult.text r)
                               (AskResult.links r)) synth)
                         0 (AskResult.links r))).
Proof.
  split; intros s.
  - apply FailureFacts.mock_settle_shape.
  - apply FailureFacts.leaflet_settle_shape.
Qed.

(** X4. When a tool call of the reply throws, the turn ends with the
    failure text, but the calls before it have been carried out and stay:
    the state is the one those calls produced (after the directive, in the
    Leaflet revision), plus the failure message; the calls after it are not
    run. Both revisions. *)
Theorem failed_call_keeps_earlier_calls (synth : nat -> Synthetic.t)
    (r : AskResult.t) (pre : list FunctionCall.t) (bad : FunctionCall.t)
    (post : list FunctionCall.t) :
  AskResult.functionCalls r = Some (pre ++ bad :: post) ->
  forallb (fun fc => negb (Tools.malformed fc)) pre = true ->
  Tools.malformed bad = true ->
  (forall s,
      Mock.handleSend_settle synth (Resolved r) s
      = Mock.setIsProcessing false
          (Mock.setMessages (fun prev => prev ++ [Common.failureMessage])
             (fst (Eff.forEach Mock.executeFunctionCall pre s))))
  /\ (forall s,
      Leaflet.handleSend_settle synth (Resolved r) s
      = Leaflet.setIsProcessing false
          (Leaflet.setMessages (fun prev => prev ++ [Common.failureMessage])
             (fst (Eff.forEach Leaflet.executeFunctionCall pre
                     (Turns.afterDirective r s))))).
Proof.
  intros Hc Hpre Hbad.
  assert (Ec : Turns.callsOf r = pre ++ bad :: post)
    by (unfold Turns.callsOf; now rewrite Hc).
  split; intros s.
  - unfold Mock.handleSend_settle, Eff.finally_, Eff.tryCatch.
    rewrite FailureFacts.mock_applyResponse_stages, Ec.
    rewrite (FailureFacts.forEach_stops Mock.executeFunctionCall Tools.malformed
               Eff.TypeError FailureFacts.mock_exec_ok FailureFacts.mock_exec_bad
               pre bad post s Hpre Hbad).
    reflexivity.
  - unfold Leaflet.handleSend_settle, Eff.finally_, Eff.tryCatch.
    rewrite FailureFacts.leaflet_applyResponse_stages, Ec.
    rewrite (FailureFacts.forEach_stops Leaflet.executeFunctionCall Tools.malformed
               Eff.TypeError FailureFacts.leaflet_exec_ok
               FailureFacts.leaflet_exec_bad
               pre bad post (Turns.afterDirective r s) Hpre Hbad).
    reflexivity.
Qed.

Lemma failed_call_keeps_earlier_calls_witness :
  let s' := Leaflet.handleSend_settle Samples.synth (Resolved Tools.halfApplied)
              Samples.leafletWaiting in
  Leaflet.activeLayer s' = JS.JStr (JS.lit "satellite")
  /\ Leaflet.messages s'
     = [Common.userMessage (JS.lit "show map"); Common.failureMessage].
Proof.
  destruct (failed_call_keeps_earlier_calls Samples.synth Tools.halfApplied
              [Tools.setMapLayer "satellite"] Tools.toggleTrafficNoArgs []
              eq_refl eq_refl eq_refl) as [_ H].
  cbv zeta. rewrite (H Samples.leafletWaiting). split; reflexivity.
Defined.

(** X5. When the title of one link has a lone surrogate, no marker is
    added, not even for the other links: the turn ends with the failure
    text, while the tool calls of the reply, which ran before, stay.
    Both revisions. *)
Theorem bad_title_drops_all_markers (synth : nat -> Synthetic.t)
    (r : AskResult.t) :
  forallb (fun fc => negb (Tools.malformed fc)) (Turns.callsOf r) = true ->
  Turns.wellFormedTitles (AskResult.links r) = false ->
  (forall s,
      Mock.handleSend_settle synth (Resolved r) s
      = Mock.setIsProcessing false
          (Mock.setMessages (fun prev => prev ++ [Common.failureMessage])
             (fst (Eff.forEach Mock.executeFunctionCall (Turns.callsOf r) s)))
      /\ Mock.activeMarkers (Mock.handleSend_settle synth (Resolved r) s)
         = Mock.activeMarkers s)
  /\ (forall s,
      Leaflet.handleSend_settle synth (Resolved r) s
      = Leaflet.setIsProcessing false
          (Leaflet.setMessages (fun prev => prev ++ [Common.failureMessage])
             (fst (Eff.forEach Leaflet.executeFunctionCall (Turns.callsOf r)
                     (Turns.afterDirective r s))))
      /\ Leaflet.activeMarkers (Leaflet.handleSend_settle synth (Resolved r) s)
         = Leaflet.activeMarkers s).
Proof.
  intros Hcalls Htitles. split; intros s.
  - assert (E : Mock.handleSend_settle synth (Resolved r) s
                = Mock.setIsProcessing false
                    (Mock.setMessages (fun prev => prev ++ [Common.failureMessage])
                       (fst (Eff.forEach Mock.executeFunctionCall
                               (Turns.callsOf r) s)))).
    { unfold Mock.handleSend_settle, Eff.finally_, Eff.tryCatch.
      rewrite FailureFacts.mock_applyResponse_stages.
      rewrite (FailureFacts.forEach_ok Mock.executeFunctionCall Tools.malformed
                 FailureFacts.mock_exec_ok (Turns.callsOf r) s Hcalls).
      rewrite Htitles. reflexivity. }
    split; [exact E|]. rewrite E. cbn.
    pose proof (ControllerFacts.mock_calls_frame (Turns.callsOf r) s) as F.
    unfold Runs.mockChat in F. now injection F.
  - assert (E : Leaflet.handleSend_settle synth (Resolved r) s
                = Leaflet.setIsProcessing false
                    (Leaflet.setMessages
                       (fun prev => prev ++ [Common.failureMessage])
                       (fst (Eff.forEach Leaflet.executeFunctionCall
                               (Turns.callsOf r) (Turns.afterDirective r s))))).
    { unfold Leaflet.handleSend_settle, Eff.finally_, Eff.tryCatch.
      rewrite FailureFacts.leaflet_applyResponse_stages.
      rewrite (FailureFacts.forEach_ok Leaflet.executeFunctionCall Tools.malformed
                 FailureFacts.leaflet_exec_ok (Turns.callsOf r)
                 (Turns.afterDirective r s) Hcalls).
      rewrite Htitles. reflexivity. }
    split; [exact E|]. rewrite E. cbn.
    pose proof (ControllerFacts.leaflet_calls_frame (Turns.callsOf r)
                  (Turns.afterDirective r s)) as F.
    unfold Runs.leafletChat in F. injection F as _ _ _ _ _ _ _ _ Fa.
    rewrite Fa. unfold Turns.afterDirective. now destruct (JS.includes _ _).
Qed.

Lemma bad_title_drops_all_markers_witness :
  let s' := Leaflet.handleSend_settle Samples.synth (Resolved Tools.badTitleReply)
              Samples.leafletWaiting in
  Leaflet.activeMarkers s' = []
  /\ Leaflet.activeLayer s' = JS.JStr (JS.lit "terrain")
  /\ Leaflet.messages s'
     = [Common.userMessage (JS.lit "show map"); Common.failureMessage].
Proof.
  destruct (bad_title_drops_all_markers Samples.synth Tools.badTitleReply
              eq_refl eq_refl) as [_ H].
  destruct (H Samples.leafletWaiting) as [E Ha].
  cbv zeta. split; [exact Ha|]. rewrite E. split; reflexivity.
Defined.

(** ** The transcript and what is sent to the model *)

Module TranscriptFacts.
Import JS Common Runs Conversation.

Lemma takesTurns_snoc msgs msg :
  takesTurns msgs ->
  Message.role msg = (if Nat.even (length msgs) then user else assistant) ->
  takesTurns (msgs ++ [msg]).
Proof.
  intros H Hr i x Hi.
  destruct (Nat.lt_ge_cases i (length msgs)) as [Hlt | Hge].
  - rewrite nth_error_app1 in Hi by exact Hlt. now apply H.
  - assert (Hb : nth_error (msgs ++ [msg]) i <> None) by congruence.
    apply nth_error_Some in Hb. rewrite length_app in Hb. simpl in Hb.
    assert (i = length msgs) by lia. subst i.
    rewrite nth_error_app2, Nat.sub_diag in Hi by lia.
    injection Hi as <-. exact Hr.
Qed.

Lemma inStep_user msgs text :
  inStep msgs false -> inStep (msgs ++ [userMessage text]) true.
Proof.
  intros [Ht Hp]. split.
  - apply takesTurns_snoc; [exact Ht|]. simpl.
    rewrite <- Nat.negb_odd, <- Hp. reflexivity.
  - rewrite length_app, Nat.add_1_r, Nat.odd_succ, <- Nat.negb_odd, <- Hp.
    reflexivity.
Qed.

Lemma inStep_assistant msgs msg :
  inStep msgs true -> Message.role msg = assistant ->
  inStep (msgs ++ [msg]) false.
Proof.
  intros [Ht Hp] Hr. split.
  - apply takesTurns_snoc; [exact Ht|].
    rewrite <- Nat.negb_odd, <- Hp. exact Hr.
  - rewrite length_app, Nat.add_1_r, Nat.odd_succ, <- Nat.negb_odd, <- Hp.
    reflexivity.
Qed.

Lemma mock_start_accepted render t s s' call :
  Mock.handleSend_start render t s = (s', Some call) ->
  Mock.isProcessing render = false
  /\ Mock.messages s' = Mock.messages s ++ [userMessage (Request.prompt call)]
  /\ Mock.isProcessing s' = true
  /\ Request.history call = historyOf (Mock.messages render)
  /\ Request.prompt call = finalInputOf t (Mock.input render)
  /\ Request.location call = Mock.userLocation render.
Proof.
  unfold Mock.handleSend_start. intros H.
  destruct (isBlank _) eqn:Eb; [discriminate H|].
  destruct (Mock.isProcessing render) eqn:Ep; [discriminate H|].
  injection H as <- <-. cbn. repeat split; auto.
Qed.

Lemma leaflet_start_accepted render t s s' call :
  Leaflet.handleSend_start render t s = (s', Some call) ->
  Leaflet.isProcessing render = false
  /\ Leaflet.messages s' = Leaflet.messages s ++ [userMessage (Request.prompt call)]
  /\ Leaflet.isProcessing s' = true
  /\ Request.history call = historyOf (Leaflet.messages render)
  /\ Request.prompt call = finalInputOf t (Leaflet.input render)
  /\ Request.location call = Some (Leaflet.userLocation render).
Proof.
  unfold Leaflet.handleSend_start. intros H.
  destruct (isBlank _) eqn:Eb; [discriminate H|].
  destruct (Leaflet.isProcessing render) eqn:Ep; [discriminate H|].
  injection H as <- <-. cbn. repeat split; auto.
Qed.

Lemma countRole_snoc r msgs msg :
  countRole r (msgs ++ [msg])
  = countRole r msgs
    + match Message.role msg, r with
      | user, user | assistant, assistant => 1
      | _, _ => 0
      end.
Proof.
  unfold countRole. rewrite filter_app, length_app. cbn [filter].
  destruct (Message.role msg), r; reflexivity.
Qed.

Lemma firstn_snoc {A} k (l : list A) x :
  firstn k (l ++ [x]) = if k <=? length l then firstn k l else l ++ [x].
Proof.
  rewrite firstn_app. destruct (Nat.leb_spec k (length l)) as [H | H].
  - replace (k - length l) with 0 by lia. apply app_nil_r.
  - rewrite firstn_all2 by lia.
    destruct (k - length l) as [|d] eqn:E; [lia|]. cbn. now rewrite firstn_nil.
Qed.

Lemma answers_user pending msgs text :
  answers pending msgs -> answers (S pending) (msgs ++ [userMessage text]).
Proof.
  intros [Hc Hk]. split.
  - rewrite !countRole_snoc. cbn. lia.
  - intros k. rewrite firstn_snoc. destruct (k <=? length msgs); [apply Hk|].
    rewrite !countRole_snoc. cbn. lia.
Qed.

Lemma answers_assistant pending msgs msg :
  answers (S pending) msgs -> Message.role msg = assistant ->
  answers pending (msgs ++ [msg]).
Proof.
  intros [Hc Hk] Hr. split.
  - rewrite !countRole_snoc, Hr. lia.
  - intros k. rewrite firstn_snoc. destruct (k <=? length msgs); [apply Hk|].
    rewrite !countRole_snoc, Hr. lia.
Qed.

(** What a run keeps: the transcript answers in turn; the flag is set only
    while a call is pending; and, as long as no invocation was accepted
    with a turn in flight, user and assistant take turns. *)
Lemma mock_run_inv stale pending s :
  mockRun stale pending s ->
  answers pending (Mock.messages s)
  /\ (Mock.isProcessing s = true -> 0 < pending)
  /\ (stale = false ->
      inStep (Mock.messages s) (Mock.isProcessing s)
      /\ pending = if Mock.isProcessing s then 1 else 0).
Proof.
  induction 1 as [|render t stale pending s s' call Hr IH Hs
                  |synth outcome stale pending s Hr IH|v stale pending s Hr IH
                  |fc stale pending s Hr IH|id up stale pending s Hr IH
                  |stale pending s Hr IH|l stale pending s Hr IH
                  |stale pending s Hr IH|stale pending s Hr IH].
  - split; [|split].
    + split; [reflexivity|]. intros k. now rewrite firstn_nil.
    + discriminate.
    + intros _. split; [|reflexivity].
      split; [intros [|i] msg Hi; discriminate Hi | reflexivity].
  - apply mock_start_accepted in Hs as (_ & Hm & Hp' & _).
    destruct IH as (Ha & Hb & Hc). rewrite Hm, Hp'.
    split; [now apply answers_user|]. split; [lia|].
    intros E. apply orb_false_iff in E as [E1 E2].
    destruct (Hc E1) as [Hi Hn]. rewrite E2 in Hi, Hn.
    split; [now apply inStep_user | now rewrite Hn].
  - destruct IH as (Ha & Hb & Hc).
    destruct (FailureFacts.mock_settle_shape synth outcome s)
      as (Hf & _ & [[Hm _] | (r & _ & Hm & _)]); rewrite Hf, Hm.
    + split; [now apply answers_assistant|]. split; [discriminate|].
      intros E. destruct (Hc E) as [Hi Hn].
      destruct (Mock.isProcessing s); [|discriminate Hn].
      split; [now apply inStep_assistant | lia].
    + split; [now apply answers_assistant|]. split; [discriminate|].
      intros E. destruct (Hc E) as [Hi Hn].
      destruct (Mock.isProcessing s); [|discriminate Hn].
      split; [now apply inStep_assistant | lia].
  - exact IH.
  - pose proof (ControllerFacts.mock_execute_frame fc s) as F.
    unfold mockChat in F. injection F as Fm _ _ _ _ _ Fp _. now rewrite Fm, Fp.
  - exact IH.
  - unfold MockHandlers.toggleDrivingMode.
    destruct (negb (Mock.isDrivingMode s)); [|exact IH].
    destruct (negb (Mock.isVoiceMode s)); exact IH.
  - exact IH.
  - exact IH.
  - exact IH.
Qed.

Lemma leaflet_run_inv stale pending s :
  leafletRun stale pending s ->
  answers pending (Leaflet.messages s)
  /\ (Leaflet.isProcessing s = true -> 0 < pending)
  /\ (stale = false ->
      inStep (Leaflet.messages s) (Leaflet.isProcessing s)
      /\ pending = if Leaflet.isProcessing s then 1 else 0).
Proof.
  induction 1 as [|render t stale pending s s' call Hr IH Hs
                  |synth outcome stale pending s Hr IH|v stale pending s Hr IH
                  |fc stale pending s Hr IH|id up stale pending s Hr IH
                  |stale pending s Hr IH|l stale pending s Hr IH
                  |stale pending s Hr IH|stale pending s Hr IH].
  - split; [|split].
    + split; [reflexivity|]. intros k. now rewrite firstn_nil.
    + discriminate.
    + intros _. split; [|reflexivity].
      split; [intros [|i] msg Hi; discriminate Hi | reflexivity].
  - apply leaflet_start_accepted in Hs as (_ & Hm & Hp' & _).
    destruct IH as (Ha & Hb & Hc). rewrite Hm, Hp'.
    split; [now apply answers_user|]. split; [lia|].
    intros E. apply orb_false_iff in E as [E1 E2].
    destruct (Hc E1) as [Hi Hn]. rewrite E2 in Hi, Hn.
    split; [now apply inStep_user | now rewrite Hn].
  - destruct IH as (Ha & Hb & Hc).
    destruct (FailureFacts.leaflet_settle_shape synth outcome s)
      as (Hf & _ & [[Hm _] | (r & _ & Hm & _)]); rewrite Hf, Hm.
    + split; [now apply answers_assistant|]. split; [discriminate|].
      intros E. destruct (Hc E) as [Hi Hn].
      destruct (Leaflet.isProcessing s); [|discriminate Hn].
      split; [now apply inStep_assistant | lia].
    + split; [now apply answers_assistant|]. split; [discriminate|].
      intros E. destruct (Hc E) as [Hi Hn].
      destruct (Leaflet.isProcessing s); [|discriminate Hn].
      split; [now apply inStep_assistant | lia].
  - exact IH.
  - pose proof (ControllerFacts.leaflet_execute_frame fc s) as F.
    unfold leafletChat in F. injection F as Fm _ _ _ _ _ Fp _ _.
    now rewrite Fm, Fp.
  - exact IH.
  - unfold LeafletHandlers.toggleDrivingMode.
    destruct (negb (Leaflet.isDrivingMode s)); [|exact IH].
    destruct (negb (Leaflet.isVoiceMode s)); exact IH.
  - exact IH.
  - exact IH.
  - exact IH.
Qed.

Lemma contents_of_transcript msgs prompt :
  inStep msgs false ->
  contentsTakeTurns (GeminiRequest.contentsOf prompt (historyOf msgs))
  /\ Nat.odd (length (GeminiRequest.contentsOf prompt (historyOf msgs))) = true.
Proof.
  intros [Ht Hp]. unfold GeminiRequest.contentsOf, historyOf. rewrite map_map.
  split.
  - intros i turn Hi.
    destruct (Nat.lt_ge_cases i (length msgs)) as [Hlt | Hge].
    + rewrite nth_error_app1 in Hi by (now rewrite length_map).
      rewrite nth_error_map in Hi.
      destruct (nth_error msgs i) as [msg|] eqn:E; [|discriminate Hi].
      injection Hi as <-. cbn. rewrite (Ht i msg E).
      now destruct (Nat.even i).
    + match type of Hi with
      | nth_error ?l _ = _ =>
          assert (Hb : nth_error l i <> None) by (rewrite Hi; discriminate)
      end.
      apply nth_error_Some in Hb. rewrite length_app, length_map in Hb.
      simpl in Hb. assert (i = length msgs) by lia. subst i.
      rewrite nth_error_app2, length_map, Nat.sub_diag in Hi
        by (rewrite length_map; lia).
      injection Hi as <-. cbn. rewrite <- Nat.negb_odd, <- Hp. reflexivity.
  - rewrite length_app, length_map, Nat.add_1_r, Nat.odd_succ, <- Nat.negb_odd,
      <- Hp. reflexivity.
Qed.

End TranscriptFacts.

(** X6. In every run of the conversation (without the close button),
    whatever renders the invoked handlers belong to: every assistant
    message of the transcript answers a user message before it, the user
    messages not yet answered are as many as the model calls that have not
    settled, and the processing flag is set only while a call is pending.
    As long as no invocation was accepted while the state had a turn in
    flight, user and assistant messages take turns, the user first, at
    most one call is pending, and the flag is set exactly when the
    transcript ends with a user message. Both revisions. *)
Theorem transcript_answers_in_turn :
  (forall stale pending s, Conversation.mockRun stale pending s ->
     Conversation.answers pending (Mock.messages s)
     /\ (Mock.isProcessing s = true -> 0 < pending)
     /\ (stale = false ->
         Conversation.takesTurns (Mock.messages s)
         /\ Mock.isProcessing s = Nat.odd (length (Mock.messages s))
         /\ pending = if Mock.isProcessing s then 1 else 0))
  /\ (forall stale pending s, Conversation.leafletRun stale pending s ->
     Conversation.answers pending (Leaflet.messages s)
     /\ (Leaflet.isProcessing s = true -> 0 < pending)
     /\ (stale = false ->
         Conversation.takesTurns (Leaflet.messages s)
         /\ Leaflet.isProcessing s = Nat.odd (length (Leaflet.messages s))
         /\ pending = if Leaflet.isProcessing s then 1 else 0)).
Proof.
  split; intros stale pending s H.
  - destruct (TranscriptFacts.mock_run_inv stale pending s H) as (Ha & Hb & Hc).
    split; [exact Ha|]. split; [exact Hb|].
    intros E. destruct (Hc E) as [[Ht Hp] Hn]. auto.
  - destruct (TranscriptFacts.leaflet_run_inv stale pending s H) as (Ha & Hb & Hc).
    split; [exact Ha|]. split; [exact Hb|].
    intros E. destruct (Hc E) as [[Ht Hp] Hn]. auto.
Qed.

(** The handler of the first render invoked twice: two user messages wait
    for their two answers. *)
Lemma transcript_answers_in_turn_witness :
  let text := Some (JS.lit "show map") in
  let s2 := fst (Mock.handleSend_start Mock.initial text Samples.mockWaiting) in
  Conversation.answers 2 (Mock.messages s2)
  /\ (Mock.isProcessing s2 = true -> 0 < 2).
Proof.
  intros text s2.
  assert (R : Conversation.mockRun true 2 s2).
  { apply (Conversation.mock_submit Mock.initial text false 1 Samples.mockWaiting
             s2 (Request.mk (JS.lit "show map") None [])).
    - apply (Conversation.mock_submit Mock.initial text false 0 Mock.initial
               Samples.mockWaiting (Request.mk (JS.lit "show map") None [])).
      + apply Conversation.mock_start.
      + reflexivity.
    - reflexivity. }
  destruct (proj1 transcript_answers_in_turn true 2 s2 R) as (Ha & Hb & _).
  split; [exact Ha | exact Hb].
Defined.

(** X7. The turns [askMaps] hands to the model for an accepted invocation
    are the transcript of the render the handler belongs to, assistant
    messages as model turns, followed by the prompt once as the last user
    turn (the user message appended to the transcript is not in that
    render, so it is not sent twice); the prompt is that user message, and
    the retrieval location is the user location of the render (always
    there in the Leaflet revision, only after geolocation in the schematic
    one). When the render's transcript takes turns, so do the turns sent,
    starting and ending with a user turn. Both revisions. *)
Theorem request_contents :
  (forall render textToSend s s' call,
      Mock.handleSend_start render textToSend s = (s', Some call) ->
      GeminiRequest.contentsOfRequest call
      = map (fun msg => (match Message.role msg with
                         | assistant => JS.lit "model"
                         | user => JS.lit "user"
                         end, Message.content msg)) (Mock.messages render)
        ++ [(JS.lit "user", Request.prompt call)]
      /\ Request.prompt call = Common.finalInputOf textToSend (Mock.input render)
      /\ Mock.messages s'
         = Mock.messages s ++ [Common.userMessage (Request.prompt call)]
      /\ GeminiRequest.toolConfigOf (Request.location call)
         = option_map (fun l => (Location.lat l, Location.lng l))
             (Mock.userLocation render)
      /\ (Conversation.inStep (Mock.messages render) (Mock.isProcessing render) ->
          Conversation.contentsTakeTurns (GeminiRequest.contentsOfRequest call)
          /\ Nat.odd (length (GeminiRequest.contentsOfRequest call)) = true))
  /\ (forall render textToSend s s' call,
      Leaflet.handleSend_start render textToSend s = (s', Some call) ->
      GeminiRequest.contentsOfRequest call
      = map (fun msg => (match Message.role msg with
                         | assistant => JS.lit "model"
                         | user => JS.lit "user"
                         end, Message.content msg)) (Leaflet.messages render)
        ++ [(JS.lit "user", Request.prompt call)]
      /\ Request.prompt call = Common.finalInputOf textToSend (Leaflet.input render)
      /\ Leaflet.messages s'
         = Leaflet.messages s ++ [Common.userMessage (Request.prompt call)]
      /\ GeminiRequest.toolConfigOf (Request.location call)
         = Some (Location.lat (Leaflet.userLocation render),
                 Location.lng (Leaflet.userLocation render))
      /\ (Conversation.inStep (Leaflet.messages render)
            (Leaflet.isProcessing render) ->
          Conversation.contentsTakeTurns (GeminiRequest.contentsOfRequest call)
          /\ Nat.odd (length (GeminiRequest.contentsOfRequest call)) = true)).
Proof.
  split; intros render t s s' call H.
  - apply TranscriptFacts.mock_start_accepted in H as (Hp & Hm & _ & Hh & Hf & Hl).
    unfold GeminiRequest.contentsOfRequest. rewrite Hh, Hl.
    split; [|split; [exact Hf|split; [exact Hm|split]]].
    + unfold GeminiRequest.contentsOf, Common.historyOf. now rewrite map_map.
    + unfold GeminiRequest.toolConfigOf. now destruct (Mock.userLocation render).
    + intros Hr. apply TranscriptFacts.contents_of_transcript.
      now rewrite <- Hp.
  - apply TranscriptFacts.leaflet_start_accepted in H
      as (Hp & Hm & _ & Hh & Hf & Hl).
    unfold GeminiRequest.contentsOfRequest. rewrite Hh, Hl.
    split; [|split; [exact Hf|split; [exact Hm|split]]].
    + unfold GeminiRequest.contentsOf, Common.historyOf. now rewrite map_map.
    + reflexivity.
    + intros Hr. apply TranscriptFacts.contents_of_transcript.
      now rewrite <- Hp.
Qed.

(** A second turn asked from the render made after the first one failed. *)
Lemma request_contents_witness :
  GeminiRequest.contentsOfRequest
    (Request.mk (JS.lit "and a cafe") None
       (Common.historyOf
          (Mock.messages
             (Mock.handleSend_settle Samples.synth Rejected Samples.mockWaiting))))
  = [(JS.lit "user", JS.lit "show map");
     (JS.lit "model", Common.failureText);
     (JS.lit "user", JS.lit "and a cafe")].
Proof.
  destruct (proj1 request_contents
              (Mock.handleSend_settle Samples.synth Rejected Samples.mockWaiting)
              (Some (JS.lit "and a cafe"))
              (Mock.handleSend_settle Samples.synth Rejected Samples.mockWaiting)
              _ _ eq_refl) as [H _].
  exact H.
Defined.

(** ** The close button and the driving-mode button *)

(** X8. The close button of the chat empties the transcript, the markers
    and the input and closes chat and voice, but it leaves the processing
    flag, the map view and the driving mode as they are. Pressed while a
    turn is in flight it does not cancel the turn: when the turn settles,
    the transcript is that one assistant message alone, with no user
    message before it, and (on success) the markers are the turn's
    markers. Both revisions. *)
Theorem close_does_not_cancel_turn (synth : nat -> Synthetic.t)
    (outcome : AskOutcome) :
  (forall s : Mock.State,
      let s0 := MockHandlers.reset s in
      let s' := Mock.handleSend_settle synth outcome s0 in
      Mock.isProcessing s0 = Mock.isProcessing s
      /\ Mock.mapView s0 = Mock.mapView s
      /\ Mock.isDrivingMode s0 = Mock.isDrivingMode s
      /\ Mock.messages s0 = [] /\ Mock.activeMarkers s0 = []
      /\ Mock.input s0 = [] /\ Mock.isChatOpen s0 = false
      /\ Mock.isVoiceMode s0 = false
      /\ exists msg, Mock.messages s' = [msg] /\ Message.role msg = assistant
           /\ (msg = Common.failureMessage \/
               exists r, outcome = Resolved r /\ msg = Runs.mockReply r
                 /\ Mock.activeMarkers s'
                    = Common.mapi
                        (Common.newMarker
                           (Mock.parseRouteData (AskResult.text r)
                              (AskResult.links r)) synth)
                        0 (AskResult.links r)))
  /\ (forall s : Leaflet.State,
      let s0 := LeafletHandlers.reset s in
      let s' := Leaflet.handleSend_settle synth outcome s0 in
      Leaflet.isProcessing s0 = Leaflet.isProcessing s
      /\ Leaflet.mapView s0 = Leaflet.mapView s
      /\ Leaflet.isDrivingMode s0 = Leaflet.isDrivingMode s
      /\ Leaflet.messages s0 = [] /\ Leaflet.activeMarkers s0 = []
      /\ Leaflet.input s0 = [] /\ Leaflet.isChatOpen s0 = false
      /\ Leaflet.isVoiceMode s0 = false
      /\ exists msg, Leaflet.messages s' = [msg] /\ Message.role msg = assistant
           /\ (msg = Common.failureMessage \/
               exists r, outcome = Resolved r /\ msg = Runs.leafletReply r
                 /\ Leaflet.activeMarkers s'
                    = Common.mapi
                        (Common.newMarker
                           (Leaflet.parseRouteData (AskResult.text r)
                              (AskResult.links r)) synth)
                        0 (AskResult.links r))).
Proof.
  split; intros s s0 s'.
  - repeat (split; [reflexivity|]).
    destruct (FailureFacts.mock_settle_shape synth outcome s0)
      as (_ & _ & [[Hm _] | (r & Ho & Hm & Ha)]); fold s' in Hm.
    + exists Common.failureMessage. auto.
    + fold s' in Ha. exists (Runs.mockReply r).
      split; [exact Hm|]. split; [reflexivity|]. right. exists r. auto.
  - repeat (split; [reflexivity|]).
    destruct (FailureFacts.leaflet_settle_shape synth outcome s0)
      as (_ & _ & [[Hm _] | (r & Ho & Hm & Ha)]); fold s' in Hm.
    + exists Common.failureMessage. auto.
    + fold s' in Ha. exists (Runs.leafletReply r).
      split; [exact Hm|]. split; [reflexivity|]. right. exists r. auto.
Qed.



(** ** Links, markers and the active route *)

Module LinkFacts.
Import JS Common GeminiService Handlers.

Lemma orString_not_nil a b : b <> [] -> orString a b <> [].
Proof. intros Hb. destruct a as [[|c s]|]; simpl; auto; discriminate. Qed.

Lemma extractLinks_app a b :
  extractLinks (Some (a ++ b)) = extractLinks (Some a) ++ extractLinks (Some b).
Proof. unfold extractLinks. apply flat_map_app. Qed.

Lemma extractLinks_nonempty chunks :
  Forall (fun l => GroundingLink.uri l <> [] /\ GroundingLink.title l <> [])
         (extractLinks chunks).
Proof.
  destruct chunks as [cs|]; [|constructor]. simpl.
  induction cs as [|chunk cs IH]; simpl; [constructor|].
  destruct chunk as [[[[|c u]|] t]|]; simpl; try exact IH.
  constructor; [|exact IH]. simpl. split; [discriminate|].
  apply orString_not_nil. discriminate.
Qed.

(** The loop of [askMaps] gives the links of the chunks that have a uri. *)
Lemma extractLinks_chunks cs :
  extractLinks (Some cs) = map ChunkLinks.linkOf (filter ChunkLinks.hasUri cs).
Proof.
  induction cs as [|chunk cs IH]; [reflexivity|].
  change (chunk :: cs) with ([chunk] ++ cs).
  rewrite extractLinks_app, IH. cbn [filter app].
  destruct chunk as [[[[|c u]|] [[|d t]|]]|]; reflexivity.
Qed.

Lemma extractLinks_length cs : length (extractLinks (Some cs)) <= length cs.
Proof.
  induction cs as [|chunk cs IH]; simpl; [lia|].
  rewrite length_app.
  destruct chunk as [[[[|c u]|] t]|]; simpl in *; lia.
Qed.

Lemma scanBack_lastRoute msgs :
  forall acc, lastRoute acc msgs
              = match scanBack (rev msgs) with Some r => Some r | None => acc end.
Proof.
  induction msgs as [|msg msgs IH]; intros acc; simpl; [reflexivity|].
  rewrite IH.
  assert (A : forall l, scanBack (l ++ [msg])
                        = match scanBack l with
                          | Some r => Some r
                          | None => Message.route msg
                          end).
  { induction l as [|x l IHl]; simpl.
    - now destruct (Message.route msg).
    - destruct (Message.route x); [reflexivity | exact IHl]. }
  rewrite A. destruct (scanBack (rev msgs)); [reflexivity|].
  now destruct (Message.route msg).
Qed.

Lemma activeRouteLoop_snoc msgs msg :
  activeRouteLoop (msgs ++ [msg])
  = match Message.route msg with
    | Some r => Some r
    | None => activeRouteLoop msgs
    end.
Proof. unfold activeRouteLoop. now rewrite rev_app_distr. Qed.

Lemma id_eqb_eq a b : id_eqb a b = true <-> a = b.
Proof.
  unfold id_eqb. destruct a as [t i], b as [t' i']; simpl.
  rewrite andb_true_iff, N.eqb_eq, Nat.eqb_eq. split.
  - intros [-> ->]. reflexivity.
  - intros H. injection H as -> ->. auto.
Qed.

End LinkFacts.

(** X10. The links [askMaps] returns are exactly the grounding chunks that
    have a non-empty maps uri, in chunk order, each with the uri of its
    chunk and with the chunk's title, or View on Maps when the title is
    absent or empty; there are none when the response has no grounding
    chunks. So there are never more links than chunks, the links of two
    chunk lists put together are the links of each put together, every
    link has a non-empty uri and a non-empty title, and a route parsed from
    what [askMaps] returns has no empty stop, in both revisions. *)
Theorem links_are_named (response : GeminiService.Response.t)
    (r : AskResult.t) :
  GeminiService.askMaps (Some response) = Resolved r ->
  (forall cs, GeminiService.Response.groundingChunks response = Some cs ->
     AskResult.links r = map ChunkLinks.linkOf (filter ChunkLinks.hasUri cs))
  /\ (GeminiService.Response.groundingChunks response = None ->
        AskResult.links r = [])
  /\ Forall (fun l => GroundingLink.uri l <> [] /\ GroundingLink.title l <> [])
         (AskResult.links r)
  /\ (forall cs, GeminiService.Response.groundingChunks response = Some cs ->
        length (AskResult.links r) <= length cs)
  /\ (forall a b,
        GeminiService.Response.groundingChunks response = Some (a ++ b) ->
        AskResult.links r
        = GeminiService.extractLinks (Some a) ++ GeminiService.extractLinks (Some b))
  /\ (forall route,
        Mock.parseRouteData (AskResult.text r) (AskResult.links r) = Some route ->
        Forall (fun stop => stop <> []) (Route.stops route))
  /\ (forall route,
        Leaflet.parseRouteData (AskResult.text r) (AskResult.links r) = Some route ->
        Forall (fun stop => stop <> []) (Route.stops route)).
Proof.
  intros H. unfold GeminiService.askMaps in H. injection H as <-. cbn.
  pose proof (LinkFacts.extractLinks_nonempty
                (GeminiService.Response.groundingChunks response)) as N.
  assert (S : Forall (fun stop : JS.jsstring => stop <> [])
                (map GroundingLink.title
                   (GeminiService.extractLinks
                      (GeminiService.Response.groundingChunks response)))).
  { apply Forall_map. eapply Forall_impl; [|exact N]. now intros l [_ Ht]. }
  split; [|split; [|split; [exact N|split; [|split; [|split]]]]].
  - intros cs ->. apply LinkFacts.extractLinks_chunks.
  - intros ->. reflexivity.
  - intros cs ->. apply LinkFacts.extractLinks_length.
  - intros a b ->. apply LinkFacts.extractLinks_app.
  - intros route Hr. unfold Mock.parseRouteData in Hr.
    destruct (_ || _); [|discriminate Hr]. injection Hr as <-. exact S.
  - intros route Hr. unfold Leaflet.parseRouteData in Hr.
    destruct (_ || _); [|discriminate Hr]. injection Hr as <-. exact S.
Qed.

(** Three chunks: one without maps, one with a uri and an empty title, one
    with a title and an empty uri. *)
Lemma links_are_named_witness :
  AskResult.links
    (AskResult.mk GeminiService.placeholder
       (GeminiService.extractLinks
          (Some [None;
                 Some (GeminiService.MapsChunk.mk
                         (Some (JS.lit "https://maps.example/a")) (Some []));
                 Some (GeminiService.MapsChunk.mk (Some [])
                         (Some (JS.lit "Nowhere")))]))
       None)
  = [GroundingLink.mk (JS.lit "https://maps.example/a") (JS.lit "View on Maps")].
Proof.
  exact (proj1 (links_are_named
                  (GeminiService.Response.mk None None
                     (Some [None;
                            Some (GeminiService.MapsChunk.mk
                                    (Some (JS.lit "https://maps.example/a"))
                                    (Some []));
                            Some (GeminiService.MapsChunk.mk (Some [])
                                    (Some (JS.lit "Nowhere")))]))
                  _ eq_refl) _ eq_refl).
Defined.

(** X11. A style edit of a marker changes nothing but colour and icon:
    the markers keep their number, order, titles, uris, ids and stop
    numbers; an id that no marker has changes nothing, and the same edit
    twice is the edit once. The markers made in one turn have pairwise
    different ids, so among them the edit by the id of the k-th changes
    the k-th only. *)
Theorem marker_edit_is_local (id : N * nat) (up : MarkerUpdate.t) :
  (forall prev,
      let ms := Handlers.onMarkerUpdate id up prev in
      map MapMarker.title ms = map MapMarker.title prev
      /\ map MapMarker.uri ms = map MapMarker.uri prev
      /\ map MapMarker.id ms = map MapMarker.id prev
      /\ map MapMarker.stopNumber ms = map MapMarker.stopNumber prev
      /\ Handlers.onMarkerUpdate id up ms = ms
      /\ (~ In id (map MapMarker.id prev) -> ms = prev))
  /\ (forall routeData synth links k mk,
      let made := Common.mapi (Common.newMarker routeData synth) 0 links in
      nth_error made k = Some mk -> MapMarker.id mk = id ->
      nth_error (Handlers.onMarkerUpdate id up made) k
      = Some (Handlers.applyUpdate up mk)
      /\ forall j, j <> k ->
           nth_error (Handlers.onMarkerUpdate id up made) j = nth_error made j).
Proof.
  split.
  - intros prev ms. subst ms. unfold Handlers.onMarkerUpdate.
    rewrite !map_map.
    repeat split.
    + apply map_ext. intros m. now destruct (Handlers.id_eqb _ _).
    + apply map_ext. intros m. now destruct (Handlers.id_eqb _ _).
    + apply map_ext. intros m. now destruct (Handlers.id_eqb _ _).
    + apply map_ext. intros m. now destruct (Handlers.id_eqb _ _).
    + apply map_ext. intros m.
      destruct (Handlers.id_eqb (MapMarker.id m) id) eqn:E; cbn; rewrite E;
        [|reflexivity].
      unfold Handlers.applyUpdate. cbn.
      now destruct (MarkerUpdate.color up), (MarkerUpdate.iconType up).
    + intros Hn. rewrite <- (map_id prev) at 2. apply map_ext_in.
      intros m Hm. destruct (Handlers.id_eqb (MapMarker.id m) id) eqn:E;
        [|reflexivity].
      apply LinkFacts.id_eqb_eq in E. exfalso. apply Hn. rewrite <- E.
      now apply in_map.
  - intros routeData synth links k mk made Hk Hid. subst made.
    unfold Handlers.onMarkerUpdate.
    rewrite StopFacts.mapi_nth in Hk. cbn in Hk.
    destruct (nth_error links k) as [link|] eqn:El; [|discriminate Hk].
    injection Hk as <-. cbn in Hid. split.
    + rewrite nth_error_map, StopFacts.mapi_nth, El. cbn.
      rewrite <- Hid. unfold Handlers.id_eqb. cbn.
      now rewrite N.eqb_refl, Nat.eqb_refl.
    + intros j Hj. rewrite nth_error_map, StopFacts.mapi_nth.
      destruct (nth_error links j) as [link'|]; [|reflexivity]. cbn.
      rewrite <- Hid. unfold Handlers.id_eqb. cbn.
      destruct (Nat.eqb_spec j k) as [->|_]; [contradiction|].
      now rewrite andb_false_r.
Qed.

Lemma marker_edit_is_local_witness :
  nth_error
    (Handlers.onMarkerUpdate (1700000000000%N, 1)
       (MarkerUpdate.mk (Some (JS.lit "bg-blue-500")) None)
       (Common.mapi (Common.newMarker None Samples.synth) 0
          [Samples.linkA; Samples.linkB])) 0
  = nth_error
      (Common.mapi (Common.newMarker None Samples.synth) 0
         [Samples.linkA; Samples.linkB]) 0.
Proof.
  refine (proj2 (proj2 (marker_edit_is_local (1700000000000%N, 1)
                          (MarkerUpdate.mk (Some (JS.lit "bg-blue-500")) None))
                   None Samples.synth [Samples.linkA; Samples.linkB] 1 _
                   eq_refl eq_refl) 0 _).
  discriminate.
Defined.

(** X12. The loop of [activeRoute], which scans the transcript from its
    last message back, returns the route of the last message that has one
    and nothing when no message has one. A user message and the failure
    message leave the active route alone; a reply without a route leaves
    the earlier route active; a reply with a route makes that route the
    active one. So however a turn settles, an active route stays or is
    replaced by the turn's route, and is never lost. Both revisions. *)
Theorem active_route_is_latest :
  (forall messages,
      Handlers.activeRouteLoop messages = Common.activeRoute messages)
  /\ (forall messages msg,
      Handlers.activeRouteLoop (messages ++ [msg])
      = match Message.route msg with
        | Some r => Some r
        | None => Handlers.activeRouteLoop messages
        end)
  /\ (forall messages,
      Handlers.activeRouteLoop messages = None
      <-> Forall (fun msg => Message.route msg = None) messages)
  /\ (forall synth outcome s,
      let s' := Mock.handleSend_settle synth outcome s in
      Handlers.activeRouteLoop (Mock.messages s')
      = Handlers.activeRouteLoop (Mock.messages s)
      \/ exists r route,
           outcome = Resolved r
           /\ Mock.parseRouteData (AskResult.text r) (AskResult.links r)
              = Some route
           /\ Handlers.activeRouteLoop (Mock.messages s') = Some route)
  /\ (forall synth outcome s,
      let s' := Leaflet.handleSend_settle synth outcome s in
      Handlers.activeRouteLoop (Leaflet.messages s')
      = Handlers.activeRouteLoop (Leaflet.messages s)
      \/ exists r route,
           outcome = Resolved r
           /\ Leaflet.parseRouteData (AskResult.text r) (AskResult.links r)
              = Some route
           /\ Handlers.activeRouteLoop (Leaflet.messages s') = Some route).
Proof.
  split; [|split; [|split; [|split]]].
  - intros messages. unfold Common.activeRoute, Handlers.activeRouteLoop.
    rewrite LinkFacts.scanBack_lastRoute.
    now destruct (Handlers.scanBack (rev messages)).
  - apply LinkFacts.activeRouteLoop_snoc.
  - intros messages. induction messages as [|msg messages IH] using rev_ind.
    + split; [constructor | reflexivity].
    + rewrite LinkFacts.activeRouteLoop_snoc, Forall_app.
      destruct (Message.route msg) as [r|] eqn:E.
      * split; [discriminate|]. intros [_ H]. inversion H; subst. congruence.
      * rewrite IH. split; [|tauto]. intros H. split; [exact H|].
        constructor; [exact E | constructor].
  - intros synth outcome s s'.
    destruct (FailureFacts.mock_settle_shape synth outcome s)
      as (_ & _ & [[Hm _] | (r & Ho & Hm & _)]); fold s' in Hm; rewrite Hm,
      LinkFacts.activeRouteLoop_snoc.
    + left. reflexivity.
    + cbn. destruct (Mock.parseRouteData _ _) as [route|] eqn:E.
      * right. exists r, route. auto.
      * left. reflexivity.
  - intros synth outcome s s'.
    destruct (FailureFacts.leaflet_settle_shape synth outcome s)
      as (_ & _ & [[Hm _] | (r & Ho & Hm & _)]); fold s' in Hm; rewrite Hm,
      LinkFacts.activeRouteLoop_snoc.
    + left. reflexivity.
    + cbn. destruct (Leaflet.parseRouteData _ _) as [route|] eqn:E.
      * right. exists r, route. auto.
      * left. reflexivity.
Qed.

(** ** The voice session: tool responses *)

Module ReplyFacts.
Import JS Common Voice VoiceReplies Tools ToolFacts VoiceFacts.

Section Handler.

Variable App : Type.
Variable exec : FunctionCall.t -> Eff.M App jsstring.

(** What the executors of both revisions have in common. *)
Hypothesis exec_ok : forall fc a,
  malformed fc = false -> exists a', exec fc a = (a', inl ack).
Hypothesis exec_bad : forall fc a,
  malformed fc = true -> exists e, exec fc a = (a, inr e).

Let Session := Voice.Session App.

Lemma runToolCall_bad fc (s : Session) :
  malformed fc = true ->
  exists e s1, runToolCall App exec fc s = (s1, inr e)
    /\ app App s1 = app App s /\ outbox App s1 = outbox App s.
Proof.
  intros M. destruct (exec_bad fc (app App s) M) as (e & E).
  unfold runToolCall, Eff.bind, liftApp. rewrite E. eauto.
Qed.

Lemma runToolCall_ok fc (s : Session) :
  malformed fc = false ->
  exists s1, runToolCall App exec fc s = (s1, inl tt)
    /\ outbox App s1 = outbox App s ++ [answerOf fc]
    /\ exec fc (app App s) = (app App s1, inl ack).
Proof.
  intros M. destruct (exec_ok fc (app App s) M) as (a' & E).
  unfold runToolCall, Eff.bind, liftApp, Eff.modify. rewrite E.
  eexists. split; [reflexivity|]. split; reflexivity.
Qed.

Lemma forEach_cons {S A B} (f : A -> Eff.M S B) x xs s :
  Eff.forEach f (x :: xs) s
  = match f x s with
    | (s1, inl _) => Eff.forEach f xs s1
    | (s1, inr e) => (s1, inr e)
    end.
Proof. reflexivity. Qed.

Lemma calls_answered fcs : forall s : Session,
  let r := Eff.forEach (runToolCall App exec) fcs s in
  outbox App (fst r) = outbox App s ++ map answerOf (answered fcs)
  /\ app App (fst r) = fst (Eff.forEach exec (answered fcs) (app App s))
  /\ (snd r = inl tt <-> forallb (fun fc => negb (malformed fc)) fcs = true).
Proof.
  induction fcs as [|fc fcs IH]; intros s r; subst r.
  - cbn. rewrite app_nil_r. repeat split; auto.
  - rewrite forEach_cons. cbn [answered forallb].
    destruct (malformed fc) eqn:M.
    + destruct (runToolCall_bad fc s M) as (e & s1 & E & Ha & Ho). rewrite E.
      cbn. rewrite app_nil_r. repeat split; auto; discriminate.
    + destruct (runToolCall_ok fc s M) as (s1 & E & Ho & Ha). rewrite E.
      destruct (IH s1) as (Ho' & Ha' & Hr). cbn [negb andb].
      rewrite Ho', Ha', Ho, forEach_cons, Ha, <- app_assoc.
      repeat split; auto; apply Hr.
Qed.

Lemma onAudio_frame now msg (s : Session) :
  app App (fst (onAudio App now msg s)) = app App s
  /\ outbox App (fst (onAudio App now msg s)) = outbox App s.
Proof.
  unfold onAudio. destruct (audio msg) as [| | |bytes]; auto;
    unfold playChunk, Eff.bind, Eff.modify, decodeAudioData.
  destruct (Nat.odd (length bytes)); [cbn; auto|].
  destruct (Nat.eqb (length bytes) 0); cbn; auto.
Qed.

Lemma onAudio_throws now msg (s : Session) :
  ~ audioOk (audio msg) -> exists e, snd (onAudio App now msg s) = inr e.
Proof.
  intros H. unfold onAudio. destruct (audio msg) as [| | |bytes] eqn:Ea.
  - eexists. reflexivity.
  - exfalso. apply H. now left.
  - eexists. reflexivity.
  - unfold playChunk, Eff.bind, Eff.modify, decodeAudioData.
    destruct (Nat.odd (length bytes)) eqn:Eo; [eexists; reflexivity|].
    destruct (Nat.eqb (length bytes) 0) eqn:Ez; [eexists; reflexivity|].
    exfalso. apply H. right. exists bytes. split; [reflexivity|].
    split; [exact Eo | now apply Nat.eqb_neq].
Qed.

Lemma onInterrupted_frame now msg (s : Session) :
  onInterrupted App now msg s = (fst (onInterrupted App now msg s), inl tt)
  /\ app App (fst (onInterrupted App now msg s)) = app App s
  /\ outbox App (fst (onInterrupted App now msg s)) = outbox App s.
Proof.
  unfold onInterrupted, Eff.when. destruct (interrupted msg); cbn; auto.
Qed.

Lemma onToolCall_answered msg (s : Session) :
  outbox App (fst (onToolCall App exec msg s))
  = outbox App s ++ map answerOf (answered (callsOfMsg msg))
  /\ app App (fst (onToolCall App exec msg s))
     = fst (Eff.forEach exec (answered (callsOfMsg msg)) (app App s)).
Proof.
  unfold onToolCall, callsOfMsg. destruct (toolCall msg) as [[fcs|]|].
  - destruct (calls_answered fcs s) as (Ho & Ha & _). auto.
  - cbn. now rewrite app_nil_r.
  - cbn. now rewrite app_nil_r.
Qed.

Lemma onmessage_answered now msg (s : Session) :
  let s' := fst (onmessage App exec now msg s) in
  (audioOk (audio msg) ->
     outbox App s' = outbox App s ++ map answerOf (answered (callsOfMsg msg))
     /\ app App s' = fst (Eff.forEach exec (answered (callsOfMsg msg)) (app App s)))
  /\ (~ audioOk (audio msg) ->
     outbox App s' = outbox App s /\ app App s' = app App s).
Proof.
  intros s'. subst s'. unfold onmessage. split.
  - intros Hok. destruct (onAudio_ok App now msg s Hok) as (s1 & E1 & Ha & Ho & _).
    destruct (onInterrupted_frame now msg s1) as (E2 & Ha2 & Ho2).
    assert (Em : (onAudio App now msg ;; onInterrupted App now msg ;;
                  onToolCall App exec msg)%eff s
                 = onToolCall App exec msg (fst (onInterrupted App now msg s1))).
    { unfold Eff.bind. rewrite E1.
      destruct (onInterrupted App now msg s1) as [s2 [u|e]];
        [reflexivity | discriminate E2]. }
    rewrite Em.
    destruct (onToolCall_answered msg (fst (onInterrupted App now msg s1)))
      as [Hb Hc].
    rewrite Hb, Hc, Ho2, Ha2, Ho, Ha. auto.
  - intros Hbad. destruct (onAudio_throws now msg s Hbad) as (e & E).
    destruct (onAudio_frame now msg s) as [Ha Ho].
    assert (Em : (onAudio App now msg ;; onInterrupted App now msg ;;
                  onToolCall App exec msg)%eff s
                 = (fst (onAudio App now msg s), inr e)).
    { unfold Eff.bind. destruct (onAudio App now msg s) as [s1 [u|e']];
        cbn in E; [discriminate E|]. now injection E as ->. }
    rewrite Em. auto.
Qed.

End Handler.
End ReplyFacts.

(** X14. In the voice session the calls of a message are carried out in
    order, and each call that returns is answered at once with its own id
    and name and the acknowledgement, also a call of an unknown tool. A call of
    a known tool without arguments throws: it and every call after it in
    the message are neither carried out nor answered. A message whose
    audio part throws (no parts, bad base64, an odd or zero number of
    bytes) has none of its calls carried out or answered. Both
    revisions. *)
Theorem voice_calls_answered (c : Voice.Clock) (msg : Voice.ServerMessage) :
  (forall s : Voice.Session Mock.State,
      let s' := fst (Voice.onmessage Mock.State Mock.executeFunctionCall
                       c msg s) in
      (Voice.audioOk (Voice.audio msg) ->
         Voice.outbox Mock.State s'
         = Voice.outbox Mock.State s
           ++ map VoiceReplies.answerOf
                (VoiceReplies.answered (VoiceReplies.callsOfMsg msg))
         /\ Voice.app Mock.State s'
            = fst (Eff.forEach Mock.executeFunctionCall
                     (VoiceReplies.answered (VoiceReplies.callsOfMsg msg))
                     (Voice.app Mock.State s)))
      /\ (~ Voice.audioOk (Voice.audio msg) ->
         Voice.outbox Mock.State s' = Voice.outbox Mock.State s
         /\ Voice.app Mock.State s' = Voice.app Mock.State s))
  /\ (forall s : Voice.Session Leaflet.State,
      let s' := fst (Voice.onmessage Leaflet.State Leaflet.executeFunctionCall
                       c msg s) in
      (Voice.audioOk (Voice.audio msg) ->
         Voice.outbox Leaflet.State s'
         = Voice.outbox Leaflet.State s
           ++ map VoiceReplies.answerOf
                (VoiceReplies.answered (VoiceReplies.callsOfMsg msg))
         /\ Voice.app Leaflet.State s'
            = fst (Eff.forEach Leaflet.executeFunctionCall
                     (VoiceReplies.answered (VoiceReplies.callsOfMsg msg))
                     (Voice.app Leaflet.State s)))
      /\ (~ Voice.audioOk (Voice.audio msg) ->
         Voice.outbox Leaflet.State s' = Voice.outbox Leaflet.State s
         /\ Voice.app Leaflet.State s' = Voice.app Leaflet.State s)).
Proof.
  split; intros s.
  - apply ReplyFacts.onmessage_answered.
    + intros fc a M. rewrite ToolFacts.mock_exec. unfold Tools.malformed in M.
      destruct (Tools.toolOf fc), (FunctionCall.args fc);
        try discriminate M; eauto.
    + intros fc a M. rewrite (FailureFacts.mock_exec_bad fc a M). eauto.
  - apply ReplyFacts.onmessage_answered.
    + intros fc a M. rewrite ToolFacts.leaflet_exec. unfold Tools.malformed in M.
      destruct (Tools.toolOf fc), (FunctionCall.args fc);
        try discriminate M; eauto.
    + intros fc a M. rewrite (FailureFacts.leaflet_exec_bad fc a M). eauto.
Qed.

Lemma voice_calls_answered_witness :
  Voice.outbox Leaflet.State
    (fst (Voice.onmessage Leaflet.State Leaflet.executeFunctionCall
            Samples.at10 VoiceReplies.twoCalls Samples.afterChunk))
  = [Voice.mkResp (Some (JS.lit "c1")) (Some (JS.lit "set_map_layer")) Common.ack]
  /\ Voice.outbox Leaflet.State
       (fst (Voice.onmessage Leaflet.State Leaflet.executeFunctionCall
               Samples.at10 VoiceReplies.oddChunk Samples.afterChunk))
     = [].
Proof.
  split.
  - exact (proj1 (proj1 (proj2 (voice_calls_answered Samples.at10 VoiceReplies.twoCalls)
                           Samples.afterChunk)
                    (or_introl eq_refl))).
  - refine (proj1 (proj2 (proj2 (voice_calls_answered Samples.at10 VoiceReplies.oddChunk)
                            Samples.afterChunk) _)).
    intros [H | (bytes & H & Ho & _)]; [discriminate H|].
    injection H as <-. discriminate Ho.
Defined.

(** ** What the map shows *)

Module FaceFacts.
Import JS Common.

Lemma stopNumber_positive routeData title n :
  stopNumberOf routeData title = Some n -> (1 <= n)%Z.
Proof.
  unfold stopNumberOf. destruct routeData as [r|]; [|discriminate]. cbn.
  pose proof (StopFacts.indexOf_range title (Route.stops r)) as H.
  destruct (Z.eqb_spec (Array_indexOf title (Route.stops r)) (-1)) as [E|E];
    [discriminate|].
  cbn. intros Hn. injection Hn as <-. lia.
Qed.

End FaceFacts.

(** X16. The Leaflet map draws the standard tiles for every layer other
    than satellite and terrain: the transit tiles are never drawn, though
    transit can be chosen in the layer menu and by the set_map_layer tool,
    and then the layer button is highlighted over standard tiles. After a
    set_map_layer call the tiles are those of the layer argument, whatever
    the layer was before. *)
Theorem transit_tiles_never_drawn :
  (forall activeLayer,
      (LeafletHandlers.tileUrl activeLayer = LeafletHandlers.layers_satellite
       /\ activeLayer = JS.JStr (JS.lit "satellite"))
      \/ (LeafletHandlers.tileUrl activeLayer = LeafletHandlers.layers_terrain
          /\ activeLayer = JS.JStr (JS.lit "terrain"))
      \/ (LeafletHandlers.tileUrl activeLayer = LeafletHandlers.layers_standard
          /\ activeLayer <> JS.JStr (JS.lit "satellite")
          /\ activeLayer <> JS.JStr (JS.lit "terrain")))
  /\ (forall activeLayer,
      LeafletHandlers.tileUrl activeLayer <> LeafletHandlers.layers_transit)
  /\ (LeafletHandlers.tileUrl (JS.JStr (JS.lit "transit"))
      = LeafletHandlers.layers_standard
      /\ LeafletHandlers.layerHighlighted (JS.JStr (JS.lit "transit")) = true)
  /\ (forall fc args s,
      Tools.toolOf fc = Tools.SetMapLayer -> FunctionCall.args fc = Some args ->
      LeafletHandlers.tileUrl
        (Leaflet.activeLayer (fst (Leaflet.executeFunctionCall fc s)))
      = LeafletHandlers.tileUrl (JS.get args (JS.lit "layer"))).
Proof.
  assert (A : forall activeLayer,
      (LeafletHandlers.tileUrl activeLayer = LeafletHandlers.layers_satellite
       /\ activeLayer = JS.JStr (JS.lit "satellite"))
      \/ (LeafletHandlers.tileUrl activeLayer = LeafletHandlers.layers_terrain
          /\ activeLayer = JS.JStr (JS.lit "terrain"))
      \/ (LeafletHandlers.tileUrl activeLayer = LeafletHandlers.layers_standard
          /\ activeLayer <> JS.JStr (JS.lit "satellite")
          /\ activeLayer <> JS.JStr (JS.lit "terrain"))).
  { intros v. unfold LeafletHandlers.tileUrl.
    destruct v as [| | b | x | l |];
      try (right; right; repeat split; discriminate).
    destruct (JS.str_eqb l (JS.lit "satellite")) eqn:E1.
    { left. apply JSFacts.str_eqb_eq in E1. now subst. }
    destruct (JS.str_eqb l (JS.lit "terrain")) eqn:E2.
    { right. left. apply JSFacts.str_eqb_eq in E2. now subst. }
    right. right. split; [reflexivity|].
    split; intros H; injection H as ->; discriminate. }
  split; [exact A|]. split; [|split].
  - intros v. destruct (A v) as [[-> _] | [[-> _] | [-> _]]]; discriminate.
  - split; reflexivity.
  - intros fc args s Ht Ha. rewrite ToolFacts.leaflet_exec, Ht, Ha. reflexivity.
Qed.

Lemma transit_tiles_never_drawn_witness :
  LeafletHandlers.tileUrl
    (Leaflet.activeLayer
       (fst (Leaflet.executeFunctionCall (Tools.setMapLayer "transit")
               Leaflet.initial)))
  = LeafletHandlers.layers_standard.
Proof.
  rewrite (proj2 (proj2 (proj2 transit_tiles_never_drawn))
             (Tools.setMapLayer "transit") _ Leaflet.initial eq_refl eq_refl).
  reflexivity.
Defined.

(** ** The clusters of the schematic map *)

Module ClusterFacts.
Import JS Common Clusters.

Lemma coord_eqb_eq a b : coord_eqb a b = true <-> a = b.
Proof.
  destruct a, b; cbn; try (split; [discriminate | congruence]);
    try (split; reflexivity).
  rewrite Z.eqb_eq. split; congruence.
Qed.

Lemma key_eqb_eq a b : key_eqb a b = true <-> a = b.
Proof.
  destruct a as [a1 a2], b as [b1 b2]. unfold key_eqb. cbn.
  rewrite andb_true_iff, !coord_eqb_eq. split.
  - intros [-> ->]. reflexivity.
  - intros H. injection H as -> ->. auto.
Qed.

Section Grid.

Variable K : Type.
Variable eqb : K -> K -> bool.
Variable key : MapMarker.t -> K.
Hypothesis eqb_eq : forall a b, eqb a b = true <-> a = b.

Lemma push_keys k mk grid :
  forall k', In k' (map fst (push K eqb k mk grid)) ->
             k' = k \/ In k' (map fst grid).
Proof.
  induction grid as [|[k0 g0] grid IH]; intros k' H; cbn in H.
  - destruct H as [<- | []]. now left.
  - destruct (eqb k0 k); cbn in H.
    + right. exact H.
    + destruct H as [<- | H]; [right; now left|].
      destruct (IH k' H) as [-> | Hin]; [now left | right; now right].
Qed.

Lemma push_ok mk grid :
  gridOk K key grid -> gridOk K key (push K eqb (key mk) mk grid).
Proof.
  intros [Hnd Hall]. induction grid as [|[k0 g0] grid IH]; cbn.
  - split.
    + constructor; [intros [] | constructor].
    + constructor; [|constructor]. cbn. split; [discriminate|].
      constructor; [reflexivity | constructor].
  - inversion Hnd as [|? ? Hnot Hnd']; subst.
    inversion Hall as [|? ? [Hne Hkeys] Hall']; subst. cbn in Hne, Hkeys.
    destruct (eqb k0 (key mk)) eqn:E.
    + apply eqb_eq in E. split; [exact Hnd|].
      constructor; [|exact Hall']. cbn. split.
      * intros H. apply app_eq_nil in H as [_ H]. discriminate H.
      * apply Forall_app. split; [exact Hkeys|].
        constructor; [now symmetry | constructor].
    + destruct (IH Hnd' Hall') as [Hnd2 Hall2]. split.
      * cbn. constructor; [|exact Hnd2]. intros Hin.
        apply push_keys in Hin as [-> | Hin]; [|contradiction].
        assert (T : eqb (key mk) (key mk) = true) by now apply eqb_eq.
        congruence.
      * constructor; [|exact Hall2]. cbn. auto.
Qed.

Lemma push_members k mk grid :
  Permutation (concat (map snd (push K eqb k mk grid)))
              (mk :: concat (map snd grid)).
Proof.
  induction grid as [|[k0 g0] grid IH]; cbn; [reflexivity|].
  destruct (eqb k0 k); cbn.
  - rewrite <- app_assoc. cbn.
    symmetry. apply Permutation_cons_app. reflexivity.
  - rewrite IH. apply Permutation_sym.
    apply (Permutation_cons_app g0 (concat (map snd grid)) mk). reflexivity.
Qed.

Lemma gridFrom_ok markers : forall grid,
  gridOk K key grid -> gridOk K key (gridFrom K eqb key grid markers).
Proof.
  induction markers as [|mk markers IH]; intros grid H; [exact H|].
  change (gridFrom K eqb key grid (mk :: markers))
    with (gridFrom K eqb key (push K eqb (key mk) mk grid) markers).
  apply IH. now apply push_ok.
Qed.

Lemma gridFrom_members markers : forall grid,
  Permutation (concat (map snd (gridFrom K eqb key grid markers)))
              (concat (map snd grid) ++ markers).
Proof.
  induction markers as [|mk markers IH]; intros grid.
  - cbn. now rewrite app_nil_r.
  - change (gridFrom K eqb key grid (mk :: markers))
      with (gridFrom K eqb key (push K eqb (key mk) mk grid) markers).
    rewrite IH, push_members. cbn. apply Permutation_middle.
Qed.

(** The first markers of the groups are in the order of their first
    occurrence: pushing never reorders the groups. *)
Lemma gridOk_cells grid i j ki kj gi gj mi mj :
  gridOk K key grid ->
  nth_error grid i = Some (ki, gi) -> nth_error grid j = Some (kj, gj) ->
  In mi gi -> In mj gj -> (key mi = key mj <-> i = j).
Proof.
  intros [Hnd Hall] Hi Hj Hmi Hmj.
  rewrite Forall_forall in Hall.
  destruct (Hall _ (nth_error_In _ _ Hi)) as [_ Ki].
  destruct (Hall _ (nth_error_In _ _ Hj)) as [_ Kj].
  rewrite Forall_forall in Ki, Kj. cbn in Ki, Kj.
  rewrite (Ki mi Hmi), (Kj mj Hmj). split.
  - intros ->.
    apply (proj1 (NoDup_nth_error (map fst grid)) Hnd).
    + apply nth_error_Some. rewrite nth_error_map, Hi. discriminate.
    + now rewrite !nth_error_map, Hi, Hj.
  - intros ->. rewrite Hi in Hj. now injection Hj as ->.
Qed.

End Grid.

Lemma itemOf_members idx group : membersOf (itemOf idx group) = group.
Proof. destruct group as [|mk [|mk' group]]; reflexivity. Qed.

Lemma mapi_itemOf_members groups : forall idx,
  flat_map membersOf (mapi itemOf idx groups) = concat groups.
Proof.
  induction groups as [|g groups IH]; intros idx; cbn; [reflexivity|].
  now rewrite itemOf_members, IH.
Qed.

(** The members of the items are the markers. *)
Lemma clusters_members effectiveZoom markers :
  Permutation (flat_map membersOf (clusters effectiveZoom markers)) markers.
Proof.
  unfold clusters. destruct (PrimFloat.leb 4%float effectiveZoom).
  - induction markers as [|mk markers IH]; cbn; [constructor | now constructor].
  - rewrite mapi_itemOf_members.
    exact (gridFrom_members Key key_eqb
             (keyOf (PrimFloat.div 12%float effectiveZoom)) markers []).
Qed.

(** A cluster counts its members and has at least two. *)
Lemma clusters_counts effectiveZoom markers id x y count ms :
  In (Cluster id x y count ms) (clusters effectiveZoom markers) ->
  count = length ms /\ 2 <= length ms.
Proof.
  unfold clusters. destruct (PrimFloat.leb 4%float effectiveZoom).
  - intros Hin. apply in_map_iff in Hin as (mk & E & _). discriminate E.
  - set (size := PrimFloat.div 12%float effectiveZoom).
    set (grid := gridFrom Key key_eqb (keyOf size) [] markers).
    assert (Ok : gridOk Key (keyOf size) grid).
    { apply gridFrom_ok; [exact key_eqb_eq|]. split; constructor. }
    intros Hin. apply In_nth_error in Hin as [i Hi].
    rewrite StopFacts.mapi_nth in Hi.
    destruct (nth_error (map snd grid) i) as [g|] eqn:Eg; [|discriminate Hi].
    cbn in Hi. injection Hi as Hi.
    rewrite nth_error_map in Eg.
    destruct (nth_error grid i) as [[k g']|] eqn:E; [|discriminate Eg].
    cbn in Eg. injection Eg as ->.
    destruct g as [|m1 [|m2 g]]; cbn in Hi; try discriminate Hi.
    + destruct Ok as [_ Hall]. rewrite Forall_forall in Hall.
      destruct (Hall _ (nth_error_In _ _ E)) as [Hne _]. now destruct Hne.
    + injection Hi as _ _ _ <- <-. cbn. split; [reflexivity | lia].
Qed.

End ClusterFacts.

(** X17. The clusters of the schematic map partition the markers: every
    marker is in exactly one item (the members of all items are the markers,
    each as often as it is given). At an effective zoom of 4 or more every
    marker is its own item, in marker order. Below that (and for a zoom that
    is not a number) two markers are in the same item exactly when they
    fall in the same grid cell; a cluster counts its members and has at
    least two, and a cell with one marker shows that marker. *)
Theorem clusters_partition (effectiveZoom : float)
    (markers : list MapMarker.t) :
  let items := Clusters.clusters effectiveZoom markers in
  Permutation (flat_map Clusters.membersOf items) markers
  /\ (PrimFloat.leb 4%float effectiveZoom = true ->
      items = map Clusters.Single markers)
  /\ (forall item, In item items ->
        match item with
        | Clusters.Single _ => True
        | Clusters.Cluster _ _ _ count ms => count = length ms /\ 2 <= length ms
        end)
  /\ (PrimFloat.leb 4%float effectiveZoom = false ->
      forall i j itemi itemj mi mj,
        nth_error items i = Some itemi -> nth_error items j = Some itemj ->
        In mi (Clusters.membersOf itemi) -> In mj (Clusters.membersOf itemj) ->
        (Clusters.keyOf (PrimFloat.div 12%float effectiveZoom) mi
         = Clusters.keyOf (PrimFloat.div 12%float effectiveZoom) mj
         <-> i = j)).
Proof.
  intros items. subst items. unfold Clusters.clusters.
  destruct (PrimFloat.leb 4%float effectiveZoom) eqn:Ez.
  - split; [|split; [|split]].
    + induction markers as [|mk markers IH]; cbn; [constructor|].
      now constructor.
    + reflexivity.
    + intros item Hin. apply in_map_iff in Hin as (mk & <- & _). exact I.
    + discriminate.
  - set (size := PrimFloat.div 12%float effectiveZoom).
    set (grid := Clusters.gridFrom Clusters.Key Clusters.key_eqb
                   (Clusters.keyOf size) [] markers).
    assert (Ok : Clusters.gridOk Clusters.Key (Clusters.keyOf size) grid).
    { apply ClusterFacts.gridFrom_ok; [exact ClusterFacts.key_eqb_eq|].
      split; constructor. }
    split; [|split; [|split]].
    + rewrite ClusterFacts.mapi_itemOf_members.
      exact (ClusterFacts.gridFrom_members Clusters.Key Clusters.key_eqb
               (Clusters.keyOf size) markers []).
    + discriminate.
    + intros item Hin. apply In_nth_error in Hin as [i Hi].
      rewrite StopFacts.mapi_nth in Hi.
      destruct (nth_error (map snd grid) i) as [g|] eqn:Eg; [|discriminate Hi].
      cbn in Hi. injection Hi as <-.
      rewrite nth_error_map in Eg.
      destruct (nth_error grid i) as [[k g']|] eqn:E; [|discriminate Eg].
      cbn in Eg. injection Eg as ->.
      destruct Ok as [_ Hall]. rewrite Forall_forall in Hall.
      destruct (Hall _ (nth_error_In _ _ E)) as [Hne _]. cbn in Hne.
      destruct g as [|m1 [|m2 g]]; [contradiction | exact I |].
      cbn. split; [reflexivity | lia].
    + intros _ i j itemi itemj mi mj Hi Hj Hmi Hmj.
      rewrite StopFacts.mapi_nth, nth_error_map in Hi, Hj.
      destruct (nth_error grid i) as [[ki gi]|] eqn:Ei; [|discriminate Hi].
      destruct (nth_error grid j) as [[kj gj]|] eqn:Ej; [|discriminate Hj].
      cbn in Hi, Hj. injection Hi as <-. injection Hj as <-.
      rewrite ClusterFacts.itemOf_members in Hmi, Hmj.
      exact (ClusterFacts.gridOk_cells Clusters.Key (Clusters.keyOf size)
               grid i j ki kj gi gj mi mj Ok Ei Ej Hmi Hmj).
Qed.

Lemma clusters_partition_witness :
  Clusters.clusters (Clusters.effectiveZoomOf true 3%float) Clusters.three
  = map Clusters.Single Clusters.three
  /\ exists x y,
       Clusters.clusters (Clusters.effectiveZoomOf false 2%float) Clusters.three
       = [Clusters.Cluster 0 x y 2
            [Clusters.at_ 20%float 20%float 0; Clusters.at_ 22%float 19%float 2];
          Clusters.Single (Clusters.at_ 70%float 30%float 1)].
Proof.
  split.
  - apply (proj1 (proj2 (clusters_partition
                           (Clusters.effectiveZoomOf true 3%float)
                           Clusters.three))).
    reflexivity.
  - eexists. eexists. vm_compute. reflexivity.
Defined.

(** X15. A stop number made by [handleSend] is at least 1. The Leaflet map
    draws every marker by itself, and shows the number of a numbered one
    (its icon tests the number for truthiness). The schematic map draws the
    items of [clusters]: a numbered marker is in one of them; where it is
    an item of its own (at an effective zoom of 4 or more always) its disc
    shows its number, and where it shares a grid cell with other markers
    the map draws one disc for the cell, with the count of its markers, at
    least 2, instead of the number. What the disc of a numbered marker
    shows does not depend on its icon type (nor, on the schematic map, on
    its colour), so a style edit changes nothing of it. *)
Theorem numbered_marker_on_the_map (routeData : option Route.t)
    (title : JS.jsstring) (markers : list MapMarker.t)
    (selectedMarkerId : option (N * nat)) (isDrivingMode : bool) (zoom : float)
    (mk : MapMarker.t) (n : Z) :
  In mk markers ->
  MapMarker.stopNumber mk = Some n ->
  Common.stopNumberOf routeData title = Some n ->
  let items :=
    Clusters.clusters (Clusters.effectiveZoomOf isDrivingMode zoom) markers in
  (1 <= n)%Z
  /\ (forall i, nth_error markers i = Some mk ->
        exists icon,
          nth_error (MapView.leafletDrawn selectedMarkerId markers) i = Some icon
          /\ MarkerFace.content icon = MarkerFace.Number n)
  /\ (exists i item, nth_error items i = Some item
                     /\ In mk (Clusters.membersOf item))
  /\ (forall i item,
        nth_error items i = Some item -> In mk (Clusters.membersOf item) ->
        match item with
        | Clusters.Single _ =>
            exists class,
              nth_error (MapView.mockDrawn isDrivingMode zoom selectedMarkerId
                           markers) i
              = Some (MapView.MarkerDisc (class, MarkerFace.Number n))
        | Clusters.Cluster _ _ _ _ ms =>
            nth_error (MapView.mockDrawn isDrivingMode zoom selectedMarkerId
                         markers) i
            = Some (MapView.CountDisc (length ms))
            /\ 2 <= length ms
        end)
  /\ (PrimFloat.leb 4%float (Clusters.effectiveZoomOf isDrivingMode zoom) = true ->
      items = map Clusters.Single markers)
  /\ (forall up selected,
        MarkerFace.mockFace selected (Handlers.applyUpdate up mk)
        = MarkerFace.mockFace selected mk
        /\ MarkerFace.content
             (MarkerFace.leafletFace selected (Handlers.applyUpdate up mk))
           = MarkerFace.Number n).
Proof.
  intros Hin Hn Hs items.
  pose proof (FaceFacts.stopNumber_positive _ _ _ Hs) as Hpos.
  assert (Z : Z.eqb n 0 = false) by (apply Z.eqb_neq; lia).
  split; [exact Hpos|]. split; [|split; [|split; [|split]]].
  - intros i Hi. unfold MapView.leafletDrawn. rewrite nth_error_map, Hi.
    eexists. split; [reflexivity|].
    unfold MarkerFace.leafletFace, MarkerFace.createCustomIcon. cbn.
    now rewrite Hn, Z.
  - pose proof (ClusterFacts.clusters_members
                  (Clusters.effectiveZoomOf isDrivingMode zoom) markers) as P.
    apply Permutation_sym in P.
    apply (Permutation_in mk P) in Hin.
    apply in_flat_map in Hin as (item & Hitem & Hmem).
    apply In_nth_error in Hitem as [i Hi]. now exists i, item.
  - intros i item Hi Hmem. unfold MapView.mockDrawn. fold items.
    rewrite nth_error_map, Hi. destruct item as [mk'|id x y count ms]; cbn.
    + destruct Hmem as [<- | []]. eexists. unfold MarkerFace.mockFace.
      rewrite Hn. reflexivity.
    + destruct (ClusterFacts.clusters_counts _ _ id x y count ms
                  (nth_error_In _ _ Hi)) as [-> Hl].
      split; [reflexivity | exact Hl].
  - intros Hz. unfold items, Clusters.clusters. now rewrite Hz.
  - intros up selected.
    unfold MarkerFace.mockFace, MarkerFace.leafletFace,
      MarkerFace.createCustomIcon. cbn. rewrite Hn, Z. auto.
Qed.

(** Stops A and B of a route fall in one cell at the zoom the schematic map
    opens with, and are drawn as one disc with the count 2; stop C is drawn
    with its number. *)
Lemma numbered_marker_on_the_map_witness :
  MapView.mockDrawn false 2%float None MapView.stops
  = [MapView.CountDisc 2;
     MapView.MarkerDisc (JS.lit "bg-blue-600", MarkerFace.Number 3)]
  /\ exists icon,
       nth_error (MapView.leafletDrawn None MapView.stops) 1 = Some icon
       /\ MarkerFace.content icon = MarkerFace.Number 2.
Proof.
  split; [vm_compute; reflexivity|].
  exact (proj1 (proj2 (numbered_marker_on_the_map (Some Samples.routeABC)
                         (JS.lit "B") MapView.stops None false 2%float
                         (MapView.stopAt 22%float 19%float 1 (JS.lit "B")) 2%Z
                         ltac:(right; left; reflexivity) eq_refl eq_refl))
           1 eq_refl).
Defined.

(** ** The step parser *)

Module StepFacts.
Import JS RegExp Phrase RouteParser RegExpFacts StepLines.

Lemma matchAll_in fl r : forall s skip i pv mr,
  In mr (matchAllFrom fl r skip i pv s) ->
  exists pre post y,
    s = pre ++ post
    /\ runAt fl r (after pv pre) post = Some y
    /\ mr = result (i + length pre) post y.
Proof.
  induction s as [|a s IH]; intros skip i pv mr Hin.
  - destruct skip; simpl in Hin; [|destruct Hin].
    destruct (runAt fl r pv []) as [y|] eqn:E; [|destruct Hin].
    destruct Hin as [<- | []]. exists [], [], y. cbn. now rewrite Nat.add_0_r.
  - assert (Shift : forall skip' mr',
              In mr' (matchAllFrom fl r skip' (S i) (Some a) s) ->
              exists pre post y,
                a :: s = pre ++ post
                /\ runAt fl r (after pv pre) post = Some y
                /\ mr' = result (i + length pre) post y).
    { intros skip' mr' H.
      destruct (IH _ _ _ _ H) as (pre & post & y & -> & Hy & ->).
      exists (a :: pre), post, y. cbn. rewrite Nat.add_succ_r. auto. }
    destruct skip; simpl in Hin; [|exact (Shift _ _ Hin)].
    destruct (runAt fl r pv (a :: s)) as [y|] eqn:E.
    + destruct Hin as [<- | Hin]; [|exact (Shift _ _ Hin)].
      exists [], (a :: s), y. cbn. now rewrite Nat.add_0_r.
    + exact (Shift _ _ Hin).
Qed.

Lemma forallb_same {A} (f g : A -> bool) l :
  (forall a, f a = g a) -> forallb f l = forallb g l.
Proof.
  intros H. induction l as [|a l IH]; simpl; [reflexivity|].
  now rewrite H, IH.
Qed.

Lemma lineStart_spec x : atLineStart flags_gm x = lineStart (prev x).
Proof. unfold atLineStart, lineStart. now destruct (prev x). Qed.

Lemma lineEnd_spec x : atLineEnd flags_gm x = true <-> lineEnd (rest x).
Proof.
  unfold atLineEnd, lineEnd. destruct (rest x) as [|c s]; cbn; tauto.
Qed.

(** One attempt of the step pattern. *)
Lemma stepRe_sound pv s y :
  runAt flags_gm stepRe pv s = Some y ->
  lineStart pv = true
  /\ exists digits ws raw post,
       stepAt s digits ws raw post /\ caps y = [(1, raw)].
Proof.
  unfold runAt, stepRe, Plus. cbn [m]. rewrite lineStart_spec. cbn [prev].
  destruct (lineStart pv); [|discriminate]. intros H. split; [reflexivity|].
  cbn [rest] in H. destruct s as [|d0 s]; [discriminate H|].
  unfold classMatches at 1 in H. cbn [flags_gm ignoreCase] in H.
  destruct (isDigit d0) eqn:Ed0; [|discriminate H]. cbn [prev rest caps] in H.
  apply star_greedy in H as (ds & s1 & -> & Hds & H & _).
  cbn [rest] in H. destruct s1 as [|c s1]; [discriminate H|].
  unfold charMatches, canonicalize in H. cbn [flags_gm ignoreCase] in H.
  destruct (N.eqb_spec 46 c) as [<-|]; [|discriminate H].
  destruct s1 as [|w0 s1]; [discriminate H|].
  unfold classMatches at 1 in H. cbn [flags_gm ignoreCase] in H.
  destruct (isSpace w0) eqn:Ew0; [|discriminate H]. cbn [prev rest caps] in H.
  apply star_greedy in H as (ws & s2 & -> & Hws & H & _).
  cbn [rest] in H. destruct s2 as [|r0 s2]; [discriminate H|].
  unfold classMatches at 1 in H. cbn [flags_gm ignoreCase] in H.
  destruct (isDot r0) eqn:Er0; [|discriminate H]. cbn [prev rest caps] in H.
  apply star_greedy in H as (rs & post & -> & Hrs & H & _).
  match type of H with
  | (if atLineEnd flags_gm ?x then _ else _) = _ =>
      destruct (atLineEnd flags_gm x) eqn:Ee; [|discriminate H];
        apply lineEnd_spec in Ee
  end.
  cbn [rest] in Ee. injection H as <-. cbn [caps].
  exists (d0 :: ds), (w0 :: ws), (r0 :: rs), post.
  split.
  - unfold stepAt. cbn [forallb].
    rewrite Ed0, Ew0, Er0.
    rewrite (forallb_same _ isDigit ds) in Hds by reflexivity.
    rewrite (forallb_same _ isSpace ws) in Hws by reflexivity.
    rewrite (forallb_same _ isDot rs) in Hrs by reflexivity.
    repeat split; auto; try discriminate.
  - f_equal. f_equal. apply consumed_app. cbn [rest]. reflexivity.
Qed.

Lemma numbered_bound : forall s skip i pv,
  length (matchAllFrom flags_gm stepRe skip i pv s) <= numberedLines pv s.
Proof.
  induction s as [|a s IH]; intros skip i pv.
  - destruct skip; cbn [matchAllFrom numberedLines length]; [|lia].
    destruct (runAt flags_gm stepRe pv []) as [y|] eqn:E;
      [|cbn [length]; lia].
    apply stepRe_sound in E as (_ & ds & ws & raw & post & (E & Hne & _) & _).
    destruct ds; [contradiction | discriminate E].
  - assert (Step : numberedLines (Some a) s <= numberedLines pv (a :: s))
      by (cbn [numberedLines]; lia).
    destruct skip; cbn [matchAllFrom].
    + destruct (runAt flags_gm stepRe pv (a :: s)) as [y|] eqn:E.
      * pose proof E as E'.
        apply stepRe_sound in E' as (Hl & ds & ws & raw & post & (E' & Hne & Hd & _) & _).
        destruct ds as [|d ds]; [contradiction|]. injection E' as -> _.
        cbn in Hd. apply andb_true_iff in Hd as [Hd _].
        cbn [numberedLines length]. rewrite Hl, Hd. cbn [andb].
        specialize (IH (pred (length (matched (result i (d :: s) y))))
                       (S i) (Some d)). lia.
      * specialize (IH 0 (S i) (Some a)). lia.
    + specialize (IH skip (S i) (Some a)). lia.
Qed.

Lemma numberedLines_none : forall s pv,
  (forall c, In c s -> isDigit c = false) -> numberedLines pv s = 0.
Proof.
  induction s as [|a s IH]; intros pv H; [reflexivity|]. simpl.
  rewrite (H a (or_introl eq_refl)), andb_false_r.
  apply IH. intros c Hc. apply H. now right.
Qed.

End StepFacts.

(** X18. Steps come only from lines that begin with a digit: a text has at
    most as many steps as it has such lines. A text without a digit has no
    step, so it gives a route exactly when the reply has two links or
    more, whatever its labels say. Both revisions. *)
Theorem steps_come_from_numbered_lines (text : JS.jsstring) :
  length (RouteParser.parseSteps text) <= StepLines.numberedLines None text
  /\ ((forall c, In c text -> JS.isDigit c = false) ->
      RouteParser.parseSteps text = []
      /\ forall links,
           (Mock.parseRouteData text links = None <-> length links < 2)
           /\ (Leaflet.parseRouteData text links = None <-> length links < 2)).
Proof.
  assert (B : length (RouteParser.parseSteps text)
              <= StepLines.numberedLines None text).
  { unfold RouteParser.parseSteps, RegExp.String_matchAll.
    rewrite length_map. apply StepFacts.numbered_bound. }
  split; [exact B|]. intros Hd.
  rewrite (StepFacts.numberedLines_none text None Hd) in B.
  assert (E : RouteParser.parseSteps text = []).
  { destruct (RouteParser.parseSteps text); [reflexivity | simpl in B; lia]. }
  split; [exact E|]. intros links.
  unfold Mock.parseRouteData, Leaflet.parseRouteData. rewrite E. cbn [length].
  rewrite Nat.ltb_irrefl. cbn [orb].
  destruct (Nat.leb_spec 2 (length links)); split; split;
    try discriminate; try lia; reflexivity.
Qed.

Lemma steps_come_from_numbered_lines_witness :
  RouteParser.parseSteps StepLines.noDigits = [].
Proof.
  apply (proj2 (steps_come_from_numbered_lines StepLines.noDigits)).
  intros c Hc. vm_compute in Hc.
  repeat (destruct Hc as [<- | Hc]; [reflexivity|]). destruct Hc.
Defined.

Module StepShape.
Import JS RegExp Phrase RouteParser RegExpFacts StepLines StepFacts.

Lemma orElse_same a a' b b' :
  sameOutcome a a' -> sameOutcome b b' ->
  sameOutcome (orElse a b) (orElse a' b').
Proof. destruct a, a'; cbn; tauto. Qed.

Lemma star_same ok g k k' :
  (forall y y', samePlace y y' -> sameOutcome (k y) (k' y')) ->
  forall s pv cs cs',
    sameOutcome (star ok g k cs pv s) (star ok g k' cs' pv s).
Proof.
  intros Hk. induction s as [|a s IH]; intros pv cs cs'; cbn [star].
  - apply Hk. split; reflexivity.
  - assert (Here : sameOutcome (k {| prev := pv; rest := a :: s; caps := cs |})
                               (k' {| prev := pv; rest := a :: s; caps := cs' |}))
      by (apply Hk; split; reflexivity).
    destruct (ok a); [|exact Here].
    destruct g; apply orElse_same; auto.
Qed.

(** Capture groups do not change where a pattern matches. *)
Lemma m_strip fl r : forall k k' x x',
  (forall y y', samePlace y y' -> sameOutcome (k y) (k' y')) ->
  samePlace x x' ->
  sameOutcome (m fl r k x) (m fl (strip r) k' x').
Proof.
  induction r as [|c|p|r1 IH1 r2 IH2|r1 IH1 r2 IH2|g p|i r IH| |];
    intros k k' x x' Hk [Hp Hr]; cbn [m strip].
  - apply Hk. now split.
  - rewrite <- Hr. destruct (rest x) as [|a s]; [exact I|].
    destruct (charMatches fl c a); [|exact I]. apply Hk. now split.
  - rewrite <- Hr. destruct (rest x) as [|a s]; [exact I|].
    destruct (classMatches fl p a); [|exact I]. apply Hk. now split.
  - apply IH1; [|now split]. intros y y' Hy. now apply IH2.
  - apply orElse_same; [apply IH1 | apply IH2]; auto; now split.
  - rewrite <- Hp, <- Hr. now apply star_same.
  - apply IH; [|now split]. intros y y' [Hyp Hyr]. apply Hk. now split.
  - unfold atLineStart. rewrite <- Hp.
    destruct (match prev x with
              | Some c => multiline fl && isLineTerminator c
              | None => true
              end); [|exact I].
    apply Hk. now split.
  - unfold atLineEnd. rewrite <- Hr.
    destruct (match rest x with
              | [] => true
              | c :: _ => multiline fl && isLineTerminator c
              end); [|exact I].
    apply Hk. now split.
Qed.

Lemma runAt_strip fl r pv s :
  sameOutcome (runAt fl r pv s) (runAt fl (strip r) pv s).
Proof.
  unfold runAt. apply m_strip; [|split; reflexivity].
  intros y y' H. exact H.
Qed.

(** The pattern of [replace] is the pattern of [match] without its
    group. *)
Lemma stepDistanceRe'_strip pv s :
  runAt flags_none stepDistanceRe' pv s
  = runAt flags_none (strip stepDistanceRe) pv s.
Proof. reflexivity. Qed.

Lemma search_same fl r r' :
  (forall pv s, sameOutcome (runAt fl r pv s) (runAt fl r' pv s)) ->
  forall s i pv,
    match search fl r i pv s, search fl r' i pv s with
    | Some mr, Some mr' => index mr = index mr' /\ matched mr = matched mr'
    | None, None => True
    | _, _ => False
    end.
Proof.
  intros H. induction s as [|a s IH]; intros i pv; cbn [search].
  - specialize (H pv []).
    destruct (runAt fl r pv []) as [y|], (runAt fl r' pv []) as [y'|];
      cbn in H; try contradiction; [|exact I].
    destruct H as [_ Hr]. unfold result. cbn [index matched]. now rewrite Hr.
  - specialize (H pv (a :: s)).
    destruct (runAt fl r pv (a :: s)) as [y|], (runAt fl r' pv (a :: s)) as [y'|];
      cbn in H; try contradiction; [|apply IH].
    destruct H as [_ Hr]. unfold result. cbn [index matched]. now rewrite Hr.
Qed.

Lemma distance_sound pv s y :
  runAt flags_none stepDistanceRe pv s = Some y ->
  exists d post,
    s = 40%N :: d ++ 41%N :: post /\ distanceShape d
    /\ caps y = [(1, d)] /\ rest y = post.
Proof.
  unfold runAt, stepDistanceRe, Plus. cbn [m rest]. intros H.
  destruct s as [|c s]; [discriminate H|].
  unfold charMatches, canonicalize in H. cbn [flags_none ignoreCase] in H.
  destruct (N.eqb_spec 40 c) as [<-|]; [|discriminate H].
  cbn [prev rest caps] in H.
  destruct s as [|n0 s]; [discriminate H|].
  unfold classMatches at 1 in H. cbn [flags_none ignoreCase] in H.
  destruct (digitOrDot n0) eqn:En0; [|discriminate H]. cbn [prev rest caps] in H.
  apply star_greedy in H as (ns & s1 & -> & Hns & H & _).
  cbn [prev rest caps] in H.
  apply star_greedy in H as (ws & s2 & -> & Hws & H & _).
  cbn [rest] in H. destruct s2 as [|u0 s2]; [discriminate H|].
  unfold classMatches at 1 in H. cbn [flags_none ignoreCase] in H.
  destruct (isWord u0) eqn:Eu0; [|discriminate H]. cbn [prev rest caps] in H.
  apply star_greedy in H as (us & s3 & -> & Hus & H & _).
  cbn [rest prev caps] in H. destruct s3 as [|c s3]; [discriminate H|].
  destruct (N.eqb_spec 41 c) as [<-|]; [|discriminate H].
  injection H as <-. cbn [caps rest].
  rewrite (forallb_same _ digitOrDot ns) in Hns by reflexivity.
  rewrite (forallb_same _ isSpace ws) in Hws by reflexivity.
  rewrite (forallb_same _ isWord us) in Hus by reflexivity.
  assert (Ec : consumed
                 {| prev := Some 40%N;
                    rest := n0 :: ns ++ ws ++ u0 :: us ++ 41%N :: s3;
                    caps := [] |}
                 {| prev := after (Some u0) us; rest := 41%N :: s3; caps := [] |}
               = (n0 :: ns) ++ ws ++ u0 :: us).
  { apply consumed_app. cbn [rest].
    now rewrite <- app_assoc, <- app_assoc, <- !app_comm_cons. }
  exists ((n0 :: ns) ++ ws ++ u0 :: us), s3.
  split; [now rewrite <- app_assoc, <- app_assoc, <- !app_comm_cons|]. split.
  - exists (n0 :: ns), ws, (u0 :: us). cbn [forallb]. rewrite En0, Eu0.
    repeat split; auto; discriminate.
  - split; [|reflexivity]. f_equal. f_equal. exact Ec.
Qed.

Lemma firstn_prefix {A} (l1 l2 : list A) :
  firstn (length (l1 ++ l2) - length l2) (l1 ++ l2) = l1.
Proof.
  rewrite length_app. replace (length l1 + length l2 - length l2) with (length l1) by lia.
  rewrite firstn_app, Nat.sub_diag, firstn_all. cbn. apply app_nil_r.
Qed.

(** The distance pattern matches wherever a parenthesised distance
    stands. *)
Lemma distance_complete pv d post :
  distanceShape d ->
  runAt flags_none stepDistanceRe pv (40%N :: d ++ 41%N :: post) <> None.
Proof.
  intros (num & ws & unit & -> & Hn0 & Hnum & Hws & Hu0 & Hunit).
  destruct num as [|n0 ns]; [contradiction|].
  destruct unit as [|u0 us]; [contradiction|].
  cbn [forallb] in Hnum, Hunit.
  apply andb_true_iff in Hnum as [En0 Hns].
  apply andb_true_iff in Hunit as [Eu0 Hus].
  unfold runAt, stepDistanceRe, Plus. cbn [m rest].
  unfold charMatches, canonicalize. cbn [flags_none ignoreCase].
  cbn [N.eqb Pos.eqb prev rest caps].
  rewrite <- !app_assoc, <- !app_comm_cons.
  unfold classMatches at 1. cbn [flags_none ignoreCase]. rewrite En0.
  cbn [prev rest caps].
  apply star_complete;
    [rewrite (forallb_same _ digitOrDot ns) by reflexivity; exact Hns|].
  cbn [prev rest caps].
  apply star_complete;
    [rewrite (forallb_same _ isSpace ws) by reflexivity; exact Hws|].
  cbn [prev rest caps]. unfold classMatches at 1. cbn [flags_none ignoreCase].
  rewrite Eu0.
  apply star_complete;
    [rewrite (forallb_same _ isWord us) by reflexivity; exact Hus|].
  cbn [prev rest caps]. discriminate.
Qed.

(** A distance has no closing parenthesis in it, so where it starts tells
    where it ends. *)
Lemma distance_no_paren d : distanceShape d -> ~ In 41%N d.
Proof.
  intros (num & ws & unit & -> & _ & Hnum & Hws & _ & Hunit) Hin.
  rewrite forallb_forall in Hnum, Hws, Hunit.
  apply in_app_or in Hin as [H | H]; [apply Hnum in H; discriminate H|].
  apply in_app_or in H as [H | H]; [apply Hws in H | apply Hunit in H];
    discriminate H.
Qed.

Lemma app_same_length {A} : forall (p p' q q' : list A),
  length p' = length p -> p ++ q = p' ++ q' -> q = q'.
Proof.
  induction p as [|c p IH]; intros [|c' p'] q q' Hl E; cbn in *;
    try discriminate Hl; [exact E|].
  injection E as _ E. injection Hl as Hl. exact (IH p' q q' Hl E).
Qed.

Lemma until_first {A} (x : A) : forall d d' b b',
  ~ In x d -> ~ In x d' -> d ++ x :: b = d' ++ x :: b' -> d = d'.
Proof.
  induction d as [|c d IH]; intros [|c' d'] b b' H H' E; cbn in E.
  - reflexivity.
  - injection E as -> _. destruct H'. now left.
  - injection E as -> _. destruct H. now left.
  - injection E as -> E. f_equal. apply (IH d' b b'); [| |exact E].
    + intros Hin. apply H. now right.
    + intros Hin. apply H'. now right.
Qed.

(** One step, from the rest of its line: what [parseStep] takes out is the
    leftmost parenthesised distance, and nothing when there is none. *)
Lemma parseStep_spec mr raw :
  group 1 (groups mr) = Some raw ->
  match RouteStep.distance (parseStep mr) with
  | Some d =>
      distanceShape d
      /\ exists a b,
           raw = a ++ 40%N :: d ++ 41%N :: b
           /\ RouteStep.instruction (parseStep mr) = trim (a ++ b)
           /\ forall a' d' b',
                raw = a' ++ 40%N :: d' ++ 41%N :: b' -> distanceShape d' ->
                length a <= length a' /\ (length a' = length a -> d' = d)
  | None =>
      RouteStep.instruction (parseStep mr) = trim raw
      /\ forall a d b, raw = a ++ 40%N :: d ++ 41%N :: b -> ~ distanceShape d
  end.
Proof.
  intros Hg. unfold parseStep, capture1. rewrite Hg. cbn [RouteStep.distance
    RouteStep.instruction].
  pose proof (search_same flags_none stepDistanceRe stepDistanceRe'
                (fun pv s => eq_ind_r (fun o => sameOutcome _ o)
                               (runAt_strip flags_none stepDistanceRe pv s)
                               (stepDistanceRe'_strip pv s))
                raw 0 None) as Same.
  unfold String_remove, String_match.
  destruct (search flags_none stepDistanceRe 0 None raw) as [dm|] eqn:E.
  - destruct (search flags_none stepDistanceRe' 0 None raw) as [dm'|];
      [|contradiction].
    destruct Same as [Si Sm]. rewrite <- Si, <- Sm.
    apply search_sound in E as (pre & post & y & -> & Hy & -> & Hmin).
    apply distance_sound in Hy as (d & post' & -> & Hd & Hc & Hr).
    unfold result. cbn [groups index matched]. rewrite Hc. cbn [group Nat.eqb].
    split; [exact Hd|]. exists pre, post'. split; [reflexivity|]. split.
    + f_equal. rewrite Hr, Nat.add_0_l.
      assert (Em : 40%N :: d ++ 41%N :: post' = (40%N :: d ++ [41%N]) ++ post')
        by (cbn; now rewrite <- app_assoc).
      rewrite Em, firstn_prefix.
      rewrite firstn_app, Nat.sub_diag, firstn_all. cbn [firstn]. rewrite app_nil_r.
      f_equal. rewrite app_assoc, skipn_app, <- length_app, skipn_all, Nat.sub_diag.
      reflexivity.
    + intros a' d' b' E' Hd'. split.
      * destruct (Nat.le_gt_cases (length pre) (length a')) as [Hle | Hgt];
          [exact Hle|].
        destruct (split_shorter pre a' _ _ E' Hgt) as (c & r & -> & Ec).
        specialize (Hmin a' c r eq_refl). rewrite <- Ec in Hmin.
        now apply (distance_complete (after None a') d' b') in Hd'.
      * intros El.
        pose proof (app_same_length pre a' _ _ El E') as Ea.
        injection Ea as Ea. symmetry.
        apply (until_first 41%N d d' post' b'); auto using distance_no_paren.
  - destruct (search flags_none stepDistanceRe' 0 None raw); [contradiction|].
    split; [reflexivity|].
    intros a d b -> Hd.
    apply (distance_complete (after None a) d b) in Hd. apply Hd.
    exact (search_none _ _ _ _ _ E a _ eq_refl).
Qed.

Lemma forallb_In {A} (p : A -> bool) l l' :
  (forall c, In c l' -> In c l) -> forallb p l = true -> forallb p l' = true.
Proof. rewrite !forallb_forall. auto. Qed.

End StepShape.

(** X19. Every parsed step comes from a line of the text that reads a
    number, a full stop, white space and the rest of the line. The step has
    a distance exactly when the rest of the line has a parenthesised
    distance somewhere (digits and full stops, white space if any, word
    characters): the distance is then the leftmost such one, without its
    parentheses, and the instruction is the rest of the line without it,
    trimmed; otherwise the instruction is the rest of the line, trimmed.
    The instruction is always trimmed and within one line. *)
Theorem step_shape (text : JS.jsstring) (step : RouteStep.t) :
  In step (RouteParser.parseSteps text) ->
  exists pre digits ws raw post,
    text = pre ++ digits ++ 46%N :: ws ++ raw ++ post
    /\ StepLines.lineStart (Phrase.after None pre) = true
    /\ StepLines.stepAt (digits ++ 46%N :: ws ++ raw ++ post) digits ws raw post
    /\ match RouteStep.distance step with
       | Some d =>
           StepLines.distanceShape d
           /\ exists a b,
                raw = a ++ 40%N :: d ++ 41%N :: b
                /\ RouteStep.instruction step = JS.trim (a ++ b)
                /\ forall a' d' b',
                     raw = a' ++ 40%N :: d' ++ 41%N :: b' ->
                     StepLines.distanceShape d' ->
                     length a <= length a' /\ (length a' = length a -> d' = d)
       | None =>
           RouteStep.instruction step = JS.trim raw
           /\ forall a d b,
                raw = a ++ 40%N :: d ++ 41%N :: b -> ~ StepLines.distanceShape d
       end
    /\ Phrase.trimmed (RouteStep.instruction step)
    /\ forallb JS.isDot (RouteStep.instruction step) = true.
Proof.
  unfold RouteParser.parseSteps, RegExp.String_matchAll. intros Hin.
  apply in_map_iff in Hin as (mr & <- & Hin).
  apply StepFacts.matchAll_in in Hin as (pre & s & y & -> & Hy & ->).
  apply StepFacts.stepRe_sound in Hy as (Hl & digits & ws & raw & post & Hs & Hc).
  pose proof Hs as (Es & _ & _ & _ & _ & _ & Hraw & _).
  exists pre, digits, ws, raw, post.
  split; [now rewrite Es|]. split; [exact Hl|].
  split; [rewrite Es in Hs at 1; exact Hs|].
  assert (Hg : RegExp.group 1 (RegExp.groups (RegExp.result (0 + length pre) s y))
               = Some raw).
  { unfold RegExp.result. cbn [RegExp.groups]. now rewrite Hc. }
  pose proof (StepShape.parseStep_spec _ raw Hg) as Sp.
  split; [exact Sp|].
  destruct (RouteStep.distance
              (RouteParser.parseStep (RegExp.result (0 + length pre) s y)))
    as [d|].
  - destruct Sp as (_ & a & b & Er & -> & _).
    split; [apply PatternFacts.trim_trimmed|].
    apply PatternFacts.trim_forallb.
    apply (StepShape.forallb_In JS.isDot raw); [|exact Hraw].
    intros c Hc'. rewrite Er. apply in_app_or in Hc' as [Hc' | Hc'].
    + apply in_or_app. now left.
    + apply in_or_app. right. right. apply in_or_app. right. now right.
  - destruct Sp as [-> _]. split; [apply PatternFacts.trim_trimmed|].
    now apply PatternFacts.trim_forallb.
Qed.

Lemma step_shape_witness :
  exists pre digits ws raw post,
    StepLines.numbered = pre ++ digits ++ 46%N :: ws ++ raw ++ post
    /\ StepLines.lineStart (Phrase.after None pre) = true
    /\ exists a b,
         raw = a ++ 40%N :: JS.lit "0.2 mi" ++ 41%N :: b
         /\ forall a' d' b',
              raw = a' ++ 40%N :: d' ++ 41%N :: b' ->
              StepLines.distanceShape d' -> length a <= length a'.
Proof.
  destruct (step_shape StepLines.numbered
              (RouteStep.mk (JS.lit "Head north  on Pine St")
                 (Some (JS.lit "0.2 mi"))))
    as (pre & digits & ws & raw & post & E & Hl & _
        & (_ & a & b & Er & _ & Hmin) & _).
  { vm_compute. left. reflexivity. }
  exists pre, digits, ws, raw, post. split; [exact E|]. split; [exact Hl|].
  exists a, b. split; [exact Er|].
  intros a' d' b' E' Hd'. exact (proj1 (Hmin a' d' b' E' Hd')).
Defined.

(** ** The audio helpers *)

Module Base64Facts.
Import JS Audio.
Local Open Scope N_scope.

Ltac divmod := intros; zify; Z.to_euclidean_division_equations; lia.

(** Lists three elements at a time. *)
Lemma list_ind3 {A} (P : list A -> Prop) :
  P [] -> (forall a, P [a]) -> (forall a b, P [a; b]) ->
  (forall a b c l, P l -> P (a :: b :: c :: l)) ->
  forall l, P l.
Proof.
  intros H0 H1 H2 H3.
  assert (All : forall l, P l /\ (forall a, P (a :: l)) /\ (forall a b, P (a :: b :: l))).
  { induction l as [|x l (IH0 & IH1 & IH2)]; [auto|].
    split; [apply IH1|]. split; [intros a; apply IH2|].
    intros a b. now apply H3. }
  intros l. apply All.
Qed.

(** A check of the 64 sextets. *)
Lemma below64 (p : N -> bool) :
  forallb p (map N.of_nat (seq 0 64)) = true ->
  forall s, s < 64 -> p s = true.
Proof.
  intros H s Hs. rewrite forallb_forall in H. apply H.
  apply in_map_iff. exists (N.to_nat s). split; [apply N2Nat.id|].
  apply in_seq. lia.
Qed.

Lemma sextetOf_charOf s : s < 64 -> sextetOf (charOf s) = Some s.
Proof.
  intros Hs.
  pose proof (below64
                (fun s => match sextetOf (charOf s) with
                          | Some t => N.eqb t s
                          | None => false
                          end) eq_refl s Hs) as H.
  cbn beta in H. destruct (sextetOf (charOf s)) as [t|]; [|discriminate H].
  apply N.eqb_eq in H. now subst.
Qed.

Lemma charOf_plain s :
  s < 64 ->
  isAsciiWhitespace (charOf s) = false /\ N.eqb (charOf s) padChar = false
  /\ N.leb (charOf s) 255 = true.
Proof.
  intros Hs.
  pose proof (below64
                (fun s => negb (isAsciiWhitespace (charOf s))
                          && negb (N.eqb (charOf s) padChar)
                          && N.leb (charOf s) 255) eq_refl s Hs) as H.
  cbn beta in H. apply andb_true_iff in H as [H H3].
  apply andb_true_iff in H as [H1 H2].
  apply negb_true_iff in H1. apply negb_true_iff in H2. auto.
Qed.

Lemma sextets_small bytes :
  isBytes bytes -> Forall (fun s => s < 64) (sextetsOfBytes bytes).
Proof.
  induction bytes as [|a|a b|a b c l IH] using list_ind3; intros H; cbn.
  - constructor.
  - inversion H as [|? ? Ha _]; subst.
    repeat constructor; divmod.
  - inversion H as [|? ? Ha H']; subst. inversion H' as [|? ? Hb _]; subst.
    repeat constructor; divmod.
  - inversion H as [|? ? Ha H']; subst. inversion H' as [|? ? Hb H'']; subst.
    inversion H'' as [|? ? Hc Hl]; subst.
    repeat (constructor; [divmod|]). now apply IH.
Qed.

Lemma bytes_of_sextets bytes :
  isBytes bytes -> bytesOfSextets (sextetsOfBytes bytes) = bytes.
Proof.
  induction bytes as [|a|a b|a b c l IH] using list_ind3; intros H; cbn.
  - reflexivity.
  - inversion H as [|? ? Ha _]; subst. f_equal. divmod.
  - inversion H as [|? ? Ha H']; subst. inversion H' as [|? ? Hb _]; subst.
    f_equal; [divmod|]. f_equal. divmod.
  - inversion H as [|? ? Ha H']; subst. inversion H' as [|? ? Hb H'']; subst.
    inversion H'' as [|? ? Hc Hl]; subst.
    rewrite (IH Hl). f_equal; [divmod|]. f_equal; [divmod|]. f_equal. divmod.
Qed.

Lemma sextets_of_chars ss :
  Forall (fun s => s < 64) ss -> sextetsOfChars (map charOf ss) = Some ss.
Proof.
  induction 1 as [|s ss Hs _ IH]; cbn [map sextetsOfChars]; [reflexivity|].
  now rewrite (sextetOf_charOf s Hs), IH.
Qed.

(** The number of sextets and the padding, by the number of bytes. *)
Lemma sextets_length bytes :
  (length (sextetsOfBytes bytes) + length (padding (length bytes))
   = 4 * ((length bytes + 2) / 3))%nat
  /\ match (length bytes mod 3)%nat with
     | 0%nat => (length (sextetsOfBytes bytes) mod 4 = 0)%nat
     | 1%nat => (length (sextetsOfBytes bytes) mod 4 = 2)%nat
     | _ => (length (sextetsOfBytes bytes) mod 4 = 3)%nat
     end.
Proof.
  induction bytes as [|a|a b|a b c l [IH1 IH2]] using list_ind3;
    try (split; reflexivity).
  assert (E3 : (length (a :: b :: c :: l) mod 3 = length l mod 3)%nat).
  { cbn [length].
    replace (S (S (S (length l)))) with (length l + 1 * 3)%nat by lia.
    apply Nat.Div0.mod_add. }
  assert (E4 : (length (sextetsOfBytes (a :: b :: c :: l)) mod 4
                = length (sextetsOfBytes l) mod 4)%nat).
  { cbn [sextetsOfBytes length].
    replace (S (S (S (S (length (sextetsOfBytes l))))))
      with (length (sextetsOfBytes l) + 1 * 4)%nat by lia.
    apply Nat.Div0.mod_add. }
  split.
  - unfold padding in *. rewrite E3. cbn [sextetsOfBytes length].
    replace (S (S (S (length l))) + 2)%nat with ((length l + 2) + 1 * 3)%nat by lia.
    rewrite Nat.div_add by lia. lia.
  - rewrite E3, E4. exact IH2.
Qed.

Lemma filter_all {A} (p : A -> bool) l : forallb p l = true -> filter p l = l.
Proof.
  induction l as [|a l IH]; cbn; [reflexivity|]. intros H.
  apply andb_true_iff in H as [Ha Hl]. now rewrite Ha, IH.
Qed.

Lemma plain_chars ss (p : char -> bool) :
  Forall (fun s => s < 64) ss ->
  (forall s, s < 64 -> p (charOf s) = true) ->
  forallb p (map charOf ss) = true.
Proof.
  intros H Hp. induction H as [|s ss Hs _ IH]; cbn [map forallb];
    [reflexivity|].
  now rewrite (Hp s Hs), IH.
Qed.

Lemma padding_cases n :
  padding n = [] \/ padding n = [padChar] \/ padding n = [padChar; padChar].
Proof.
  unfold padding. destruct (n mod 3)%nat as [|[|[|k]]]; auto.
Qed.

(** Removing the padding of an encoding leaves its sextets. *)
Lemma strip_encoding bytes :
  isBytes bytes ->
  stripPadding (base64Encode bytes) = map charOf (sextetsOfBytes bytes).
Proof.
  intros Hb. pose proof (sextets_small bytes Hb) as Hs.
  destruct (sextets_length bytes) as [Hlen Hmod].
  unfold stripPadding, base64Encode.
  assert (L4 : (length (map charOf (sextetsOfBytes bytes)
                        ++ padding (length bytes)) mod 4 = 0)%nat).
  { rewrite length_app, length_map, Hlen, Nat.mul_comm. apply Nat.Div0.mod_mul. }
  rewrite L4. cbn [Nat.eqb]. rewrite rev_app_distr.
  set (body := map charOf (sextetsOfBytes bytes)).
  assert (Last : forall a r, rev body = a :: r -> N.eqb a padChar = false).
  { intros a r E.
    assert (Hin : In a body) by (apply in_rev; rewrite E; now left).
    apply in_map_iff in Hin as (s & <- & Hin).
    rewrite Forall_forall in Hs. now apply charOf_plain, Hs. }
  destruct (padding_cases (length bytes)) as [E | [E | E]]; rewrite E in *.
  - cbn [rev app]. rewrite app_nil_r.
    destruct (rev body) as [|a [|b r]] eqn:Er.
    + reflexivity.
    + now rewrite (Last a [] eq_refl).
    + now rewrite (Last a (b :: r) eq_refl).
  - cbn [rev app]. rewrite N.eqb_refl.
    destruct (rev body) as [|b r] eqn:Er.
    + apply (f_equal (@rev char)) in Er. rewrite rev_involutive in Er.
      now rewrite Er.
    + rewrite (Last b r eq_refl).
      change (rev r ++ [b]) with (rev (b :: r)). rewrite <- Er.
      apply rev_involutive.
  - cbn [rev app]. rewrite !N.eqb_refl. apply rev_involutive.
Qed.

Lemma atob_encoding bytes :
  isBytes bytes -> atob (base64Encode bytes) = Some bytes.
Proof.
  intros Hb. pose proof (sextets_small bytes Hb) as Hs. unfold atob.
  assert (F : filter (fun c => negb (isAsciiWhitespace c)) (base64Encode bytes)
              = base64Encode bytes).
  { apply filter_all. unfold base64Encode. rewrite forallb_app.
    rewrite (plain_chars _ (fun c => negb (isAsciiWhitespace c)) Hs).
    - destruct (padding_cases (length bytes)) as [E | [E | E]]; now rewrite E.
    - intros s Hlt. destruct (charOf_plain s Hlt) as (-> & _). reflexivity. }
  rewrite F, (strip_encoding bytes Hb), length_map.
  destruct (sextets_length bytes) as [_ Hmod].
  assert (N1 : Nat.eqb (length (sextetsOfBytes bytes) mod 4) 1 = false).
  { destruct (length bytes mod 3)%nat as [|[|k]]; now rewrite Hmod. }
  rewrite N1, (sextets_of_chars _ Hs). cbn. now rewrite bytes_of_sextets.
Qed.

Lemma map_id_bytes (f : N -> N) bytes :
  isBytes bytes -> (forall b, b < 256 -> f b = b) -> map f bytes = bytes.
Proof.
  intros H Hf. induction H as [|b l Hb _ IH]; cbn; [reflexivity|].
  now rewrite (Hf b Hb), IH.
Qed.

Lemma encode_spec bytes :
  isBytes bytes -> encode bytes = Some (base64Encode bytes).
Proof.
  intros H. unfold encode, btoa.
  replace (map fromCharCode bytes) with bytes
    by (symmetry; apply (map_id_bytes fromCharCode bytes H);
        intros b Hb; unfold fromCharCode; apply N.mod_small; lia).
  assert (A : forallb (fun c => N.leb c 255) bytes = true).
  { apply forallb_forall. intros c Hc. unfold isBytes in H.
    rewrite Forall_forall in H. specialize (H c Hc). apply N.leb_le. lia. }
  now rewrite A.
Qed.

Lemma decode_encoding bytes :
  isBytes bytes -> decode (base64Encode bytes) = Some bytes.
Proof.
  intros H. unfold decode. rewrite (atob_encoding bytes H). cbn. f_equal.
  apply (map_id_bytes _ bytes H). intros b Hb. apply N.mod_small. exact Hb.
Qed.

Lemma encoding_nil bytes : base64Encode bytes = [] -> bytes = [].
Proof.
  destruct bytes as [|a [|b [|c l]]]; [reflexivity | | |]; discriminate.
Qed.

End Base64Facts.

(** X20. [decode] undoes [encode]: for every byte array, [encode] returns
    a string (it never throws) of four characters for every three bytes
    begun, and [decode] of that string returns the bytes. So what
    [onmessage] makes of an encoded chunk is the chunk's bytes (no audio
    for the empty chunk), and such a message has a sound audio part exactly
    when the number of bytes is even. Both revisions. *)
Theorem decode_undoes_encode (bytes : list N) :
  Audio.isBytes bytes ->
  exists base64,
    Audio.encode bytes = Some base64
    /\ Audio.decode base64 = Some bytes
    /\ length base64 = 4 * ((length bytes + 2) / 3)
    /\ Audio.audioFieldOf (Some base64)
       = match bytes with [] => Voice.NoAudio | _ => Voice.Pcm bytes end
    /\ (Voice.audioOk (Audio.audioFieldOf (Some base64))
        <-> Nat.even (length bytes) = true).
Proof.
  intros H. exists (Audio.base64Encode bytes).
  pose proof (Base64Facts.decode_encoding bytes H) as D.
  assert (F : Audio.audioFieldOf (Some (Audio.base64Encode bytes))
              = match bytes with [] => Voice.NoAudio | _ => Voice.Pcm bytes end).
  { unfold Audio.audioFieldOf.
    destruct (Audio.base64Encode bytes) as [|c s] eqn:E.
    - now rewrite (Base64Facts.encoding_nil bytes E).
    - rewrite D. destruct bytes; [discriminate E | reflexivity]. }
  split; [now apply Base64Facts.encode_spec|]. split; [exact D|]. split.
  - unfold Audio.base64Encode. rewrite length_app, length_map.
    apply Base64Facts.sextets_length.
  - split; [exact F|]. rewrite F. unfold Voice.audioOk, Voice.decodable.
    destruct bytes as [|b l].
    + split; [reflexivity | now left].
    + rewrite <- Nat.negb_odd. split.
      * intros [E | (bs & E & Ho & _)]; [discriminate E|].
        injection E as <-. now rewrite Ho.
      * intros Ho. right. exists (b :: l). split; [reflexivity|].
        split; [|discriminate]. now apply negb_true_iff.
Qed.

Lemma decode_undoes_encode_witness :
  Audio.decode (JS.lit "TWFuIQ==") = Some (JS.lit "Man!").
Proof.
  destruct (decode_undoes_encode (JS.lit "Man!")) as (base64 & E & D & _).
  { repeat constructor. }
  vm_compute in E. injection E as <-. exact D.
Defined.

Module PcmFacts.
Import JS Audio.
Local Open Scope Z_scope.

Ltac divmod := intros; zify; Z.to_euclidean_division_equations; lia.

Lemma list_ind2 {A} (P : list A -> Prop) :
  P [] -> (forall a, P [a]) -> (forall a b l, P l -> P (a :: b :: l)) ->
  forall l, P l.
Proof.
  intros H0 H1 H2.
  assert (All : forall l, P l /\ forall a, P (a :: l)).
  { induction l as [|x l [IH0 IH1]]; [auto|].
    split; [apply IH1|]. intros a. now apply H2. }
  intros l. apply All.
Qed.

Lemma allFrom_spec bits p : forall base,
  allFrom bits p base = true ->
  forall v, base <= v < base + 2 ^ Z.of_nat bits -> p v = true.
Proof.
  induction bits as [|k IH]; intros base H v Hv.
  - cbn in Hv. assert (v = base) by lia. now subst.
  - cbn [allFrom] in H. apply andb_true_iff in H as [H1 H2].
    rewrite Nat2Z.inj_succ, Z.pow_succ_r in Hv by lia.
    destruct (Z.lt_ge_cases v (base + 2 ^ Z.of_nat k)).
    + apply (IH base H1). lia.
    + apply (IH _ H2). lia.
Qed.

Lemma every_sample_exact v :
  -32768 <= v < 32768 -> sampleExact v = true.
Proof.
  apply (allFrom_spec 16 sampleExact (-32768)). vm_compute. reflexivity.
Qed.

Lemma every_overshoot_wraps k :
  32768 <= k < 65536 -> sampleWraps k = true.
Proof.
  apply (allFrom_spec 15 sampleWraps 32768). vm_compute. reflexivity.
Qed.

Lemma signed16_range lo hi :
  (lo < 256)%N -> (hi < 256)%N ->
  -32768 <= signed16 (Z.of_N lo + 256 * Z.of_N hi) < 32768.
Proof.
  intros Hl Hh. unfold signed16.
  destruct (Z.ltb_spec (Z.of_N lo + 256 * Z.of_N hi) 32768); lia.
Qed.

Lemma bytes_of_signed16 lo hi :
  (lo < 256)%N -> (hi < 256)%N ->
  let u := signed16 (Z.of_N lo + 256 * Z.of_N hi) mod 65536 in
  Z.to_N (u mod 256) = lo /\ Z.to_N (u / 256) = hi.
Proof.
  intros Hl Hh u. subst u. unfold signed16.
  destruct (Z.ltb_spec (Z.of_N lo + 256 * Z.of_N hi) 32768); split; divmod.
Qed.

(** The view of a byte array as 16-bit integers. *)
Lemma int16sOf_spec bytes :
  isBytes bytes ->
  match int16sOf bytes with
  | Some values =>
      Nat.odd (length bytes) = false
      /\ length values = (length bytes / 2)%nat
      /\ Forall (fun v => -32768 <= v < 32768) values
      /\ bytesOfInt16s values = bytes
  | None => Nat.odd (length bytes) = true
  end.
Proof.
  induction bytes as [|a|lo hi l IH] using list_ind2; intros H.
  - cbn. repeat split; constructor.
  - reflexivity.
  - inversion H as [|? ? Hl H']; subst. inversion H' as [|? ? Hh Hr]; subst.
    specialize (IH Hr). cbn [int16sOf].
    destruct (int16sOf l) as [values|]; cbn [option_map].
    + destruct IH as (Ho & Hn & Hv & Hb).
      split; [cbn [length]; now rewrite Nat.odd_succ, Nat.even_succ|].
      split.
      { cbn [length]. rewrite Hn.
        replace (S (S (length l))) with (length l + 1 * 2)%nat by lia.
        rewrite Nat.div_add by lia. lia. }
      split; [constructor; [now apply signed16_range | exact Hv]|].
      cbn [bytesOfInt16s flat_map]. fold (bytesOfInt16s values). rewrite Hb.
      destruct (bytes_of_signed16 lo hi Hl Hh) as [-> ->]. reflexivity.
    + cbn [length]. now rewrite Nat.odd_succ, Nat.even_succ.
Qed.

Lemma samples_exact values :
  Forall (fun v => -32768 <= v < 32768) values ->
  map micSample (map sampleOf values) = values
  /\ Forall (fun x => PrimFloat.leb (-1)%float x = true
                      /\ PrimFloat.ltb x 1%float = true)
            (map sampleOf values).
Proof.
  induction 1 as [|v values Hv _ [IH1 IH2]]; cbn [map]; [split; constructor|].
  pose proof (every_sample_exact v Hv) as E. unfold sampleExact in E.
  apply andb_true_iff in E as [E E3]. apply andb_true_iff in E as [E1 E2].
  apply Z.eqb_eq in E1. split.
  - now rewrite E1, IH1.
  - constructor; [split; assumption | exact IH2].
Qed.

End PcmFacts.

(** X21. [decodeAudioData] reads a byte array as 16-bit integers, low byte
    first, and scales them by 1/32768: an odd number of bytes is a
    RangeError, no bytes a DOMException, and otherwise there is one sample
    for every two bytes, each at least -1 and below 1 (the frame count is
    the one the playback schedule uses). The microphone loop inverts this
    scaling exactly: converting the decoded samples as [onaudioprocess]
    does and encoding them gives the encoding of the original bytes. A
    microphone value k/32768 from 1.0 up to 2.0, outside that range, is
    stored as k - 65536: full scale 1.0 is sent as -32768. *)
Theorem samples_round_trip (bytes : list N) :
  Audio.isBytes bytes ->
  (Nat.odd (length bytes) = true ->
   Audio.decodeAudioData bytes = inr Eff.RangeError)
  /\ (bytes = [] -> Audio.decodeAudioData bytes = inr Eff.DOMException)
  /\ (Nat.odd (length bytes) = false -> bytes <> [] ->
      exists samples,
        Audio.decodeAudioData bytes = inl samples
        /\ length samples = length bytes / 2
        /\ Forall (fun x => PrimFloat.leb (-1)%float x = true
                            /\ PrimFloat.ltb x 1%float = true) samples
        /\ Audio.bytesOfInt16s (map Audio.micSample samples) = bytes
        /\ Audio.micChunk samples = Audio.encode bytes)
  /\ (forall (App : Type) (s : Voice.Session App),
        Voice.decodeAudioData App (Voice.Pcm bytes) s
        = (s, match Audio.decodeAudioData bytes with
              | inl samples => inl (Z.of_nat (length samples))
              | inr e => inr e
              end))
  /\ (forall k, (32768 <= k < 65536)%Z ->
        Audio.micSample (Audio.sampleOf k) = (k - 65536)%Z).
Proof.
  intros H. pose proof (PcmFacts.int16sOf_spec bytes H) as S.
  unfold Audio.decodeAudioData.
  destruct (Audio.int16sOf bytes) as [values|] eqn:E.
  - destruct S as (Ho & Hn & Hv & Hb).
    destruct (PcmFacts.samples_exact values Hv) as [Hm Hr].
    split; [intros Ho'; congruence|]. split; [|split; [|split]].
    + intros ->. cbn in E. now injection E as <-.
    + intros _ Hne. destruct values as [|v values].
      { cbn in Hb. now subst bytes. }
      exists (map Audio.sampleOf (v :: values)).
      split; [reflexivity|]. split; [now rewrite length_map|].
      split; [exact Hr|]. unfold Audio.micChunk. rewrite Hm, Hb. auto.
    + intros App s. unfold Voice.decodeAudioData. rewrite Ho.
      destruct values as [|v values].
      * cbn in Hb. subst bytes. reflexivity.
      * destruct (Nat.eqb_spec (length bytes) 0) as [E0|_].
        { rewrite E0 in Hn. cbn in Hn. discriminate Hn. }
        unfold Eff.ret. now rewrite length_map, Hn.
    + intros k Hk. apply Z.eqb_eq. exact (PcmFacts.every_overshoot_wraps k Hk).
  - split; [reflexivity|]. split; [|split; [|split]].
    + intros ->. discriminate E.
    + intros Ho. congruence.
    + intros App s. unfold Voice.decodeAudioData. now rewrite S.
    + intros k Hk. apply Z.eqb_eq. exact (PcmFacts.every_overshoot_wraps k Hk).
Qed.

Lemma samples_round_trip_witness :
  Audio.decodeAudioData [0; 128; 255; 127]%N
  = inl [(-1)%float; 0.999969482421875%float]
  /\ Audio.micSample 1%float = (-32768)%Z.
Proof.
  destruct (samples_round_trip [0; 128; 255; 127]%N) as (_ & _ & H & _ & W).
  { repeat constructor. }
  destruct (H eq_refl) as (samples & E & _); [discriminate|].
  split.
  - rewrite E. vm_compute in E. injection E as <-. reflexivity.
  - exact (W 32768%Z ltac:(lia)).
Defined.
